(** * wp2pdf: the document rendering pipeline, embedded and verified

    A shallow embedding of the rendering core of wp2pdf
    ([pdf_generator.py], [cache_manager.py], [text_formatter.py] and the
    path handling of [batch_processor.py]).

    Conventions.
    - A Python [str] is a list of Unicode code points ([pystr]); [len],
      slicing and [startswith] therefore count code points, as Python does.
    - Python floats (device units, font sizes) are rationals [Q].  Layout
      is computed in exact arithmetic; where a property depends on
      rounding (the display size of an image) the computation is modelled
      in IEEE 754 doubles, see [Binary64].
    - Code that lives outside the repository (the [emoji] table, the
      font metrics, line breaking and image loading of [fpdf],
      BeautifulSoup's parser, [html.unescape], [datetime], md5, the
      network, the Unicode database) is a type class; closed examples
      instantiate it with small stand-ins.
    - An exception that the source catches is an [option] that the
      catching code inspects. *)

From Stdlib Require Import QArith Qpower Qround Lqa.
From Stdlib Require Import DecimalString HexadecimalString DecimalZ.
From stdpp Require Import gmap strings list fin_maps.

Local Open Scope list_scope.

(** * Python values *)

Abbreviation pystr := (list N).
Abbreviation bytes := (list Byte.byte).

(** An ASCII literal as a Python string. *)
Definition py (s : string) : pystr :=
  map Ascii.N_of_ascii (String.list_ascii_of_string s).

(** [str(n)] for an [int]. *)
Definition str_of_int (n : Z) : pystr :=
  py (DecimalString.NilZero.string_of_int (Z.to_int n)).

(** The characters [str] uses for an [int]: the minus sign and the ten
    digits. *)
Definition sign_or_digit (c : N) : Prop :=
  c = 45%N \/ (48 <= c <= 57)%N.

(** [f"{n:x}"] for a non-negative [int]. *)
Definition hex_of_N (n : N) : pystr :=
  py (HexadecimalString.NilZero.string_of_uint (N.to_hex_uint n)).

(** [s.startswith(pre)] *)
Fixpoint startswith (s pre : pystr) {struct pre} : bool :=
  match pre with
  | [] => true
  | p :: pre' =>
      match s with
      | c :: s' => if N.eqb p c then startswith s' pre' else false
      | [] => false
      end
  end.

(** [s.encode('utf-8')] raises [UnicodeEncodeError] when the string holds
    a surrogate code point (U+D800 to U+DFFF), and only then. *)
Definition encodable (s : pystr) : bool :=
  forallb (fun c => negb ((55296 <=? c) && (c <=? 57343))%N) s.

(** Truthiness of a string: [if s:] *)
Definition truthy {A} (s : list A) : bool :=
  match s with [] => false | _ :: _ => true end.

(** [c in s] *)
Definition contains (c : N) (s : pystr) : bool := existsb (N.eqb c) s.

(** [str.isspace] on one code point, the set CPython uses for [strip],
    [split] and the regular expression class [\s]. *)
Definition isspace (c : N) : bool :=
  ((9 <=? c) && (c <=? 13) || (28 <=? c) && (c <=? 32)
   || (c =? 133) || (c =? 160) || (c =? 5760)
   || (8192 <=? c) && (c <=? 8202)
   || (c =? 8232) || (c =? 8233) || (c =? 8239) || (c =? 8287)
   || (c =? 12288))%N.

Definition space : N := 32%N.
Definition underscore : N := 95%N.
Definition hyphen : N := 45%N.

(** [s.lstrip()], [s.rstrip()], [s.strip()] with a set of characters given
    as a predicate. *)
Fixpoint lstrip_by (f : N -> bool) (s : pystr) : pystr :=
  match s with
  | [] => []
  | c :: s' => if f c then lstrip_by f s' else s
  end.

Fixpoint rstrip_by (f : N -> bool) (s : pystr) : pystr :=
  match s with
  | [] => []
  | c :: s' =>
      match rstrip_by f s' with
      | [] => if f c then [] else [c]
      | kept => c :: kept
      end
  end.

Definition strip_by (f : N -> bool) (s : pystr) : pystr :=
  rstrip_by f (lstrip_by f s).

Definition strip (s : pystr) : pystr := strip_by isspace s.

(** [s.split()]: the maximal runs of non-whitespace characters. *)
Fixpoint split (s : pystr) : list pystr :=
  match s with
  | [] => []
  | c :: s' =>
      if isspace c then split s'
      else
        match s' with
        | [] => [[c]]
        | c' :: _ =>
            if isspace c' then [c] :: split s'
            else
              match split s' with
              | word :: words => (c :: word) :: words
              | [] => [[c]]
              end
        end
  end.

(** [sep.join(parts)] *)
Fixpoint join (sep : pystr) (parts : list pystr) : pystr :=
  match parts with
  | [] => []
  | [p] => p
  | p :: rest => p ++ sep ++ join sep rest
  end.

(** A word, as [split] returns them: not empty and without whitespace. *)
Definition is_word (w : pystr) : Prop :=
  w <> [] /\ Forall (fun c => isspace c = false) w.

(** [s.replace(old, new)] for a one-character [old]. *)
Definition replace_char (old : N) (new : pystr) (s : pystr) : pystr :=
  flat_map (fun c => if N.eqb c old then new else [c]) s.

(** [re.sub(r'[...]+', repl, s)] for a character class given as a
    predicate: every maximal run of matching characters becomes [repl]. *)
Fixpoint sub_runs (f : N -> bool) (repl : pystr) (s : pystr) : pystr :=
  match s with
  | [] => []
  | c :: s' =>
      if f c then
        match s' with
        | c' :: _ => if f c' then sub_runs f repl s'
                     else repl ++ sub_runs f repl s'
        | [] => repl
        end
      else c :: sub_runs f repl s'
  end.

(** [s.zfill(width)] for the digit strings used below. *)
Definition zfill (width : nat) (s : pystr) : pystr :=
  replicate (width - length s) 48%N ++ s.

(** Comparison of floats: [a > b]. *)
Definition Qgtb (a b : Q) : bool := negb (Qle_bool a b).

(** The Unicode database behind [str.isalnum] and [str.lower]. *)
Class UnicodeDb := {
  isalnum : N -> bool;
  lower : pystr -> pystr
}.

(** The regular expression class [\w] on [str] patterns. *)
Definition isword `{UnicodeDb} (c : N) : bool :=
  isalnum c || N.eqb c underscore.

(** * Python floats: IEEE 754 binary64 *)

(** A finite double is a rational m * 2^e with |m| < 2^53, and every
    arithmetic operation returns the double nearest to the exact result,
    the one with an even m when two are equally near.  [round] is that
    rounding, on rationals.  The range of the exponent is not modelled (no
    overflow, no subnormal numbers): the page sizes, margins and pixel
    counts computed with here are far from its ends. *)
Module Binary64.

(** Rounding to the nearest integer, to the even one of two that are
    equally near. *)
Definition nearest_even (q : Q) : Z :=
  let f := Qfloor q in
  match (q - inject_Z f ?= 1 # 2)%Q with
  | Lt => f
  | Gt => (f + 1)%Z
  | Eq => if Z.even f then f else (f + 1)%Z
  end.

(** The binary exponent of a positive number: the [e] with
    2^e <= q < 2^(e+1). *)
Definition ilog2 (q : Q) : Z :=
  if Qle_bool 1 q then Z.log2 (Qfloor q)
  else (- Z.log2_up (Qceiling (/ q)))%Z.

(** A positive number scaled to lie between 2^52 and 2^53, rounded to an
    integer there, and scaled back. *)
Definition round_pos (q : Q) : Q :=
  let e := (ilog2 q - 52)%Z in
  (inject_Z (nearest_even (q / 2 ^ e)) * 2 ^ e)%Q.

(** The double nearest to a rational. *)
Definition round (q : Q) : Q :=
  match (q ?= 0)%Q with
  | Gt => round_pos q
  | Lt => (- round_pos (- q))%Q
  | Eq => 0%Q
  end.

(** The largest relative error of one rounding, 2^-53. *)
Definition unit_roundoff : Q := 1 # 9007199254740992.

(** Four times that, 2^-51. *)
Definition rounding_slack : Q := 1 # 2251799813685248.

(** [a - b], [a * b] and [a / b] on floats, and [a / b] on integers, which
    Python rounds once, from the exact quotient. *)
Definition sub (a b : Q) : Q := round (a - b).
Definition mul (a b : Q) : Q := round (a * b).
Definition div (a b : Q) : Q := round (a / b).
Definition int_div (a b : Z) : Q := round (inject_Z a / inject_Z b).

End Binary64.

(** * Paths ([pathlib.Path]) *)

Abbreviation Path := (list pystr).

(** [dir / name] for a relative one-component [name]. *)
Definition path_join (dir : Path) (name : pystr) : Path := dir ++ [name].

(** [p.parent] and [p.name] *)
Definition parent (p : Path) : Path := removelast p.
Definition name (p : Path) : pystr := List.last p [].

(** * [cache_manager.py] *)

Module CacheManager.

(** What the cache consumes from outside: md5, the glyph provider reached
    with [requests.get], and PIL's decoder.  [md5_hexdigest s] is the hex
    digest of the UTF-8 encoding of [s], for a string that has one.
    [http_get n url] is the body of the response to the request made after
    [n] earlier ones (so the network may answer the same URL differently
    over time); [None] is a raised exception. *)
Class Provider := {
  md5_hexdigest : pystr -> pystr;
  http_get : nat -> pystr -> option bytes;
  image_open : bytes -> option bytes
}.

(** The object's fields and the part of the file system it touches:
    [files] are the names present in [cache_dir], [emoji_mapping_file] the
    mapping last written to [emoji_mapping.json], [requests] the URLs
    fetched so far, oldest first. *)
Record t := mk {
  cache_dir : Path;
  emoji_mapping : gmap pystr pystr;
  emoji_mapping_file : option (gmap pystr pystr);
  files : gset pystr;
  requests : list pystr
}.

Definition emoji_base_url : pystr :=
  py "https://cdn.jsdelivr.net/gh/twitter/twemoji@latest/assets/72x72".

Section Methods.
Context {provider : Provider}.

(** [__init__] with [_load_emoji_mapping]: the mapping is read from the
    mapping file when there is one. *)
Definition init (dir : Path) (mapping_on_disk : option (gmap pystr pystr))
    (files_on_disk : gset pystr) : t :=
  {| cache_dir := dir;
     emoji_mapping := default ∅ mapping_on_disk;
     emoji_mapping_file := mapping_on_disk;
     files := files_on_disk;
     requests := [] |}.

Definition _save_emoji_mapping (self : t) : t :=
  {| cache_dir := cache_dir self;
     emoji_mapping := emoji_mapping self;
     emoji_mapping_file := Some (emoji_mapping self);
     files := files self;
     requests := requests self |}.

(** [None] is the [UnicodeEncodeError] of [emoji_char.encode('utf-8')]. *)
Definition _get_emoji_filename (emoji_char : pystr) : option pystr :=
  if encodable emoji_char
  then Some (py "emoji_" ++ md5_hexdigest emoji_char ++ py ".png")
  else None.

Definition emoji_url (emoji_char : pystr) : pystr :=
  let code_points := join (py "-") (map hex_of_N emoji_char) in
  emoji_base_url ++ py "/" ++ code_points ++ py ".png".

(** One [requests.get]; a failure is logged and becomes [None]. *)
Definition _download_emoji_image (emoji_char : pystr) (self : t)
    : option bytes * t :=
  let url := emoji_url emoji_char in
  (http_get (length (requests self)) url,
   {| cache_dir := cache_dir self;
      emoji_mapping := emoji_mapping self;
      emoji_mapping_file := emoji_mapping_file self;
      files := files self;
      requests := requests self ++ [url] |}).

(** [self.emoji_mapping[emoji_char] = str(filename)] followed by
    [self._save_emoji_mapping()]. *)
Definition record_mapping (emoji_char filename : pystr) (self : t) : t :=
  _save_emoji_mapping
    {| cache_dir := cache_dir self;
       emoji_mapping := <[emoji_char := filename]> (emoji_mapping self);
       emoji_mapping_file := emoji_mapping_file self;
       files := files self;
       requests := requests self |}.

(** [img.save(cache_path, 'PNG')] *)
Definition save_image (filename : pystr) (self : t) : t :=
  {| cache_dir := cache_dir self;
     emoji_mapping := emoji_mapping self;
     emoji_mapping_file := emoji_mapping_file self;
     files := {[filename]} ∪ files self;
     requests := requests self |}.

(** [return self.cache_dir / self.emoji_mapping[emoji_char]] *)
Definition cached_path (emoji_char : pystr) (self : t) : option Path :=
  match emoji_mapping self !! emoji_char with
  | Some filename => Some (path_join (cache_dir self) filename)
  | None => None
  end.

Definition get_emoji_image (emoji_char : pystr) (self : t)
    : option Path * t :=
  match emoji_mapping self !! emoji_char with
  | Some _ => (cached_path emoji_char self, self)
  | None =>
      match _get_emoji_filename emoji_char with
      | None => (None, self) (* caught by the outer [except] *)
      | Some filename =>
        if bool_decide (filename ∈ files self) then
          let self := record_mapping emoji_char filename self in
          (cached_path emoji_char self, self)
        else
          let '(image_data, self) := _download_emoji_image emoji_char self in
          match image_data with
          | Some (b :: data) =>
              match image_open (b :: data) with
              | Some img =>
                  let self := save_image filename self in
                  let self := record_mapping emoji_char filename self in
                  let self := record_mapping emoji_char filename self in
                  (cached_path emoji_char self, self)
              | None => (None, self)
              end
          | _ => (None, self)
          end
      end
  end.

End Methods.
(** The mapping in memory is the one in the mapping file (an absent file
    standing for the empty mapping), as [_save_emoji_mapping] leaves it. *)
Definition in_sync (self : t) : Prop :=
  emoji_mapping self = default ∅ (emoji_mapping_file self).

(** A new [CacheManager] on the directory as this one leaves it. *)
Definition reopen (self : t) : t :=
  init (cache_dir self) (emoji_mapping_file self) (files self).

End CacheManager.

(** * The [fpdf] document object *)

(** A decoded [PIL.Image.Image]: its size and pixel buffer. *)
Record Image := { width : Z; height : Z; pixels : bytes }.

Module FPDF.

(** The drawing calls the renderer makes on the document, with the cursor
    and font they were made under.  The document is the list of calls made
    so far, oldest first. *)
Inductive call :=
| AddPage
| Write (x y h : Q) (style : pystr) (size : Q) (txt : pystr)
| ImageFile (file : Path) (x y h : Q)
| ImageObject (img : Image) (x y w : Q).

Record t := mk {
  w : Q; h : Q; k : Q;
  l_margin : Q; r_margin : Q; t_margin : Q; b_margin : Q;
  x : Q; y : Q;
  font_style : pystr; font_size_pt : Q;
  calls : list call
}.

(** What [fpdf] works out by itself and the renderer depends on: the width
    of a string in a style at a size; the cursor as [write(h, txt)] leaves
    it, given the document it is called on ([fpdf] breaks the text at the
    right margin and starts new pages, so this need not be the start plus
    the width of the text); and whether [image] can load a file (it raises
    when it cannot). *)
Class FontMetrics := {
  string_width : pystr -> Q -> pystr -> Q;
  write_end : t -> Q -> pystr -> Q * Q;
  image_loads : Path -> bool
}.

Definition update (pdf : t) (x' y' : Q) (style : pystr) (size : Q)
    (calls' : list call) : t :=
  {| w := w pdf; h := h pdf; k := k pdf;
     l_margin := l_margin pdf; r_margin := r_margin pdf;
     t_margin := t_margin pdf; b_margin := b_margin pdf;
     x := x'; y := y'; font_style := style; font_size_pt := size;
     calls := calls' |}.

Definition get_x (pdf : t) : Q := x pdf.
Definition get_y (pdf : t) : Q := y pdf.

Definition set_xy (x' y' : Q) (pdf : t) : t :=
  update pdf x' y' (font_style pdf) (font_size_pt pdf) (calls pdf).

(** [set_y] also returns the abscissa to the left margin. *)
Definition set_y (y' : Q) (pdf : t) : t :=
  update pdf (l_margin pdf) y' (font_style pdf) (font_size_pt pdf) (calls pdf).

Definition set_font (style : pystr) (size : Q) (pdf : t) : t :=
  update pdf (x pdf) (y pdf) style size (calls pdf).

Definition get_string_width `{FontMetrics} (txt : pystr) (pdf : t) : Q :=
  string_width (font_style pdf) (font_size_pt pdf) txt.

(** [add_page]: a new page, cursor at its top left corner. *)
Definition add_page (pdf : t) : t :=
  update pdf (l_margin pdf) (t_margin pdf) (font_style pdf) (font_size_pt pdf)
         (calls pdf ++ [AddPage]).

(** [write(h, txt)]: the text is printed from the cursor on, and the
    cursor is left where [fpdf] ends the text. *)
Definition write `{FontMetrics} (h' : Q) (txt : pystr) (pdf : t) : t :=
  update pdf (fst (write_end pdf h' txt)) (snd (write_end pdf h' txt))
         (font_style pdf) (font_size_pt pdf)
         (calls pdf ++
          [Write (x pdf) (y pdf) h' (font_style pdf) (font_size_pt pdf) txt]).

(** [image(path, x=, y=, h=)] and [image(img, x=, y=, w=)]: with an
    explicit position the cursor does not move.  [None] is the exception
    raised for a file that cannot be loaded; nothing is drawn then. *)
Definition image_file `{FontMetrics} (file : Path) (x' y' h' : Q) (pdf : t)
    : option t :=
  if image_loads file then
    Some (update pdf (x pdf) (y pdf) (font_style pdf) (font_size_pt pdf)
                 (calls pdf ++ [ImageFile file x' y' h']))
  else None.

Definition image_object (img : Image) (x' y' w' : Q) (pdf : t) : t :=
  update pdf (x pdf) (y pdf) (font_style pdf) (font_size_pt pdf)
         (calls pdf ++ [ImageObject img x' y' w']).

(** The pages of a document: the calls between one [AddPage] and the next.
    The head of the result holds what precedes the first [AddPage]. *)
Fixpoint pages (cs : list call) : list (list call) :=
  match cs with
  | [] => [[]]
  | AddPage :: cs' => [] :: pages cs'
  | c :: cs' =>
      match pages cs' with
      | page :: rest => (c :: page) :: rest
      | [] => [[c]]
      end
  end.

(** [ln(h)]: back to the left margin, [h] further down. *)
Definition ln (h' : Q) (pdf : t) : t :=
  update pdf (l_margin pdf) (y pdf + h')%Q (font_style pdf) (font_size_pt pdf)
         (calls pdf).

End FPDF.

(** * [pdf_generator.py] *)

(** The [emoji] package: the keys of [emoji.EMOJI_DATA], in the
    dictionary's iteration order. *)
Class EmojiLib := { EMOJI_DATA : list pystr }.

(** A parsed document as BeautifulSoup presents it. *)
#[local] Unset Elimination Schemes.
Inductive node :=
| Tag (tag_name : pystr) (children : list node)
| NavigableString (s : pystr).
#[local] Set Elimination Schemes.

(** [BeautifulSoup(markup, 'html.parser')]: the top-level children of the
    soup; and [html.unescape]. *)
Class HtmlLib := {
  html_parser : pystr -> list node;
  unescape : pystr -> pystr
}.

Record datetime := {
  year : Z; month : Z; day : Z; hour : Z; minute : Z
}.

(** [datetime.fromisoformat]; [None] is the [ValueError] it raises. *)
Class DateLib := { fromisoformat : pystr -> option datetime }.

(** A post as the content API delivers it; an absent key is [None]. *)
Record Post := {
  post_id : option Z;
  title_rendered : option pystr;
  date : option pystr;
  content_rendered : option pystr
}.

Module PDFGenerator.

(** A segment is the source's tuple [(is_emoji, content)]. *)
Abbreviation segment := (bool * pystr)%type.

(** [self.emoji_scale] and [self.font_name] *)
Definition emoji_scale : Q := 0.85%Q.
Definition font_name : pystr := py "NotoSans".

(** What a render works on: the document, the generator's glyph cache, and
    the record of the [_write_line] invocations made so far (ordinate and
    segments of each, oldest first). *)
Record world := {
  pdf : FPDF.t;
  cache_manager : CacheManager.t;
  lines_written : list (Q * list segment)
}.

Section Layout.
Context {emoji : EmojiLib} {provider : CacheManager.Provider}
        {metrics : FPDF.FontMetrics}.

(** ** [_split_text_and_emojis] *)

(** [if current_text: segments.append((False, current_text))] *)
Definition flush (segments : list segment) (current_text : pystr)
  : list segment :=
  if truthy current_text then segments ++ [(false, current_text)]
  else segments.

(** The [while i < len(text)] loop.  One unit of fuel is one evaluation
    of the loop condition; [None] is "no result" (fuel exhausted, which
    stands for a loop that never ends). *)
Fixpoint split_loop (fuel : nat) (text : pystr) (i : nat)
    (segments : list segment) (current_text : pystr)
  : option (list segment) :=
  match fuel with
  | O => None
  | S fuel' =>
    if Nat.ltb i (length text) then
      if existsb (startswith (drop i text)) EMOJI_DATA then
        let segments1 := flush segments current_text in
        match find (startswith (drop i text)) EMOJI_DATA with
        | Some em =>
            split_loop fuel' text (i + length em)
                       (segments1 ++ [(true, em)]) []
        | None => split_loop fuel' text i segments1 []
        end
      else
        match text !! i with
        | Some c => split_loop fuel' text (i + 1) segments
                               (current_text ++ [c])
        | None => None
        end
    else Some (flush segments current_text)
  end.

Definition _split_text_and_emojis (text : pystr) : option (list segment) :=
  split_loop (S (length text)) text 0 [] [].

(** ** [_write_line] *)

Definition emoji_size_of (font_size : Q) (pdf : FPDF.t) : Q :=
  (font_size * emoji_scale * (FPDF.k pdf / 72))%Q.

Fixpoint write_line_loop (segments : list segment) (current_x : Q)
    (y line_height font_size : Q) (style : pystr)
    (pdf : FPDF.t) (cm : CacheManager.t) : FPDF.t * CacheManager.t :=
  match segments with
  | [] => (pdf, cm)
  | (is_emoji, content) :: rest =>
      if is_emoji then
        let '(emoji_image, cm) := CacheManager.get_emoji_image content cm in
        match emoji_image with
        | Some file =>
            let emoji_size := emoji_size_of font_size pdf in
            match FPDF.image_file file current_x
                    (y + (line_height - emoji_size) / 2) emoji_size pdf with
            | Some pdf =>
                write_line_loop rest (current_x + emoji_size)
                                y line_height font_size style pdf cm
            | None =>
                (* [except Exception]: a warning is logged *)
                write_line_loop rest current_x
                                y line_height font_size style pdf cm
            end
        | None =>
            write_line_loop rest current_x
                            y line_height font_size style pdf cm
        end
      else
        let pdf := FPDF.set_xy current_x y pdf in
        let pdf := FPDF.set_font style font_size pdf in
        let pdf := FPDF.write line_height content pdf in
        write_line_loop rest (FPDF.get_x pdf)
                        y line_height font_size style pdf cm
  end.

Definition _write_line (segments : list segment) (x y line_height
    font_size : Q) (style : pystr) (wd : world) : world :=
  let '(pdf', cm') :=
    write_line_loop segments x y line_height font_size style
                    (pdf wd) (cache_manager wd) in
  {| pdf := pdf'; cache_manager := cm';
     lines_written := lines_written wd ++ [(y, segments)] |}.

(** ** [_write_text_with_emojis] *)

(** The state of the first pass between two segments. *)
Record pass := {
  current_x : Q;
  y_position : Q;
  line_segments : list segment;
  wd : world
}.

Definition segment_width (font_size : Q) (style : pystr)
    (seg : segment) (pdf : FPDF.t) : Q * FPDF.t :=
  let '(is_emoji, content) := seg in
  if is_emoji then (emoji_size_of font_size pdf, pdf)
  else
    let pdf := FPDF.set_font style font_size pdf in
    (FPDF.get_string_width content pdf, pdf).

Definition with_pdf (pdf' : FPDF.t) (w : world) : world :=
  {| pdf := pdf'; cache_manager := cache_manager w;
     lines_written := lines_written w |}.

Fixpoint first_pass (segments : list segment) (x_start line_height
    font_size : Q) (style : pystr) (st : pass) : pass :=
  match segments with
  | [] => st
  | seg :: rest =>
      let '(width, pdf1) := segment_width font_size style seg (pdf (wd st)) in
      let st := {| current_x := current_x st; y_position := y_position st;
                   line_segments := line_segments st;
                   wd := with_pdf pdf1 (wd st) |} in
      let st :=
        if Qgtb (current_x st + width)%Q
                (FPDF.w (pdf (wd st)) - FPDF.r_margin (pdf (wd st)))%Q
        then
          {| current_x := x_start;
             y_position := (y_position st + line_height)%Q;
             line_segments := [];
             wd := _write_line (line_segments st) x_start (y_position st)
                               line_height font_size style (wd st) |}
        else st in
      first_pass rest x_start line_height font_size style
        {| current_x := (current_x st + width)%Q;
           y_position := y_position st;
           line_segments := line_segments st ++ [seg];
           wd := wd st |}
  end.

Definition _write_text_with_emojis (text : pystr) (font_size : Q)
    (style : pystr) (w0 : world) : option world :=
  if negb (truthy text) then Some w0
  else
    let line_height := (font_size * 1.5)%Q in
    match _split_text_and_emojis text with
    | None => None
    | Some segments =>
        let x_start := FPDF.l_margin (pdf w0) in
        let st := first_pass segments x_start line_height font_size style
                    {| current_x := x_start;
                       y_position := FPDF.get_y (pdf w0);
                       line_segments := [];
                       wd := w0 |} in
        let '(y_position, w1) :=
          if truthy (line_segments st) then
            ((y_position st + line_height)%Q,
             _write_line (line_segments st) x_start (y_position st)
                         line_height font_size style (wd st))
          else (y_position st, wd st) in
        Some (with_pdf (FPDF.set_y y_position (pdf w1)) w1)
    end.

End Layout.

(** ** The image loop of [create_pdf] *)

(** [img_width] and [img_height]; [None] is the [ZeroDivisionError] of a
    division by zero.  [image_size] is the computation in exact
    arithmetic, [image_size_binary64] the same computation as Python
    performs it, every operation rounded to a double. *)
Definition image_size_binary64 (image : Image) (pdf : FPDF.t)
    : option (Q * Q) :=
  let available_height :=
    Binary64.sub (Binary64.sub (FPDF.h pdf) (FPDF.t_margin pdf))
                 (FPDF.b_margin pdf) in
  let available_width := Binary64.sub (FPDF.w pdf) (2 * 20) in
  let img_width := available_width in
  if Z.eqb (width image) 0 then None
  else
    let aspect := Binary64.int_div (height image) (width image) in
    let img_height := Binary64.mul img_width aspect in
    if Qgtb img_height available_height then
      let img_height := available_height in
      if Qeq_bool aspect 0 then None
      else Some (Binary64.div img_height aspect, img_height)
    else Some (img_width, img_height).

Definition image_size (image : Image) (pdf : FPDF.t) : option (Q * Q) :=
  let available_height :=
    (FPDF.h pdf - FPDF.t_margin pdf - FPDF.b_margin pdf)%Q in
  let available_width := (FPDF.w pdf - 2 * 20)%Q in
  let img_width := available_width in
  if Z.eqb (width image) 0 then None
  else
    let aspect := (inject_Z (height image) / inject_Z (width image))%Q in
    let img_height := (img_width * aspect)%Q in
    if Qgtb img_height available_height then
      let img_height := available_height in
      if Qeq_bool aspect 0 then None
      else Some ((img_height / aspect)%Q, img_height)
    else Some (img_width, img_height).

(** The body of [if image:] with its [try]: the page is started before
    anything can fail. *)
Definition place_image (image : Image) (pdf : FPDF.t) : FPDF.t :=
  let pdf := FPDF.add_page pdf in
  match image_size image pdf with
  | Some (img_width, img_height) =>
      let x_pos := ((FPDF.w pdf - img_width) / 2)%Q in
      let y_pos := (FPDF.t_margin pdf + 10)%Q in
      FPDF.image_object image x_pos y_pos img_width pdf
  | None => pdf
  end.

Fixpoint place_images (images : list (option Image)) (pdf : FPDF.t)
    : FPDF.t :=
  match images with
  | [] => pdf
  | Some image :: rest => place_images rest (place_image image pdf)
  | None :: rest => place_images rest pdf
  end.

(** ** [_process_content] and [_clean_html_text] *)

(** [for element in soup(names): element.decompose()]: every element with
    one of the names leaves the tree, at any depth. *)
Definition named (names : list pystr) (element : node) : bool :=
  match element with
  | Tag nm _ => bool_decide (nm ∈ names)
  | NavigableString _ => false
  end.

Fixpoint decompose_in (names : list pystr) (element : node) : node :=
  match element with
  | Tag nm children =>
      Tag nm (flat_map (fun child =>
                if named names child then []
                else [decompose_in names child]) children)
  | NavigableString s => NavigableString s
  end.

Definition decompose (names : list pystr) (soup : list node) : list node :=
  flat_map (fun child =>
    if named names child then [] else [decompose_in names child]) soup.

(** An element with one of the names occurs at or below this element. *)
Fixpoint mentions (names : list pystr) (element : node) : bool :=
  match element with
  | Tag nm children =>
      bool_decide (nm ∈ names) || existsb (mentions names) children
  | NavigableString _ => false
  end.

(** The strings below an element, in document order. *)
Fixpoint strings (element : node) : list pystr :=
  match element with
  | NavigableString s => [s]
  | Tag _ children => flat_map strings children
  end.

(** [element.get_text()] and [element.get_text(strip=True)] *)
Definition get_text (element : node) : pystr := concat (strings element).

Definition get_text_strip (element : node) : pystr :=
  concat (filter (fun s => truthy s = true) (map strip (strings element))).

Definition soup_get_text (soup : list node) : pystr :=
  concat (map get_text soup).

Definition block_tags : list pystr :=
  map py ["p"; "div"; "h1"; "h2"; "h3"; "h4"; "h5"; "h6"; "blockquote"]%string.

(** The three places where the accumulated text is turned into a
    paragraph. *)
Definition flush_text (paragraphs current_text : list pystr)
    : list pystr * list pystr :=
  if truthy current_text then
    let combined_text := strip (join [space] current_text) in
    ((if truthy combined_text then paragraphs ++ [combined_text]
      else paragraphs), [])
  else (paragraphs, current_text).

Section Content.
Context {htmllib : HtmlLib}.

Definition visit (element : node) (acc : list pystr * list pystr)
    : list pystr * list pystr :=
  let '(paragraphs, current_text) := acc in
  match element with
  | Tag nm _ =>
      if bool_decide (nm ∈ block_tags) then
        let '(paragraphs, current_text) :=
          flush_text paragraphs current_text in
        let text := get_text_strip element in
        ((if truthy text then paragraphs ++ [unescape text]
          else paragraphs), current_text)
      else if bool_decide (nm = py "br") then
        flush_text paragraphs current_text
      else (paragraphs, current_text)
  | NavigableString s =>
      let text := strip s in
      (paragraphs,
       if truthy text then current_text ++ [unescape text]
       else current_text)
  end.

(** [cleaned = ' '.join(para.split())], kept when non-empty. *)
Definition clean_paragraphs (paragraphs : list pystr) : list pystr :=
  filter (fun p => truthy p = true)
         (map (fun para => join [space] (split para)) paragraphs).

Definition _process_content (html_content : pystr) : list pystr :=
  if negb (truthy html_content) then [py "No content available"]
  else
    let soup := html_parser html_content in
    let soup := decompose [py "script"; py "style"] soup in
    let '(paragraphs, current_text) :=
      fold_left (fun acc element => visit element acc) soup ([], []) in
    let '(paragraphs, _) := flush_text paragraphs current_text in
    let cleaned_paragraphs := clean_paragraphs paragraphs in
    if truthy cleaned_paragraphs then cleaned_paragraphs
    else [py "No content available"].

Definition _clean_html_text (html_text : pystr) : pystr :=
  if negb (truthy html_text) then []
  else soup_get_text (html_parser (unescape html_text)).

End Content.

(** ** [_format_date] and [_get_filename] *)

(** [dt.strftime('%Y%m%d')] and [dt.strftime('%Y%m%d @ %H:%M')], with the
    four-digit years of post dates. *)
Definition strftime_Ymd (dt : datetime) : pystr :=
  zfill 4 (str_of_int (year dt)) ++ zfill 2 (str_of_int (month dt))
  ++ zfill 2 (str_of_int (day dt)).

Definition strftime_Ymd_HM (dt : datetime) : pystr :=
  strftime_Ymd dt ++ py " @ " ++ zfill 2 (str_of_int (hour dt))
  ++ py ":" ++ zfill 2 (str_of_int (minute dt)).

Section Naming.
Context {htmllib : HtmlLib} {datelib : DateLib} {unicode : UnicodeDb}.

(** [datetime.fromisoformat(date_str.replace('Z', '+00:00'))] *)
Definition parse_date (date_str : pystr) : option datetime :=
  fromisoformat (replace_char 90%N (py "+00:00") date_str).

Definition _format_date (date_str : pystr) : pystr :=
  match parse_date date_str with
  | Some dt => strftime_Ymd_HM dt
  | None => date_str
  end.

(** The three lines that clean the title for the file name:
    [re.sub(r'[^\w\s-]', '', title)], [re.sub(r'[-\s]+', '_', title)] and
    [title[:50].strip('_')]. *)
Definition title_slug (title : pystr) : pystr :=
  let title :=
    filter (fun c => (isword c || isspace c || N.eqb c hyphen) = true)
           title in
  let title :=
    sub_runs (fun c => N.eqb c hyphen || isspace c) [underscore] title in
  strip_by (N.eqb underscore) (take 50 title).

(** [post.get('id', 'unknown')] inside an f-string. *)
Definition id_text (post : Post) : pystr :=
  match post_id post with
  | Some n => str_of_int n
  | None => py "unknown"
  end.

Definition _get_filename (post : Post) : pystr :=
  let date_str := default [] (date post) in
  match parse_date date_str with
  | Some dt =>
      let date_part := strftime_Ymd dt in
      let title :=
        _clean_html_text (default (py "untitled") (title_rendered post)) in
      date_part ++ py "_" ++ title_slug title ++ py ".pdf"
  | None => py "unknown_date_" ++ id_text post ++ py ".pdf"
  end.

End Naming.

(** ** The paragraph loop of [create_pdf] *)

Section Paragraphs.
Context {emoji : EmojiLib} {provider : CacheManager.Provider}
        {metrics : FPDF.FontMetrics}.

(** What precedes the writing of a paragraph: the spacing after the
    paragraph before it, and a new page when fewer than 20 units are left
    above the bottom margin. *)
Definition start_paragraph (first_paragraph : bool) (pdf : FPDF.t)
    : FPDF.t :=
  let pdf := if first_paragraph then pdf else FPDF.ln 8 pdf in
  if Qgtb (FPDF.get_y pdf + 20)%Q (FPDF.h pdf - FPDF.b_margin pdf)%Q
  then FPDF.add_page pdf
  else pdf.

Fixpoint write_paragraphs (paragraphs : list pystr) (first_paragraph : bool)
    (w : world) : option world :=
  match paragraphs with
  | [] => Some w
  | paragraph :: rest =>
      if truthy (strip paragraph) then
        let w := with_pdf (start_paragraph first_paragraph (pdf w)) w in
        match _write_text_with_emojis paragraph 12 [] w with
        | Some w => write_paragraphs rest false w
        | None => None
        end
      else write_paragraphs rest first_paragraph w
  end.

(** [pdf.set_font(self.font_name, '', 12)] and the loop. *)
Definition write_content (paragraphs : list pystr) (w : world)
    : option world :=
  write_paragraphs paragraphs true
    (with_pdf (FPDF.set_font [] 12 (pdf w)) w).

End Paragraphs.

(** ** [_extract_tags] *)

(** A taxonomy term of the post's embedded data; an absent key is
    [None]. *)
Record term := { taxonomy : option pystr; term_name : option pystr }.

(** The JSON values met where a term and a list of terms are expected. *)
Inductive json_term := TermDict (t : term) | NotADict.
Inductive json_group := TermList (terms : list json_term) | NotAList.

(** The two marks of the source text, code point by code point. *)
Definition category_mark : pystr := [240; 376; 8220; 32]%N.
Definition post_tag_mark : pystr := [240; 376; 183; 239; 184; 32]%N.

(** What one term appends to [tags]. *)
Definition term_tags (entry : json_term) : list pystr :=
  match entry with
  | TermDict t =>
      let taxonomy := default [] (taxonomy t) in
      let name := default [] (term_name t) in
      if truthy name then
        if bool_decide (taxonomy = py "category")
        then [category_mark ++ name]
        else if bool_decide (taxonomy = py "post_tag")
        then [post_tag_mark ++ name]
        else [name]
      else []
  | NotADict => []
  end.

Definition group_tags (term_group : json_group) : list pystr :=
  match term_group with
  | TermList terms => flat_map term_tags terms
  | NotAList => []
  end.

(** [list(dict.fromkeys(tags))]: the first occurrence of every tag, in
    order. *)
Fixpoint fromkeys (tags : list pystr) : list pystr :=
  match tags with
  | [] => []
  | tag :: rest => tag :: filter (fun t => t <> tag) (fromkeys rest)
  end.

(** The list [tags] as it is joined.  [embedded] is [post['_embedded']]
    when the post has that key, and in it the value at ['wp:term'] when
    there is one. *)
Definition extracted_tags (embedded : option (option (list json_group)))
    : list pystr :=
  match embedded with
  | Some wp_term => fromkeys (flat_map group_tags (default [] wp_term))
  | None => fromkeys []
  end.

Definition _extract_tags (embedded : option (option (list json_group)))
    : pystr :=
  join (py ", ") (extracted_tags embedded).

End PDFGenerator.

(** * [text_formatter.py] *)

Module TextFormatter.
Section Methods.
Context {htmllib : HtmlLib} {unicode : UnicodeDb}.

(** [if '<' in text and '>' in text: text = BeautifulSoup(text,
    'html.parser').get_text()] *)
Definition strip_markup (text : pystr) : pystr :=
  if contains 60%N text && contains 62%N text
  then PDFGenerator.soup_get_text (html_parser text)
  else text.

Definition clean_for_path (text : pystr) : pystr :=
  if negb (truthy text) then py "untitled"
  else
    let text := strip_markup text in
    let text := strip (lower text) in
    let text := replace_char space [underscore] text in
    let text :=
      filter (fun c => (isalnum c || N.eqb c underscore) = true) text in
    let text := rstrip_by (N.eqb underscore) (take 50 text) in
    if truthy text then text else py "untitled".

Definition clean_for_display (text : pystr) : pystr :=
  if negb (truthy text) then []
  else
    let text := strip_markup text in
    let text := join [space] (split text) in
    strip text.

End Methods.
End TextFormatter.

(** * [batch_processor.py]: where documents are written *)

Module BatchProcessor.

(** [__init__]: the directories derived from [config.OUTPUT_DIR]. *)
Record t := mk { base_dir : Path; errors_dir : Path }.

Definition init (OUTPUT_DIR : Path) : t :=
  {| base_dir := OUTPUT_DIR;
     errors_dir := path_join OUTPUT_DIR (py "errors") |}.

Section Methods.
Context {htmllib : HtmlLib} {datelib : DateLib} {unicode : UnicodeDb}.

Definition get_post_directory (self : t) (post : Post) : Path :=
  let title := default (py "untitled") (title_rendered post) in
  let dir_name :=
    PDFGenerator.id_text post ++ py "_" ++ TextFormatter.clean_for_path title
  in
  path_join (base_dir self) dir_name.

(** The path [create_pdf] writes to and returns, for the generator that
    [process_posts] builds with [PDFGenerator(output_dir)]. *)
Definition pdf_path (self : t) (post : Post) : Path :=
  let output_dir := get_post_directory self post in
  path_join output_dir (PDFGenerator._get_filename post).

(** The path [create_error_pdf] writes to and returns; the cells it draws
    on the way are left out. *)
Definition create_error_pdf (self : t) (post : Post) : Path :=
  let title :=
    TextFormatter.clean_for_display
      (default (py "Unknown Title") (title_rendered post)) in
  let filename :=
    py "error_" ++ PDFGenerator.id_text post ++ py "_"
    ++ TextFormatter.clean_for_path title ++ py ".pdf" in
  path_join (errors_dir self) filename.

End Methods.
(** ** The record of processed posts *)

(** What is found where a JSON file is expected: no file, a file that
    cannot be read as JSON, or the value read. *)
Inductive json_file (A : Type) :=
| Absent
| Unreadable
| Content (value : A).
Arguments Absent {A}.
Arguments Unreadable {A}.
Arguments Content {A} value.

(** [load_processed_posts]: the ids of [processed_posts.json] as a set;
    the empty set when the file is missing or reading it raises. *)
Definition load_processed_posts (processed_file : json_file (list Z))
    : gset Z :=
  match processed_file with
  | Content ids => list_to_set ids
  | Absent | Unreadable => ∅
  end.

(** [save_processed_post]: load, add, and write the whole set back. *)
Definition save_processed_post (post_id : Z)
    (processed_file : json_file (list Z)) : json_file (list Z) :=
  let processed_posts := load_processed_posts processed_file in
  let processed_posts := {[post_id]} ∪ processed_posts in
  Content (elements processed_posts).

End BatchProcessor.

(** * Properties of segment lists *)

Section SegmentLists.
Import PDFGenerator.

(** Well-formedness of a segment list. *)
Definition is_text (s : segment) : bool := negb (fst s).

Definition contents (segs : list segment) : pystr := concat (map snd segs).

Definition texts_nonempty (segs : list segment) : Prop :=
  Forall (fun s => is_text s = true -> snd s <> []) segs.

Fixpoint no_adjacent_text (segs : list segment) : Prop :=
  match segs with
  | [] => True
  | s :: tl =>
      match tl with
      | [] => True
      | s' :: _ => (is_text s = true -> is_text s' = false)
      end /\ no_adjacent_text tl
  end.

(** The last segment, if any, is an emoji. *)
Definition ends_with_emoji (segs : list segment) : Prop :=
  match last segs with
  | Some s => is_text s = false
  | None => True
  end.

End SegmentLists.

(** * The statements of the specification, as definitions *)

Module Spec.

(** "A paragraph with all internal whitespace runs collapsed to single
    spaces and leading/trailing whitespace stripped." *)
Definition normalized_whitespace (P : pystr) : pystr :=
  sub_runs isspace [space] (strip P).

(** "Wrapping P in <p> tags." *)
Definition wrap_p (P : pystr) : pystr := py "<p>" ++ P ++ py "</p>".

(** "A title slug in which every non-alphanumeric character of the cleaned
    title is replaced by an underscore, runs are collapsed, the result is
    capped at 50 characters, and trailing underscores are trimmed." *)
Definition title_slug `{UnicodeDb} (cleaned_title : pystr) : pystr :=
  let replaced :=
    map (fun c => if isalnum c then c else underscore) cleaned_title in
  let collapsed := sub_runs (N.eqb underscore) [underscore] replaced in
  rstrip_by (N.eqb underscore) (take 50 collapsed).

(** "The output filename is the publish date formatted as YYYYMMDD, an
    underscore, and [that] title slug, followed by the file extension." *)
Definition filename `{HtmlLib} `{UnicodeDb} (post : Post) (dt : datetime)
    : pystr :=
  PDFGenerator.strftime_Ymd dt ++ py "_"
  ++ title_slug (PDFGenerator._clean_html_text
                   (default (py "untitled") (title_rendered post)))
  ++ py ".pdf".

Definition named_by_slug `{HtmlLib} `{DateLib} `{UnicodeDb} (post : Post)
    : Prop :=
  forall dt,
    PDFGenerator.parse_date (default [] (date post)) = Some dt ->
    PDFGenerator._get_filename post = filename post dt.


Section Line.
Context {provider : CacheManager.Provider} {metrics : FPDF.FontMetrics}.
Variables (y line_height font_size : Q) (style : pystr) (k : Q).
Import PDFGenerator.

(** The width the first pass reserves for a segment. *)
Definition reserved_width (seg : segment) : Q :=
  if fst seg then (font_size * emoji_scale * (k / 72))%Q
  else FPDF.string_width style font_size (snd seg).










End Line.


(** "The display dimensions computed by the page composer satisfy:
    displayWidth x r <= available height and displayHeight x (1/r) <=
    available width, where available width is the page width minus 20-unit
    margins on each side and available height is the page height minus top
    and bottom margins", r being the exact ratio height / width, for the
    dimensions as the program computes them. *)
Definition display_fits (image : Image) (pdf : FPDF.t) : Prop :=
  let r := (inject_Z (height image) / inject_Z (width image))%Q in
  let available_width := (FPDF.w pdf - 2 * 20)%Q in
  let available_height :=
    (FPDF.h pdf - FPDF.t_margin pdf - FPDF.b_margin pdf)%Q in
  exists img_width img_height,
    PDFGenerator.image_size_binary64 image pdf
    = Some (img_width, img_height) /\
    (img_width * r <= available_height)%Q /\
    (img_height * (1 / r) <= available_width)%Q.

(** "The error document is written into the same output directory as
    successful documents." *)
Definition same_output_directory `{HtmlLib} `{DateLib} `{UnicodeDb}
    (self : BatchProcessor.t) (post : Post) : Prop :=
  parent (BatchProcessor.create_error_pdf self post) =
  parent (BatchProcessor.pdf_path self post).

End Spec.

(** * Vocabulary for the layout theorems *)

Module Rows.

(** The ordinates of [n] successive lines, the first at [y], each
    [line_height] below the one before; and the ordinate below the last. *)
Fixpoint rows (y line_height : Q) (n : nat) : list Q :=
  match n with
  | O => []
  | S n' => y :: rows (y + line_height)%Q line_height n'
  end.

Definition below (y line_height : Q) (n : nat) : Q :=
  Nat.iter n (fun y' => (y' + line_height)%Q) y.

(** The abscissa reached after the segments of a line, from [x_start]. *)
Definition line_end `{FPDF.FontMetrics} (font_size : Q) (style : pystr)
    (k x_start : Q) (segs : list PDFGenerator.segment) : Q :=
  fold_left (fun x seg => (x + Spec.reserved_width font_size style k seg)%Q)
            segs x_start.

(** Two states of a document with the same page size, scale and margins. *)
Definition same_geometry (a b : FPDF.t) : Prop :=
  FPDF.w a = FPDF.w b /\ FPDF.h a = FPDF.h b /\ FPDF.k a = FPDF.k b /\
  FPDF.l_margin a = FPDF.l_margin b /\ FPDF.r_margin a = FPDF.r_margin b /\
  FPDF.t_margin a = FPDF.t_margin b /\ FPDF.b_margin a = FPDF.b_margin b.

(** The text a drawing call prints, if it prints text. *)
Definition written_text (c : FPDF.call) : option pystr :=
  match c with
  | FPDF.Write _ _ _ _ _ txt => Some txt
  | _ => None
  end.

(** The contents of the text segments of a line, in order. *)
Definition texts (segs : list PDFGenerator.segment) : list pystr :=
  map snd (filter (fun seg => fst seg = false) segs).

End Rows.

(** * Stand-ins for the outside world, for closed examples *)

Module Demo.

(** Five keys of the emoji table: grinning face, heavy black heart (bare and
    with its variation selector), thumbs up (bare and with a skin tone). *)
Definition grinning : pystr := [128512%N].
Definition heart : pystr := [10084%N].
Definition red_heart : pystr := [10084%N; 65039%N].
Definition thumbs_up : pystr := [128077%N].
Definition thumbs_up_medium : pystr := [128077%N; 127997%N].

#[export] Instance emoji : EmojiLib :=
  {| EMOJI_DATA := [grinning; heart; red_heart; thumbs_up; thumbs_up_medium] |}.

(** A provider that is never reachable, and one that always answers with a
    one-byte body that decodes. *)
Definition offline : CacheManager.Provider :=
  {| CacheManager.md5_hexdigest := map (fun c => N.land c 15 + 48)%N;
     CacheManager.http_get := fun _ _ => None;
     CacheManager.image_open := fun data => Some data |}.

Definition online : CacheManager.Provider :=
  {| CacheManager.md5_hexdigest := map (fun c => N.land c 15 + 48)%N;
     CacheManager.http_get := fun _ _ => Some [Byte.x89];
     CacheManager.image_open := fun data => Some data |}.

Definition empty_cache : CacheManager.t :=
  @CacheManager.init [py "emoji_cache"] None ∅.

(** A fixed-pitch font: every character is half the font size wide, in
    points, converted to millimetres.  A text that passes the right margin
    is broken once: what passes the margin is continued from the left
    margin, one line further down.  Every image file can be loaded. *)
Definition pitch_width (size : Q) (txt : pystr) : Q :=
  (inject_Z (Z.of_nat (length txt)) * size / 2 * (25.4 / 72))%Q.

Definition fixed_pitch : FPDF.FontMetrics :=
  {| FPDF.string_width := fun _ size txt => pitch_width size txt;
     FPDF.write_end := fun pdf h txt =>
       let x_end := (FPDF.x pdf + pitch_width (FPDF.font_size_pt pdf) txt)%Q in
       let limit := (FPDF.w pdf - FPDF.r_margin pdf)%Q in
       if Qle_bool x_end limit then (x_end, FPDF.y pdf)
       else ((FPDF.l_margin pdf + (x_end - limit))%Q, (FPDF.y pdf + h)%Q);
     FPDF.image_loads := fun _ => true |}.


(** A fresh A4 portrait document in millimetres with one page started and
    the margins [create_pdf] sets. *)
Definition a4 : FPDF.t :=
  {| FPDF.w := 210; FPDF.h := 297; FPDF.k := 72 / 25.4;
     FPDF.l_margin := 10; FPDF.r_margin := 10;
     FPDF.t_margin := 10; FPDF.b_margin := 15;
     FPDF.x := 10; FPDF.y := 10;
     FPDF.font_style := []; FPDF.font_size_pt := 12;
     FPDF.calls := [FPDF.AddPage] |}.

(** The A4 page as [fpdf] sets it up in millimetres, every number a
    double: the scale factor is 72 / 25.4, the page 595.28 by 841.89
    points, the left, right and top margins (7200 / 254) points; and the
    bottom margin of 15 that [create_pdf] sets. *)
Definition a4_doubles : FPDF.t :=
  let k := Binary64.div 72 (Binary64.round 25.4) in
  let margin := Binary64.div (Binary64.int_div 7200 254) k in
  {| FPDF.w := Binary64.div (Binary64.round 595.28) k;
     FPDF.h := Binary64.div (Binary64.round 841.89) k;
     FPDF.k := k;
     FPDF.l_margin := margin; FPDF.r_margin := margin;
     FPDF.t_margin := margin; FPDF.b_margin := 15;
     FPDF.x := margin; FPDF.y := margin;
     FPDF.font_style := []; FPDF.font_size_pt := 12;
     FPDF.calls := [FPDF.AddPage] |}.

(** A photograph in portrait format, 1080 by 1920 pixels. *)
Definition portrait : Image :=
  {| width := 1080; height := 1920; pixels := [] |}.

Definition fresh_world (cm : CacheManager.t) : PDFGenerator.world :=
  {| PDFGenerator.pdf := a4; PDFGenerator.cache_manager := cm;
     PDFGenerator.lines_written := [] |}.

(** A parser that knows one element, [<p>...</p>] around plain text, and
    takes anything else for a string; no entities. *)
Definition p_open : pystr := py "<p>".
Definition p_close : pystr := py "</p>".

Definition toy_parser (markup : pystr) : list node :=
  if startswith markup p_open && startswith (rev markup) (rev p_close) then
    [Tag (py "p")
         [NavigableString
            (take (length markup - 7) (drop 3 markup))]]
  else [NavigableString markup].

#[export] Instance html : HtmlLib :=
  {| html_parser := toy_parser; unescape := fun s => s |}.

(** ASCII letters and digits. *)
Definition ascii_isalnum (c : N) : bool :=
  ((48 <=? c) && (c <=? 57) || (65 <=? c) && (c <=? 90)
   || (97 <=? c) && (c <=? 122))%N.

Definition ascii_lower (s : pystr) : pystr :=
  map (fun c => if (65 <=? c)%N && (c <=? 90)%N then (c + 32)%N else c) s.

#[export] Instance unicode : UnicodeDb :=
  {| isalnum := ascii_isalnum; lower := ascii_lower |}.

(** Dates of the shape [YYYY-MM-DDTHH:MM...], digits at fixed places. *)
Definition digit (c : N) : option Z :=
  if (48 <=? c)%N && (c <=? 57)%N then Some (Z.of_N c - 48)%Z else None.

Definition number (s : pystr) : option Z :=
  fold_left (fun acc c =>
    match acc, digit c with
    | Some n, Some d => Some (10 * n + d)%Z
    | _, _ => None
    end) s (Some 0%Z).

Definition toy_fromisoformat (s : pystr) : option datetime :=
  if Nat.ltb (length s) 16 then None
  else
    match number (take 4 s), number (take 2 (drop 5 s)),
          number (take 2 (drop 8 s)), number (take 2 (drop 11 s)),
          number (take 2 (drop 14 s)) with
    | Some y, Some m, Some d, Some H, Some M =>
        Some {| year := y; month := m; day := d; hour := H; minute := M |}
    | _, _, _, _, _ => None
    end.

#[export] Instance dates : DateLib :=
  {| fromisoformat := toy_fromisoformat |}.

(** The post of the specification's end-to-end scenario. *)
Definition hello_world : Post :=
  {| post_id := Some 7%Z;
     title_rendered := Some (py "Hello World");
     date := Some (py "2023-05-01T10:00:00Z");
     content_rendered := Some (py "<p>Hi there</p>") |}.

(** A post with an apostrophe in its title, one without a usable date. *)
Definition its_here : Post :=
  {| post_id := Some 8%Z;
     title_rendered := Some (py "It's here");
     date := Some (py "2023-05-01T10:00:00Z");
     content_rendered := Some (py "<p>Hi there</p>") |}.

Definition undated : Post :=
  {| post_id := Some 9%Z;
     title_rendered := Some (py "Hello World");
     date := Some (py "yesterday");
     content_rendered := Some (py "<p>Hi there</p>") |}.

(** A paragraph of two long words around a glyph, and its layout on a fresh
    page with the provider in reach. *)
Definition paragraph : pystr :=
  replicate 50 97%N ++ grinning ++ replicate 60 98%N.

Definition laid_out : option PDFGenerator.world :=
  @PDFGenerator._write_text_with_emojis emoji online fixed_pitch
    paragraph 12 [] (fresh_world empty_cache).

End Demo.

(** * Theorems *)

Section SegmentationFacts.
Import PDFGenerator.
Context {emoji : EmojiLib}.

Lemma startswith_app (s pre : pystr) :
  startswith s pre = true <-> exists r, s = pre ++ r.
Proof.
  revert s; induction pre as [|p pre IH]; intros s; simpl.
  - split; [intros _; exists s; reflexivity | intros _; reflexivity].
  - destruct s as [|c s].
    + split; [done | intros [r Hr]; discriminate].
    + destruct (N.eqb_spec p c) as [->|Hne].
      * rewrite IH. split; intros [r Hr]; exists r; congruence.
      * split; [done | intros [r Hr]; congruence].
Qed.

Lemma existsb_find {A} (f : A -> bool) (l : list A) :
  existsb f l = true -> exists x, find f l = Some x /\ In x l /\ f x = true.
Proof.
  induction l as [|a l IH]; simpl; [done|].
  destruct (f a) eqn:Ha; simpl.
  - intros _. exists a. auto.
  - intros H. destruct (IH H) as (x & ? & ? & ?). exists x. auto.
Qed.

Lemma contents_snoc segs s : contents (segs ++ [s]) = contents segs ++ snd s.
Proof.
  unfold contents. rewrite map_app, concat_app. simpl.
  by rewrite app_nil_r.
Qed.

Lemma no_adjacent_text_snoc segs x :
  no_adjacent_text segs ->
  match last segs with
  | Some s => is_text s = true -> is_text x = false
  | None => True
  end ->
  no_adjacent_text (segs ++ [x]).
Proof.
  induction segs as [|s tl IH]; simpl; [done|].
  intros [Hhd Htl] Hlast. destruct tl as [|s' tl']; simpl in *.
  - auto.
  - split; [done|]. apply IH; [done|]. exact Hlast.
Qed.

Lemma flush_contents segs cur : contents (flush segs cur) = contents segs ++ cur.
Proof.
  unfold flush. destruct cur; simpl.
  - by rewrite app_nil_r.
  - by rewrite contents_snoc.
Qed.

Lemma flush_texts_nonempty segs cur :
  texts_nonempty segs -> texts_nonempty (flush segs cur).
Proof.
  unfold flush, texts_nonempty. destruct cur as [|c cur]; simpl; [done|].
  intros H. apply Forall_app. split; [done|].
  constructor; [|constructor]. intros _. simpl. discriminate.
Qed.

Lemma flush_no_adjacent segs cur :
  no_adjacent_text segs -> ends_with_emoji segs ->
  no_adjacent_text (flush segs cur).
Proof.
  unfold flush, ends_with_emoji. destruct cur as [|c cur]; simpl; [done|].
  intros H Hl. apply no_adjacent_text_snoc; [done|].
  destruct (last segs); [|done]. rewrite Hl. done.
Qed.

Lemma split_loop_spec fuel text i segs cur :
  Forall (fun em => em <> []) EMOJI_DATA ->
  i <= length text ->
  length text - i < fuel ->
  contents segs ++ cur = take i text ->
  texts_nonempty segs -> no_adjacent_text segs -> ends_with_emoji segs ->
  exists out,
    split_loop fuel text i segs cur = Some out /\
    contents out = text /\ texts_nonempty out /\ no_adjacent_text out.
Proof.
  intros Htab. revert i segs cur.
  induction fuel as [|fuel IH]; intros i segs cur Hi Hfuel Hc Hne Hadj Hend;
    [lia|].
  simpl. destruct (Nat.ltb_spec i (length text)) as [Hlt|Hge].
  - destruct (existsb _ EMOJI_DATA) eqn:Hany.
    + apply existsb_find in Hany as (em & -> & Hin & Hsw).
      apply startswith_app in Hsw as [r Hr].
      assert (em <> []) as Hem.
      { rewrite Forall_forall in Htab. apply Htab.
        by apply list_elem_of_In. }
      assert (length (drop i text) = length em + length r) as Hlen
        by (rewrite Hr; apply length_app).
      rewrite length_drop in Hlen.
      assert (0 < length em) by (destruct em; simpl; [done | lia]).
      apply IH.
      * lia.
      * lia.
      * rewrite contents_snoc, flush_contents, Hc, app_nil_r. simpl.
        rewrite <- take_take_drop. f_equal.
        rewrite Hr. by rewrite take_app_length.
      * apply Forall_app. split; [by apply flush_texts_nonempty|].
        constructor; [|constructor]. intros Ht. discriminate Ht.
      * apply no_adjacent_text_snoc; [by apply flush_no_adjacent|].
        by destruct (last _).
      * unfold ends_with_emoji. by rewrite last_snoc.
    + destruct (lookup_lt_is_Some_2 text i Hlt) as [c Hci].
      rewrite Hci. apply IH; try done; try lia.
      rewrite app_assoc, Hc. rewrite Nat.add_1_r.
      by erewrite take_S_r.
  - assert (i = length text) as -> by lia.
    rewrite firstn_all in Hc.
    exists (flush segs cur). split; [done|].
    rewrite flush_contents. split; [done|].
    split; [by apply flush_texts_nonempty | by apply flush_no_adjacent].
Qed.

(** C10. For every input string (and an emoji table without an empty key)
    the segmentation returns a list of segments whose contents, concatenated
    in order, are exactly the input; every text segment is non-empty and no
    two text segments are adjacent. *)
Theorem split_text_and_emojis_wellformed (text : pystr) :
  Forall (fun em => em <> []) EMOJI_DATA ->
  exists segs,
    _split_text_and_emojis text = Some segs /\
    contents segs = text /\ texts_nonempty segs /\ no_adjacent_text segs.
Proof.
  intros Htab. unfold _split_text_and_emojis.
  apply split_loop_spec; try done; simpl; try lia.
  constructor.
Qed.

End SegmentationFacts.

Lemma split_text_and_emojis_wellformed_witness :
  Forall (fun em => em <> []) (@EMOJI_DATA Demo.emoji) /\
  exists segs,
    @PDFGenerator._split_text_and_emojis Demo.emoji
      (py "Text " ++ Demo.grinning ++ py " more") = Some segs /\
    contents segs = py "Text " ++ Demo.grinning ++ py " more" /\
    texts_nonempty segs /\ no_adjacent_text segs.
Proof.
  assert (Forall (fun em : pystr => em <> []) (@EMOJI_DATA Demo.emoji)) as H
    by (repeat constructor; discriminate).
  split; [exact H|].
  exact (@split_text_and_emojis_wellformed Demo.emoji _ H).
Defined.

(** ** The glyph cache *)

Section GlyphCache.
Import CacheManager.
Context {provider : Provider}.

Lemma cached_path_record emoji_char filename (self : t) :
  cached_path emoji_char (record_mapping emoji_char filename self)
  = Some (path_join (cache_dir self) filename).
Proof.
  unfold cached_path, record_mapping, _save_emoji_mapping. simpl.
  by rewrite lookup_insert_eq.
Qed.

(** A call that finds the key in the mapping changes nothing and fetches
    nothing. *)
Lemma get_emoji_image_mapped emoji_char filename (self : t) :
  emoji_mapping self !! emoji_char = Some filename ->
  get_emoji_image emoji_char self
  = (Some (path_join (cache_dir self) filename), self).
Proof.
  intros Hm. unfold get_emoji_image, cached_path. by rewrite Hm.
Qed.

(** A call that returns a path leaves the key in the mapping, pointing at
    the file of that path. *)
Lemma get_emoji_image_some emoji_char (self self' : t) file :
  get_emoji_image emoji_char self = (Some file, self') ->
  exists filename,
    emoji_mapping self' !! emoji_char = Some filename /\
    file = path_join (cache_dir self') filename.
Proof.
  unfold get_emoji_image.
  destruct (emoji_mapping self !! emoji_char) as [f|] eqn:Hm.
  - unfold cached_path. rewrite Hm. intros [= <- <-]. eauto.
  - destruct (_get_emoji_filename emoji_char) as [fname|]; [|discriminate].
    case_bool_decide.
    + rewrite cached_path_record. intros [= <- <-].
      eexists. split; [|reflexivity]. simpl. by rewrite lookup_insert_eq.
    + unfold _download_emoji_image.
      destruct (http_get _ _) as [[|b data]|]; try discriminate.
      destruct (image_open _); try discriminate.
      rewrite cached_path_record. intros [= <- <-].
      eexists. split; [|reflexivity]. simpl. by rewrite lookup_insert_eq.
Qed.



End GlyphCache.



(** ** Line layout *)

Lemma Qgtb_true (a b : Q) : (b < a)%Q -> Qgtb a b = true.
Proof.
  intros Hlt. unfold Qgtb. destruct (Qle_bool a b) eqn:Hle; [|reflexivity].
  apply Qle_bool_iff in Hle. lra.
Qed.

Lemma Qgtb_false (a b : Q) : (a <= b)%Q -> Qgtb a b = false.
Proof.
  intros Hle. unfold Qgtb. apply Qle_bool_iff in Hle. by rewrite Hle.
Qed.

Section LineLayout.
Import PDFGenerator.
Context {emoji : EmojiLib} {provider : CacheManager.Provider}
        {metrics : FPDF.FontMetrics}.

(** What [_write_text_with_emojis] does with a paragraph that is one text
    segment wider than the line: the test for a line break fires while the
    line is still empty, so an empty line is written first and the segment
    goes on a second line; the cursor ends two line heights down. *)
Lemma overflowing_segment_lines text font_size style (w0 : world) :
  text <> [] ->
  _split_text_and_emojis text = Some [(false, text)] ->
  (FPDF.w (pdf w0) - FPDF.r_margin (pdf w0) - FPDF.l_margin (pdf w0)
   < FPDF.string_width style font_size text)%Q ->
  exists w1,
    _write_text_with_emojis text font_size style w0 = Some w1 /\
    lines_written w1 =
      lines_written w0 ++
      [(FPDF.y (pdf w0), []);
       ((FPDF.y (pdf w0) + font_size * 1.5)%Q, [(false, text)])] /\
    FPDF.y (pdf w1)
    = (FPDF.y (pdf w0) + font_size * 1.5 + font_size * 1.5)%Q.
Proof.
  intros Hne Hsplit Hwide. unfold _write_text_with_emojis.
  destruct text as [|c text]; [done|]. simpl truthy. simpl negb. cbv iota.
  rewrite Hsplit. simpl first_pass.
  rewrite Qgtb_true by (unfold FPDF.get_string_width; simpl; lra).
  simpl. eexists. split; [reflexivity|]. simpl.
  rewrite <- app_assoc. done.
Qed.

(** The same paragraph when it fits: one line, one line height. *)
Lemma fitting_segment_line text font_size style (w0 : world) :
  text <> [] ->
  _split_text_and_emojis text = Some [(false, text)] ->
  (FPDF.string_width style font_size text
   <= FPDF.w (pdf w0) - FPDF.r_margin (pdf w0) - FPDF.l_margin (pdf w0))%Q ->
  exists w1,
    _write_text_with_emojis text font_size style w0 = Some w1 /\
    lines_written w1 =
      lines_written w0 ++ [(FPDF.y (pdf w0), [(false, text)])] /\
    FPDF.y (pdf w1) = (FPDF.y (pdf w0) + font_size * 1.5)%Q.
Proof.
  intros Hne Hsplit Hfits. unfold _write_text_with_emojis.
  destruct text as [|c text]; [done|]. simpl truthy. simpl negb. cbv iota.
  rewrite Hsplit. simpl first_pass.
  rewrite Qgtb_false by (unfold FPDF.get_string_width; simpl; lra).
  simpl. eexists. split; [reflexivity|]. simpl. done.
Qed.

Lemma same_geometry_refl a : Rows.same_geometry a a.
Proof. by repeat split. Qed.

Lemma same_geometry_trans a b c :
  Rows.same_geometry a b -> Rows.same_geometry b c -> Rows.same_geometry a c.
Proof.
  unfold Rows.same_geometry. intros (?&?&?&?&?&?&?) (?&?&?&?&?&?&?).
  repeat split; congruence.
Qed.

Lemma same_geometry_update a x y style size cs :
  Rows.same_geometry a (FPDF.update a x y style size cs).
Proof. by repeat split. Qed.






End LineLayout.

(** C1 on a concrete paragraph: a hundred letters in a fixed-pitch font at
    12 points are wider than an A4 line, and the layout writes an empty
    line and then the line with the one segment, leaving the cursor two
    line heights below where it started. *)
Theorem overflowing_paragraph_gets_an_empty_line :
  let text := replicate 100 97%N in
  exists w1,
    @PDFGenerator._write_text_with_emojis Demo.emoji Demo.offline
      Demo.fixed_pitch text 12 [] (Demo.fresh_world Demo.empty_cache)
    = Some w1 /\
    PDFGenerator.lines_written w1
    = [(10%Q, []); ((10 + 12 * 1.5)%Q, [(false, text)])] /\
    FPDF.y (PDFGenerator.pdf w1) = (10 + 12 * 1.5 + 12 * 1.5)%Q.
Proof.
  intros text.
  apply (@overflowing_segment_lines Demo.emoji Demo.offline Demo.fixed_pitch
           text 12 [] (Demo.fresh_world Demo.empty_cache)).
  - discriminate.
  - vm_compute. reflexivity.
  - vm_compute. reflexivity.
Qed.



(** ** Rounding to a double *)

Section Rounding.
Import Binary64.
Local Open Scope Q_scope.

Lemma two_pow_pos e : 0 < 2 ^ e.
Proof. apply Qpower_0_lt. reflexivity. Qed.

Lemma two_pow_plus a b : 2 ^ (a + b) == 2 ^ a * 2 ^ b.
Proof. apply Qpower_plus. intros H. discriminate H. Qed.

Lemma two_pow_Z n : (0 <= n)%Z -> inject_Z (2 ^ n) == 2 ^ n.
Proof. intros H. apply (Zpower_Qpower 2 n H). Qed.

Lemma two_pow_lt a b : (a < b)%Z -> 2 ^ a < 2 ^ b.
Proof. intros H. apply Qpower_lt_compat_l; [exact H | reflexivity]. Qed.

Lemma two_pow_le a b : (a <= b)%Z -> 2 ^ a <= 2 ^ b.
Proof. intros H. apply Qpower_le_compat_l; [exact H | discriminate]. Qed.

Lemma two_pow_lt_inv a b : 2 ^ a < 2 ^ b -> (a < b)%Z.
Proof. intros H. apply (Qpower_lt_compat_l_inv 2); [exact H | reflexivity]. Qed.

(** ** Rounding to an integer *)

Lemma floor_bounds q : inject_Z (Qfloor q) <= q < inject_Z (Qfloor q) + 1.
Proof.
  split; [apply Qfloor_le|].
  pose proof (Qlt_floor q) as H. rewrite inject_Z_plus in H. exact H.
Qed.

Lemma nearest_even_cases q :
  let f := Qfloor q in
  (nearest_even q = f /\ q - inject_Z f <= 1 # 2) \/
  (nearest_even q = (f + 1)%Z /\ 1 # 2 <= q - inject_Z f).
Proof.
  cbn zeta. unfold nearest_even.
  destruct (Qcompare_spec (q - inject_Z (Qfloor q)) (1 # 2)) as [H|H|H].
  - destruct (Z.even (Qfloor q)); [left | right]; split; try reflexivity;
      rewrite H; apply Qle_refl.
  - left. split; [reflexivity | apply Qlt_le_weak; exact H].
  - right. split; [reflexivity | apply Qlt_le_weak; exact H].
Qed.

Lemma nearest_even_error q :
  q - (1 # 2) <= inject_Z (nearest_even q) <= q + (1 # 2).
Proof.
  pose proof (floor_bounds q) as [Hlo Hhi].
  destruct (nearest_even_cases q) as [[-> H]|[-> H]].
  - split; lra.
  - rewrite inject_Z_plus. change (inject_Z 1) with 1. split; lra.
Qed.

Lemma nearest_even_comp q1 q2 : q1 == q2 -> nearest_even q1 = nearest_even q2.
Proof.
  intros H. unfold nearest_even. rewrite (Qfloor_comp _ _ H).
  assert (q1 - inject_Z (Qfloor q2) == q2 - inject_Z (Qfloor q2)) as ->
    by (rewrite H; reflexivity).
  reflexivity.
Qed.

Lemma nearest_even_Z z : nearest_even (inject_Z z) = z.
Proof.
  unfold nearest_even. rewrite Qfloor_Z.
  assert (inject_Z z - inject_Z z == 0) as -> by ring. reflexivity.
Qed.

Lemma nearest_even_mono q1 q2 :
  q1 <= q2 -> (nearest_even q1 <= nearest_even q2)%Z.
Proof.
  intros Hle. pose proof (Qfloor_resp_le _ _ Hle) as Hfloor.
  destruct (Z.eq_dec (Qfloor q1) (Qfloor q2)) as [Heq|Hne].
  - unfold nearest_even. rewrite Heq.
    destruct (Qcompare_spec (q1 - inject_Z (Qfloor q2)) (1 # 2)) as [H1|H1|H1];
      destruct (Qcompare_spec (q2 - inject_Z (Qfloor q2)) (1 # 2))
        as [H2|H2|H2];
      try lia; try lra; destruct (Z.even (Qfloor q2)); lia.
  - destruct (nearest_even_cases q1) as [[-> _]|[-> _]];
      destruct (nearest_even_cases q2) as [[-> _]|[-> _]]; lia.
Qed.

(** ** The binary exponent *)

Lemma ilog2_comp q1 q2 : q1 == q2 -> ilog2 q1 = ilog2 q2.
Proof.
  intros H. unfold ilog2.
  assert (Qle_bool 1 q1 = Qle_bool 1 q2) as ->.
  { destruct (Qle_bool 1 q2) eqn:H2.
    - apply Qle_bool_iff. apply Qle_bool_iff in H2. lra.
    - destruct (Qle_bool 1 q1) eqn:H1; [|reflexivity].
      apply Qle_bool_iff in H1.
      assert (Qle_bool 1 q2 = true) as H3 by (apply Qle_bool_iff; lra).
      congruence. }
  rewrite (Qfloor_comp _ _ H).
  assert (/ q1 == / q2) as Hinv by (rewrite H; reflexivity).
  rewrite (Qceiling_comp _ _ Hinv). reflexivity.
Qed.

Lemma ilog2_spec q : 0 < q -> 2 ^ ilog2 q <= q < 2 ^ (ilog2 q + 1).
Proof.
  intros Hq. unfold ilog2. destruct (Qle_bool 1 q) eqn:H1.
  - apply Qle_bool_iff in H1.
    pose proof (floor_bounds q) as [Hlo Hhi].
    assert (1 <= Qfloor q)%Z as Hf.
    { change 1%Z with (Qfloor (inject_Z 1)) at 1.
      rewrite Qfloor_Z. apply (Qfloor_resp_le 1 q) in H1.
      change (Qfloor 1) with 1%Z in H1. exact H1. }
    pose proof (Z.log2_spec (Qfloor q) ltac:(lia)) as [Hl Hu].
    pose proof (Z.log2_nonneg (Qfloor q)) as Hk.
    rewrite <- !two_pow_Z by lia. split.
    + apply Qle_trans with (inject_Z (Qfloor q)); [|exact Hlo].
      rewrite <- Zle_Qle. exact Hl.
    + apply Qlt_le_trans with (inject_Z (Qfloor q) + 1); [exact Hhi|].
      change 1 with (inject_Z 1) at 1. rewrite <- inject_Z_plus.
      rewrite <- Zle_Qle. unfold Z.succ in Hu. lia.
  - assert (q < 1) as Hlt.
    { apply Qnot_le_lt. intros H. apply Qle_bool_iff in H. congruence. }
    set (y := / q).
    assert (0 < y) as Hy by (apply Qinv_lt_0_compat; exact Hq).
    assert (q * y == 1) as Hqy by (unfold y; field; lra).
    assert (1 < y) as Hy1.
    { apply Qnot_le_lt. intros Hle.
      assert (q * y <= 1 * y) as H2
        by (apply Qmult_le_compat_r; lra).
      nra. }
    pose proof (Qle_ceiling y) as Hc.
    pose proof (Qceiling_lt y) as Hc'.
    unfold Zminus in Hc'. rewrite inject_Z_plus in Hc'.
    change (inject_Z (- (1))) with (-1) in Hc'.
    set (c := Qceiling y) in *.
    assert (1 < c)%Z as Hc1.
    { rewrite Zlt_Qlt. change (inject_Z 1) with 1. lra. }
    pose proof (Z.log2_up_spec c Hc1) as [Hl Hu].
    pose proof (Z.log2_up_pos c Hc1) as Hk.
    set (k := Z.log2_up c) in *.
    assert (inject_Z (2 ^ Z.pred k) <= inject_Z c - 1) as Hl'.
    { change 1 with (inject_Z 1). unfold Qminus.
      rewrite <- inject_Z_opp, <- inject_Z_plus, <- Zle_Qle. lia. }
    assert (inject_Z c <= inject_Z (2 ^ k)) as Hu'
      by (rewrite <- Zle_Qle; exact Hu).
    rewrite two_pow_Z in Hl' by lia. rewrite two_pow_Z in Hu' by lia.
    assert (2 ^ (- k) * 2 ^ k == 1) as Hinv1.
    { rewrite <- two_pow_plus. replace (- k + k)%Z with 0%Z by lia.
      reflexivity. }
    assert (2 ^ (- k + 1) * 2 ^ Z.pred k == 1) as Hinv2.
    { rewrite <- two_pow_plus. replace (- k + 1 + Z.pred k)%Z with 0%Z by lia.
      reflexivity. }
    pose proof (two_pow_pos k) as Hpk.
    pose proof (two_pow_pos (Z.pred k)) as Hppk.
    pose proof (two_pow_pos (- k)) as Hpnk.
    pose proof (two_pow_pos (- k + 1)) as Hpnk1.
    split.
    + (* 2^-k <= q, from y <= 2^k *)
      assert (y <= 2 ^ k) as Hyk by lra.
      assert (2 ^ (- k) * y <= 2 ^ (- k) * 2 ^ k) as H2
        by (apply Qmult_le_l; assumption).
      assert (2 ^ (- k) * y * q <= 1 * q) as H3.
      { apply Qmult_le_compat_r; lra. }
      assert (2 ^ (- k) * y * q == 2 ^ (- k) * (q * y)) as H4 by ring.
      rewrite H4, Hqy in H3. lra.
    + (* q < 2^(1-k), from 2^(k-1) < y *)
      assert (2 ^ Z.pred k < y) as Hyk by lra.
      assert (q * 2 ^ Z.pred k < q * y) as H2
        by (apply Qmult_lt_l; assumption).
      rewrite Hqy in H2.
      assert (q * 2 ^ Z.pred k * 2 ^ (- k + 1) < 1 * 2 ^ (- k + 1)) as H3
        by (apply Qmult_lt_compat_r; assumption).
      assert (q * 2 ^ Z.pred k * 2 ^ (- k + 1)
              == q * (2 ^ (- k + 1) * 2 ^ Z.pred k)) as H4 by ring.
      rewrite H4, Hinv2 in H3. lra.
Qed.

Lemma ilog2_unique q L :
  0 < q -> 2 ^ L <= q -> q < 2 ^ (L + 1) -> ilog2 q = L.
Proof.
  intros Hq Hlo Hhi. pose proof (ilog2_spec q Hq) as [Hlo' Hhi'].
  assert (2 ^ L < 2 ^ (ilog2 q + 1)) as H1 by lra.
  assert (2 ^ ilog2 q < 2 ^ (L + 1)) as H2 by lra.
  apply two_pow_lt_inv in H1, H2. lia.
Qed.

(** ** Rounding a positive number to 53 bits *)

Lemma round_pos_comp q1 q2 : q1 == q2 -> round_pos q1 == round_pos q2.
Proof.
  intros H. unfold round_pos. rewrite (ilog2_comp _ _ H).
  assert (q1 / 2 ^ (ilog2 q2 - 52) == q2 / 2 ^ (ilog2 q2 - 52)) as Hs
    by (rewrite H; reflexivity).
  rewrite (nearest_even_comp _ _ Hs). reflexivity.
Qed.

(** The number scaled to its 53 bits lies between 2^52 and 2^53. *)
Lemma scaled_bounds q :
  0 < q ->
  let e := (ilog2 q - 52)%Z in
  q == q / 2 ^ e * 2 ^ e /\
  inject_Z (2 ^ 52) <= q / 2 ^ e < inject_Z (2 ^ 53).
Proof.
  intros Hq e. pose proof (ilog2_spec q Hq) as [Hlo Hhi].
  pose proof (two_pow_pos e) as He.
  assert (q == q / 2 ^ e * 2 ^ e) as Hs by (field; lra).
  split; [exact Hs|].
  assert (2 ^ ilog2 q == inject_Z (2 ^ 52) * 2 ^ e) as H52.
  { rewrite two_pow_Z by lia. rewrite <- two_pow_plus.
    unfold e. replace (52 + (ilog2 q - 52))%Z with (ilog2 q) by lia.
    reflexivity. }
  assert (2 ^ (ilog2 q + 1) == inject_Z (2 ^ 53) * 2 ^ e) as H53.
  { rewrite two_pow_Z by lia. rewrite <- two_pow_plus.
    unfold e. replace (53 + (ilog2 q - 52))%Z with (ilog2 q + 1)%Z by lia.
    reflexivity. }
  rewrite H52 in Hlo. rewrite H53 in Hhi.
  set (s := q / 2 ^ e) in *. rewrite Hs in Hlo, Hhi. split.
  - apply Qmult_le_r in Hlo; assumption.
  - apply Qmult_lt_r in Hhi; assumption.
Qed.

Lemma round_pos_bounds q :
  0 < q -> 2 ^ ilog2 q <= round_pos q <= 2 ^ (ilog2 q + 1).
Proof.
  intros Hq. destruct (scaled_bounds q Hq) as [_ [Hlo Hhi]].
  unfold round_pos. set (e := (ilog2 q - 52)%Z) in *.
  pose proof (two_pow_pos e) as He.
  assert (2 ^ ilog2 q == inject_Z (2 ^ 52) * 2 ^ e) as ->.
  { rewrite two_pow_Z by lia. rewrite <- two_pow_plus.
    unfold e. replace (52 + (ilog2 q - 52))%Z with (ilog2 q) by lia.
    reflexivity. }
  assert (2 ^ (ilog2 q + 1) == inject_Z (2 ^ 53) * 2 ^ e) as ->.
  { rewrite two_pow_Z by lia. rewrite <- two_pow_plus.
    unfold e. replace (53 + (ilog2 q - 52))%Z with (ilog2 q + 1)%Z by lia.
    reflexivity. }
  split; apply Qmult_le_compat_r; try lra; rewrite <- Zle_Qle.
  - rewrite <- (nearest_even_Z (2 ^ 52)) at 1.
    apply nearest_even_mono. exact Hlo.
  - rewrite <- (nearest_even_Z (2 ^ 53)) at 1.
    apply nearest_even_mono. lra.
Qed.

Lemma round_pos_positive q : 0 < q -> 0 < round_pos q.
Proof.
  intros Hq. pose proof (round_pos_bounds q Hq) as [H _].
  pose proof (two_pow_pos (ilog2 q)). lra.
Qed.

(** The relative error is at most 2^-53. *)
Lemma round_pos_error q :
  0 < q ->
  q * (1 - unit_roundoff) <= round_pos q <= q * (1 + unit_roundoff).
Proof.
  intros Hq. destruct (scaled_bounds q Hq) as [Hs [Hlo _]].
  unfold round_pos. set (e := (ilog2 q - 52)%Z) in *.
  pose proof (two_pow_pos e) as He.
  set (s := q / 2 ^ e) in *.
  pose proof (nearest_even_error s) as [Hm1 Hm2].
  set (m := inject_Z (nearest_even s)) in *.
  assert (s * unit_roundoff >= 1 # 2) as Hu.
  { unfold unit_roundoff.
    change (inject_Z (2 ^ 52)) with (4503599627370496 # 1) in Hlo.
    lra. }
  assert (s * (1 - unit_roundoff) <= m <= s * (1 + unit_roundoff)) as [H1 H2]
    by (split; lra).
  split; rewrite Hs at 1.
  - assert (s * 2 ^ e * (1 - unit_roundoff)
            == s * (1 - unit_roundoff) * 2 ^ e) as -> by ring.
    apply Qmult_le_compat_r; lra.
  - assert (s * 2 ^ e * (1 + unit_roundoff)
            == s * (1 + unit_roundoff) * 2 ^ e) as -> by ring.
    apply Qmult_le_compat_r; lra.
Qed.

Lemma ilog2_mono q1 q2 : 0 < q1 -> q1 <= q2 -> (ilog2 q1 <= ilog2 q2)%Z.
Proof.
  intros H1 Hle.
  pose proof (ilog2_spec q1 H1) as [Hlo1 _].
  pose proof (ilog2_spec q2 ltac:(lra)) as [_ Hhi2].
  assert (2 ^ ilog2 q1 < 2 ^ (ilog2 q2 + 1)) as H by lra.
  apply two_pow_lt_inv in H. lia.
Qed.

Lemma round_pos_mono q1 q2 :
  0 < q1 -> q1 <= q2 -> round_pos q1 <= round_pos q2.
Proof.
  intros H1 Hle. assert (0 < q2) as H2 by lra.
  pose proof (ilog2_mono q1 q2 H1 Hle) as HL.
  destruct (Z.eq_dec (ilog2 q1) (ilog2 q2)) as [Heq|Hne].
  - unfold round_pos. rewrite Heq.
    pose proof (two_pow_pos (ilog2 q2 - 52)) as He.
    apply Qmult_le_compat_r; [|lra]. rewrite <- Zle_Qle.
    apply nearest_even_mono. apply Qmult_le_compat_r; [exact Hle|].
    apply Qlt_le_weak, Qinv_lt_0_compat, He.
  - pose proof (round_pos_bounds q1 H1) as [_ Hhi].
    pose proof (round_pos_bounds q2 H2) as [Hlo _].
    pose proof (two_pow_le (ilog2 q1 + 1) (ilog2 q2) ltac:(lia)). lra.
Qed.

Lemma round_pos_idem q : 0 < q -> round_pos (round_pos q) == round_pos q.
Proof.
  intros Hq. pose proof (round_pos_positive q Hq) as Hp.
  destruct (scaled_bounds q Hq) as [_ [Hlo Hhi]].
  set (L := ilog2 q) in *. set (e := (L - 52)%Z) in *.
  set (m := nearest_even (q / 2 ^ e)).
  assert (round_pos q = inject_Z m * 2 ^ e) as Hr by reflexivity.
  pose proof (two_pow_pos e) as He.
  assert (2 ^ 52 <= m <= 2 ^ 53)%Z as [Hm1 Hm2].
  { split.
    - rewrite <- (nearest_even_Z (2 ^ 52)). apply nearest_even_mono. exact Hlo.
    - rewrite <- (nearest_even_Z (2 ^ 53)). apply nearest_even_mono. lra. }
  assert (forall n e', inject_Z m * 2 ^ e == inject_Z n * 2 ^ e' ->
            ilog2 (round_pos q) = (e' + 52)%Z ->
            round_pos (round_pos q) == round_pos q) as Hfix.
  { intros n e' Hn Hlog. unfold round_pos at 1. rewrite Hlog.
    replace (e' + 52 - 52)%Z with e' by lia.
    pose proof (two_pow_pos e') as He'.
    assert (round_pos q / 2 ^ e' == inject_Z n) as Hs.
    { rewrite Hr, Hn. field. lra. }
    rewrite (nearest_even_comp _ _ Hs), nearest_even_Z.
    rewrite Hr, Hn. reflexivity. }
  destruct (Z.eq_dec m (2 ^ 53)%Z) as [Htop|Hlow].
  - (* the significand carried into the next binade *)
    assert (inject_Z m * 2 ^ e == inject_Z (2 ^ 52) * 2 ^ (e + 1)) as Hn.
    { rewrite Htop, two_pow_plus. change (2 ^ 1) with 2.
      change (inject_Z (2 ^ 53)) with (2 * inject_Z (2 ^ 52)). ring. }
    apply (Hfix (2 ^ 52)%Z (e + 1)%Z Hn).
    apply ilog2_unique; [exact Hp | |]; rewrite Hr, Hn.
    + rewrite two_pow_Z by lia. rewrite <- two_pow_plus.
      replace (52 + (e + 1))%Z with (e + 1 + 52)%Z by lia. apply Qle_refl.
    + rewrite two_pow_Z by lia. rewrite <- two_pow_plus.
      apply two_pow_lt. lia.
  - apply (Hfix m e (Qeq_refl _)).
    replace (e + 52)%Z with L by (unfold e; lia).
    apply ilog2_unique; [exact Hp | |]; rewrite Hr.
    + assert (2 ^ L == inject_Z (2 ^ 52) * 2 ^ e) as ->.
      { rewrite two_pow_Z by lia. rewrite <- two_pow_plus.
        unfold e. replace (52 + (L - 52))%Z with L by lia. reflexivity. }
      apply Qmult_le_compat_r; [|lra]. rewrite <- Zle_Qle. exact Hm1.
    + assert (2 ^ (L + 1) == inject_Z (2 ^ 53) * 2 ^ e) as ->.
      { rewrite two_pow_Z by lia. rewrite <- two_pow_plus.
        unfold e. replace (53 + (L - 52))%Z with (L + 1)%Z by lia.
        reflexivity. }
      apply Qmult_lt_compat_r; [exact He|]. rewrite <- Zlt_Qlt. lia.
Qed.

(** ** Rounding any number *)

Lemma round_of_positive q : 0 < q -> round q = round_pos q.
Proof.
  intros H. unfold round.
  destruct (Qcompare_spec q 0) as [H0|H0|H0]; [lra | lra | reflexivity].
Qed.

Lemma round_of_negative q : q < 0 -> round q = - round_pos (- q).
Proof.
  intros H. unfold round.
  destruct (Qcompare_spec q 0) as [H0|H0|H0]; [lra | reflexivity | lra].
Qed.

Lemma round_of_zero q : q == 0 -> round q = 0.
Proof.
  intros H. unfold round.
  destruct (Qcompare_spec q 0) as [H0|H0|H0]; [reflexivity | lra | lra].
Qed.

Lemma round_comp q1 q2 : q1 == q2 -> round q1 == round q2.
Proof.
  intros H. unfold round. rewrite (Qcompare_comp _ _ H 0 0 (Qeq_refl 0)).
  destruct (q2 ?= 0); [reflexivity | |].
  - apply Qopp_comp, round_pos_comp. rewrite H. reflexivity.
  - apply round_pos_comp, H.
Qed.

Lemma round_positive q : 0 < q -> 0 < round q.
Proof.
  intros H. rewrite (round_of_positive q H). apply round_pos_positive, H.
Qed.

Lemma round_negative q : q < 0 -> round q < 0.
Proof.
  intros H. rewrite (round_of_negative q H).
  pose proof (round_pos_positive (- q) ltac:(lra)). lra.
Qed.

(** Rounding keeps the order. *)
Lemma round_mono a b : a <= b -> round a <= round b.
Proof.
  intros Hle.
  destruct (Qcompare_spec a 0) as [Ha|Ha|Ha];
    destruct (Qcompare_spec b 0) as [Hb|Hb|Hb]; try lra.
  - rewrite (round_of_zero a Ha), (round_of_zero b Hb). apply Qle_refl.
  - rewrite (round_of_zero a Ha). apply Qlt_le_weak, round_positive, Hb.
  - rewrite (round_of_zero b Hb). apply Qlt_le_weak, round_negative, Ha.
  - rewrite (round_of_negative a Ha), (round_of_negative b Hb).
    apply Qopp_le_compat. apply round_pos_mono; lra.
  - pose proof (round_negative a Ha). pose proof (round_positive b Hb). lra.
  - rewrite (round_of_positive a Ha), (round_of_positive b Hb).
    apply round_pos_mono; lra.
Qed.

(** A rounded number is a double: rounding it again changes nothing. *)
Lemma round_idem q : round (round q) == round q.
Proof.
  destruct (Qcompare_spec q 0) as [Hq|Hq|Hq].
  - rewrite (round_of_zero q Hq). reflexivity.
  - pose proof (round_negative q Hq) as Hr.
    rewrite (round_of_negative _ Hr), (round_of_negative q Hq).
    apply Qopp_comp.
    rewrite (round_pos_comp _ (round_pos (- q)) (Qopp_involutive _)).
    apply round_pos_idem. lra.
  - pose proof (round_positive q Hq) as Hr.
    rewrite (round_of_positive _ Hr), (round_of_positive q Hq).
    apply round_pos_idem, Hq.
Qed.

Lemma round_error q :
  0 < q -> q * (1 - unit_roundoff) <= round q <= q * (1 + unit_roundoff).
Proof.
  intros H. rewrite (round_of_positive q H). apply round_pos_error, H.
Qed.

End Rounding.

(** ** Image placement *)

Section Images.
Import PDFGenerator.

Lemma aspect_positive (image : Image) :
  (0 < width image)%Z -> (0 < height image)%Z ->
  (0 < inject_Z (height image) / inject_Z (width image))%Q.
Proof.
  intros Hw Hh. apply Qlt_shift_div_l.
  - change 0%Q with (inject_Z 0). by rewrite <- Zlt_Qlt.
  - rewrite Qmult_0_l. change 0%Q with (inject_Z 0). by rewrite <- Zlt_Qlt.
Qed.

Lemma pages_nonempty cs : FPDF.pages cs <> [].
Proof.
  destruct cs as [|c cs]; simpl; [done|].
  destruct c; try done; by destruct (FPDF.pages cs).
Qed.

Lemma pages_add_page cs cs' :
  FPDF.pages (cs ++ FPDF.AddPage :: cs') = FPDF.pages cs ++ FPDF.pages cs'.
Proof.
  induction cs as [|c cs IH]; simpl; [done|].
  destruct c; simpl; rewrite IH; try done;
    pose proof (pages_nonempty cs) as Hne;
    by destruct (FPDF.pages cs).
Qed.

(** An image of positive size always gets a display size: no division by
    zero. *)
Lemma image_size_defined (image : Image) (pdf0 : FPDF.t) :
  (0 < width image)%Z -> (0 < height image)%Z ->
  exists img_width img_height,
    image_size image pdf0 = Some (img_width, img_height).
Proof.
  intros Hw Hh. pose proof (aspect_positive image Hw Hh) as Hr.
  unfold image_size.
  destruct (Z.eqb_spec (width image) 0) as [Hz|_]; [lia|].
  destruct (Qgtb _ _); [|eauto].
  destruct (Qeq_bool _ 0) eqn:Hzero; [|eauto].
  apply Qeq_bool_iff in Hzero. lra.
Qed.

Lemma place_image_calls (image : Image) (pdf0 : FPDF.t) :
  (0 < width image)%Z -> (0 < height image)%Z ->
  exists x y w,
    FPDF.calls (place_image image pdf0)
    = FPDF.calls pdf0 ++ [FPDF.AddPage; FPDF.ImageObject image x y w].
Proof.
  intros Hw Hh. unfold place_image.
  destruct (image_size_defined image (FPDF.add_page pdf0) Hw Hh)
    as (iw & ih & ->).
  do 3 eexists. simpl. rewrite <- app_assoc. reflexivity.
Qed.

(** C5. Whatever the document holds so far and whatever the image list,
    the pages already there stay as they are, every image of the list (of
    positive size) gets one new page that holds that image and nothing
    else, in order, and an absent image starts no page. *)
Theorem images_on_their_own_pages (images : list (option Image))
    (pdf0 : FPDF.t) :
  Forall (fun entry => forall image, entry = Some image ->
            (0 < width image)%Z /\ (0 < height image)%Z) images ->
  exists new_pages,
    FPDF.pages (FPDF.calls (place_images images pdf0))
    = FPDF.pages (FPDF.calls pdf0) ++ new_pages /\
    Forall2 (fun page image =>
               exists x y w, page = [FPDF.ImageObject image x y w])
            new_pages (omap id images).
Proof.
  intros Hsizes. revert pdf0.
  induction Hsizes as [|entry images Hentry _ IH]; intros pdf0; simpl.
  - exists []. rewrite app_nil_r. split; [done | constructor].
  - destruct entry as [image|]; simpl.
    + destruct (Hentry image eq_refl) as [Hw Hh].
      destruct (place_image_calls image pdf0 Hw Hh) as (x & y & w & Hcalls).
      destruct (IH (place_image image pdf0)) as (rest & Hpages & Hall).
      exists ([FPDF.ImageObject image x y w] :: rest). split.
      * rewrite Hpages, Hcalls, pages_add_page. simpl.
        by rewrite <- app_assoc.
      * constructor; [eauto | exact Hall].
    + apply IH.
Qed.

End Images.

Lemma images_on_their_own_pages_witness :
  let photo := {| width := 800; height := 600; pixels := [] |} in
  let images := [Some photo; None; Some photo] in
  Forall (fun entry => forall image, entry = Some image ->
            (0 < width image)%Z /\ (0 < height image)%Z) images /\
  exists new_pages,
    FPDF.pages (FPDF.calls (PDFGenerator.place_images images Demo.a4))
    = FPDF.pages (FPDF.calls Demo.a4) ++ new_pages /\
    Forall2 (fun page image =>
               exists x y w, page = [FPDF.ImageObject image x y w])
            new_pages (omap id images).
Proof.
  intros photo images.
  assert (Forall (fun entry => forall image, entry = Some image ->
            (0 < width image)%Z /\ (0 < height image)%Z) images) as H.
  { unfold images.
    repeat (apply List.Forall_cons; [intros image [= <-]; simpl; lia|]).
    apply List.Forall_nil. }
  split; [exact H|].
  exact (images_on_their_own_pages images Demo.a4 H).
Defined.

Section DisplaySize.
Import PDFGenerator Binary64.
Local Open Scope Q_scope.

(** What the rounding lemmas give for the two branches of the size
    computation.  [W] and [H] are the available width and height, [a] the
    aspect ratio as computed and [r] the exact one. *)
Lemma fitted_to_width (W H r a P : Q) :
  0 < W -> 0 < H -> 0 < r ->
  r * (1 - unit_roundoff) <= a <= r * (1 + unit_roundoff) ->
  W * a * (1 - unit_roundoff) <= P <= W * a * (1 + unit_roundoff) ->
  P <= H ->
  W * r <= H * (1 + rounding_slack) /\
  P * (1 / r) <= W * (1 + rounding_slack) /\
  - rounding_slack * (W * r) <= P - W * r <= rounding_slack * (W * r).
Proof.
  intros HW HH Hr [Ha1 Ha2] [HP1 HP2] Hfit.
  assert (W * (r * (1 - unit_roundoff)) <= W * a) as H1
    by (apply Qmult_le_l; assumption).
  assert (W * a <= W * (r * (1 + unit_roundoff))) as H2
    by (apply Qmult_le_l; assumption).
  assert (0 < W * r) as Hpos by (apply Qmult_lt_0_compat; assumption).
  unfold unit_roundoff, rounding_slack in *.
  assert (P <= W * r * (1 + rounding_slack)) as H3
    by (unfold rounding_slack; lra).
  split; [lra|]. split; [|split; lra].
  assert (0 <= 1 / r) as Hinv.
  { apply Qlt_le_weak. unfold Qdiv. rewrite Qmult_1_l.
    apply Qinv_lt_0_compat, Hr. }
  apply (Qmult_le_compat_r _ _ _ H3) in Hinv.
  assert (W * r * (1 + rounding_slack) * (1 / r)
          == W * (1 + rounding_slack)) as Heq by (field; lra).
  rewrite Heq in Hinv. exact Hinv.
Qed.

Lemma fitted_to_height (W H r a iw : Q) :
  0 < W -> 0 < H -> 0 < r -> 0 < a ->
  r * (1 - unit_roundoff) <= a <= r * (1 + unit_roundoff) ->
  H / a * (1 - unit_roundoff) <= iw <= H / a * (1 + unit_roundoff) ->
  H < W * a ->
  iw * r <= H * (1 + rounding_slack) /\
  H * (1 / r) <= W * (1 + rounding_slack) /\
  - rounding_slack * (iw * r) <= H - iw * r <= rounding_slack * (iw * r).
Proof.
  intros HW HH Hr Hapos [Ha1 Ha2] [Hi1 Hi2] Htall.
  assert (0 < H / a) as Hq by (apply Qlt_shift_div_l; lra).
  assert (0 < iw) as Hiw.
  { unfold unit_roundoff in Hi1.
    assert (0 < H / a * (1 - (1 # 9007199254740992))) by lra. lra. }
  assert (iw * (r * (1 - unit_roundoff)) <= iw * a) as H1
    by (apply Qmult_le_l; assumption).
  assert (iw * a <= iw * (r * (1 + unit_roundoff))) as H2
    by (apply Qmult_le_l; assumption).
  assert (iw * a <= H / a * (1 + unit_roundoff) * a) as H3
    by (apply Qmult_le_compat_r; lra).
  assert (H / a * (1 - unit_roundoff) * a <= iw * a) as H4
    by (apply Qmult_le_compat_r; lra).
  assert (H / a * (1 + unit_roundoff) * a == H * (1 + unit_roundoff)) as E3
    by (field; lra).
  assert (H / a * (1 - unit_roundoff) * a == H * (1 - unit_roundoff)) as E4
    by (field; lra).
  rewrite E3 in H3. rewrite E4 in H4.
  assert (W * a <= W * (r * (1 + unit_roundoff))) as H5
    by (apply Qmult_le_l; assumption).
  assert (0 < iw * r) as Hpos by (apply Qmult_lt_0_compat; assumption).
  unfold unit_roundoff, rounding_slack in *.
  split; [lra|]. split; [|split; lra].
  assert (H <= W * r * (1 + rounding_slack)) as H6
    by (unfold rounding_slack; lra).
  assert (0 <= 1 / r) as Hinv.
  { apply Qlt_le_weak. unfold Qdiv. rewrite Qmult_1_l.
    apply Qinv_lt_0_compat, Hr. }
  apply (Qmult_le_compat_r _ _ _ H6) in Hinv.
  assert (W * r * (1 + rounding_slack) * (1 / r)
          == W * (1 + rounding_slack)) as Heq by (field; lra).
  rewrite Heq in Hinv. exact Hinv.
Qed.

(** C4, amended.  For an image of positive width and height on a page
    whose available width (page width less 20 units on each side) and
    available height (page height less top and bottom margins), computed
    in doubles as the program computes them, are positive, the display
    size exists, its width is at most the available width and its height
    at most the available height, one of the two being equal to it; and
    with the exact aspect ratio r = height / width, width x r exceeds the
    available height, and height x (1/r) the available width, by at most
    the fraction 2^-51 of it, and height differs from width x r by at most
    the fraction 2^-51 of width x r: the bounds and the aspect ratio of
    the claim hold up to floating-point rounding, not exactly. *)
Theorem display_size_fits_up_to_rounding (image : Image) (pdf0 : FPDF.t) :
  (0 < width image)%Z -> (0 < height image)%Z ->
  let r := inject_Z (height image) / inject_Z (width image) in
  let available_width := sub (FPDF.w pdf0) (2 * 20) in
  let available_height :=
    sub (sub (FPDF.h pdf0) (FPDF.t_margin pdf0)) (FPDF.b_margin pdf0) in
  0 < available_width -> 0 < available_height ->
  exists img_width img_height,
    image_size_binary64 image pdf0 = Some (img_width, img_height) /\
    img_width <= available_width /\
    img_height <= available_height /\
    (img_width == available_width \/ img_height == available_height) /\
    img_width * r <= available_height * (1 + rounding_slack) /\
    img_height * (1 / r) <= available_width * (1 + rounding_slack) /\
    - rounding_slack * (img_width * r) <= img_height - img_width * r
      <= rounding_slack * (img_width * r).
Proof.
  intros Hw Hh r W H HW HH.
  pose proof (aspect_positive image Hw Hh) as Hr. fold r in Hr.
  unfold image_size_binary64. fold W H.
  destruct (Z.eqb_spec (width image) 0) as [Hz|_]; [lia|].
  unfold int_div. fold r. set (a := round r).
  pose proof (round_positive r Hr) as Ha. fold a in Ha.
  pose proof (round_error r Hr) as Hra. fold a in Hra.
  assert (0 < W * a) as HWa by (apply Qmult_lt_0_compat; assumption).
  assert (round W == W) as HWW by apply round_idem.
  assert (round H == H) as HHH by apply round_idem.
  unfold Qgtb, mul, div. destruct (Qle_bool (round (W * a)) H) eqn:Hfit; simpl.
  - apply Qle_bool_iff in Hfit.
    pose proof (round_error (W * a) HWa) as HP.
    exists W, (round (W * a)). split; [reflexivity|].
    split; [apply Qle_refl|]. split; [exact Hfit|].
    split; [left; reflexivity|].
    apply (fitted_to_width W H r a); assumption.
  - assert (H < W * a) as Htall.
    { apply Qnot_le_lt. intros Hle. apply round_mono in Hle.
      rewrite HHH in Hle. apply Qle_bool_iff in Hle. congruence. }
    destruct (Qeq_bool a 0) eqn:Hzero.
    { apply Qeq_bool_iff in Hzero. lra. }
    assert (0 < H / a) as Hq by (apply Qlt_shift_div_l; lra).
    pose proof (round_error (H / a) Hq) as Hi.
    exists (round (H / a)), H. split; [reflexivity|].
    split.
    { rewrite <- HWW. apply round_mono. apply Qle_shift_div_r; lra. }
    split; [apply Qle_refl|]. split; [right; reflexivity|].
    apply (fitted_to_height W H r a); assumption.
Qed.

End DisplaySize.

Lemma display_size_fits_up_to_rounding_witness :
  let r := (inject_Z 1920 / inject_Z 1080)%Q in
  let available_width := Binary64.sub (FPDF.w Demo.a4_doubles) (2 * 20) in
  let available_height :=
    Binary64.sub
      (Binary64.sub (FPDF.h Demo.a4_doubles) (FPDF.t_margin Demo.a4_doubles))
      (FPDF.b_margin Demo.a4_doubles) in
  (0 < width Demo.portrait)%Z /\ (0 < height Demo.portrait)%Z /\
  (0 < available_width)%Q /\ (0 < available_height)%Q /\
  exists img_width img_height,
    PDFGenerator.image_size_binary64 Demo.portrait Demo.a4_doubles
    = Some (img_width, img_height) /\
    (img_width <= available_width)%Q /\
    (img_height <= available_height)%Q /\
    (img_width == available_width \/ img_height == available_height)%Q /\
    (img_width * r <= available_height * (1 + Binary64.rounding_slack))%Q /\
    (img_height * (1 / r)
     <= available_width * (1 + Binary64.rounding_slack))%Q /\
    (- Binary64.rounding_slack * (img_width * r)
     <= img_height - img_width * r
     <= Binary64.rounding_slack * (img_width * r))%Q.
Proof.
  intros r available_width available_height.
  assert (0 < width Demo.portrait)%Z as Hw by (simpl; lia).
  assert (0 < height Demo.portrait)%Z as Hh by (simpl; lia).
  assert (0 < available_width)%Q as HW by (vm_compute; reflexivity).
  assert (0 < available_height)%Q as HH by (vm_compute; reflexivity).
  split; [exact Hw|]. split; [exact Hh|]. split; [exact HW|].
  split; [exact HH|].
  exact (display_size_fits_up_to_rounding Demo.portrait Demo.a4_doubles
           Hw Hh HW HH).
Defined.

(** C4 as stated fails: for a photograph of 1080 by 1920 pixels on an A4
    page the display width is the available height divided by the rounded
    aspect ratio, rounded, and that width times the exact ratio 16/9 is
    greater than the available height (by 23 / 5066549580791808 of a
    millimetre; it also exceeds the available height as the program
    computes it). *)
Lemma portrait_exceeds_available_height :
  ~ Spec.display_fits Demo.portrait Demo.a4_doubles.
Proof.
  intros (img_width & img_height & Hsize & Hheight & _).
  vm_compute in Hsize. injection Hsize as <- <-.
  vm_compute in Hheight. apply Hheight. reflexivity.
Qed.

(** ** Whitespace *)

Section Whitespace.
#[local] Opaque isspace.

Lemma rstrip_by_head f s c kept :
  rstrip_by f s = c :: kept -> exists s', s = c :: s'.
Proof.
  destruct s as [|c0 s]; simpl; [discriminate|].
  destruct (rstrip_by f s).
  - destruct (f c0); [discriminate|]. intros [= <- <-]. eauto.
  - intros [= <- <-]. eauto.
Qed.

Lemma lstrip_by_head f s c kept :
  lstrip_by f s = c :: kept -> f c = false.
Proof.
  induction s as [|c0 s IH]; simpl; [discriminate|].
  destruct (f c0) eqn:Hc0; [exact IH|]. by intros [= <- <-].
Qed.

Lemma rstrip_by_idem f s : rstrip_by f (rstrip_by f s) = rstrip_by f s.
Proof.
  induction s as [|c s IH]; simpl; [done|].
  destruct (rstrip_by f s) as [|c0 kept] eqn:Hs.
  - destruct (f c) eqn:Hc; simpl; [done|]. by rewrite Hc.
  - change (rstrip_by f (c :: c0 :: kept))
      with (match rstrip_by f (c0 :: kept) with
            | [] => if f c then [] else [c]
            | k => c :: k
            end).
    by rewrite IH.
Qed.

Lemma split_nil_rstrip s : split s = [] -> rstrip_by isspace s = [].
Proof.
  induction s as [|c s IH]; simpl; [done|].
  destruct (isspace c) eqn:Hc.
  - intros Hs. by rewrite (IH Hs).
  - destruct s as [|c' s']; [discriminate|].
    destruct (isspace c'); [discriminate|].
    destruct (split (c' :: s')); discriminate.
Qed.

Lemma join_cons_char sep c word words :
  join sep ((c :: word) :: words) = c :: join sep (word :: words).
Proof. by destruct words. Qed.

(** On a string without trailing whitespace, replacing whitespace runs by
    one space and joining the words with one space differ by the space that
    stands for the leading run. *)
Lemma sub_runs_trimmed t :
  rstrip_by isspace t = t ->
  sub_runs isspace [space] t =
  match t with
  | [] => []
  | c :: _ => if isspace c then space :: join [space] (split t)
              else join [space] (split t)
  end.
Proof.
  induction t as [|c t IH]; [done|].
  intros Htrim.
  assert (t = [] /\ isspace c = false \/ t <> [] /\ rstrip_by isspace t = t)
    as [[-> Hc] | [Hne Ht]].
  { simpl in Htrim. destruct (rstrip_by isspace t) as [|c0 kept] eqn:Hs.
    - destruct (isspace c) eqn:Hc; [discriminate|].
      injection Htrim as <-. by left.
    - injection Htrim as <-. right. by split. }
  - simpl. by rewrite Hc.
  - specialize (IH Ht). destruct t as [|c' t']; [done|].
    assert (split (c' :: t') <> []) as Hwords.
    { intros Hnil. apply split_nil_rstrip in Hnil. congruence. }
    change (sub_runs isspace [space] (c :: c' :: t'))
      with (if isspace c
            then (if isspace c' then sub_runs isspace [space] (c' :: t')
                  else [space] ++ sub_runs isspace [space] (c' :: t'))
            else c :: sub_runs isspace [space] (c' :: t')).
    change (split (c :: c' :: t'))
      with (if isspace c then split (c' :: t')
            else if isspace c' then [c] :: split (c' :: t')
            else match split (c' :: t') with
                 | word :: words => (c :: word) :: words
                 | [] => [[c]]
                 end).
    rewrite IH.
    destruct (isspace c), (isspace c'); try reflexivity.
    + destruct (split (c' :: t')) as [|word words]; [done|]. reflexivity.
    + destruct (split (c' :: t')) as [|word words]; [done|].
      by rewrite join_cons_char.
Qed.

(** [' '.join(s.split())] on a stripped string is the string with its
    whitespace runs replaced by single spaces. *)
Lemma join_split_strip s :
  join [space] (split (strip s)) = sub_runs isspace [space] (strip s).
Proof.
  unfold strip, strip_by.
  pose proof (rstrip_by_idem isspace (lstrip_by isspace s)) as Htrim.
  rewrite (sub_runs_trimmed _ Htrim).
  destruct (rstrip_by isspace (lstrip_by isspace s)) as [|c kept] eqn:Hs;
    [done|].
  destruct (rstrip_by_head _ _ _ _ Hs) as [s' Hl].
  by rewrite (lstrip_by_head _ _ _ _ Hl).
Qed.

End Whitespace.

(** ** Content extraction *)

Section Extraction.
Import PDFGenerator.
Context {htmllib : HtmlLib}.

(** C3. For a paragraph P that is not empty once normalized, which the
    parser reads between <p> tags as one string inside one p element and in
    which there is no entity to decode, the extractor returns exactly the
    one paragraph P with whitespace runs collapsed to single spaces and the
    ends stripped. *)
Theorem process_content_paragraph (P : pystr) :
  html_parser (Spec.wrap_p P) = [Tag (py "p") [NavigableString P]] ->
  unescape (strip P) = strip P ->
  Spec.normalized_whitespace P <> [] ->
  _process_content (Spec.wrap_p P) = [Spec.normalized_whitespace P].
Proof.
  intros Hparse Hplain Hne. unfold Spec.normalized_whitespace in *.
  assert (strip P <> []) as Hstrip by (intros E; by rewrite E in Hne).
  unfold _process_content. rewrite Hparse.
  change (truthy (Spec.wrap_p P)) with true. cbv beta iota. simpl negb.
  cbv iota.
  assert (decompose [py "script"; py "style"]
            [Tag (py "p") [NavigableString P]]
          = [Tag (py "p") [NavigableString P]]) as -> by reflexivity.
  simpl fold_left.
  assert (get_text_strip (Tag (py "p") [NavigableString P]) = strip P)
    as ->.
  { unfold get_text_strip. simpl strings. simpl map.
    destruct (strip P); [done|]. simpl. by rewrite app_nil_r. }
  rewrite Hplain.
  assert (truthy (strip P) = true) as -> by (by destruct (strip P)).
  unfold flush_text, clean_paragraphs. simpl.
  rewrite join_split_strip.
  destruct (sub_runs isspace [space] (strip P)) eqn:Hn; [done|].
  reflexivity.
Qed.

End Extraction.

Lemma process_content_paragraph_witness :
  @html_parser Demo.html (Spec.wrap_p (py "  Hi   there "))
  = [Tag (py "p") [NavigableString (py "  Hi   there ")]] /\
  @unescape Demo.html (strip (py "  Hi   there ")) = strip (py "  Hi   there ")
  /\ Spec.normalized_whitespace (py "  Hi   there ") <> [] /\
  @PDFGenerator._process_content Demo.html (Spec.wrap_p (py "  Hi   there "))
  = [Spec.normalized_whitespace (py "  Hi   there ")].
Proof.
  assert (@html_parser Demo.html (Spec.wrap_p (py "  Hi   there "))
          = [Tag (py "p") [NavigableString (py "  Hi   there ")]]) as H1
    by reflexivity.
  assert (@unescape Demo.html (strip (py "  Hi   there "))
          = strip (py "  Hi   there ")) as H2 by reflexivity.
  assert (Spec.normalized_whitespace (py "  Hi   there ") <> []) as H3
    by (vm_compute; discriminate).
  split; [exact H1|]. split; [exact H2|]. split; [exact H3|].
  exact (@process_content_paragraph Demo.html _ H1 H2 H3).
Defined.

(** ** File names *)

Section Stripping.

Lemma lstrip_by_Forall (P : N -> Prop) f s :
  Forall P s -> Forall P (lstrip_by f s).
Proof.
  induction 1 as [|c s Hc Hs IH]; simpl; [constructor|].
  destruct (f c); [exact IH | by constructor].
Qed.

Lemma rstrip_by_Forall (P : N -> Prop) f s :
  Forall P s -> Forall P (rstrip_by f s).
Proof.
  induction 1 as [|c s Hc Hs IH]; simpl; [constructor|].
  destruct (rstrip_by f s).
  - destruct (f c); [constructor | by repeat constructor].
  - by constructor.
Qed.

Lemma lstrip_by_length f s : length (lstrip_by f s) <= length s.
Proof.
  induction s as [|c s IH]; simpl; [lia|]. destruct (f c); simpl; lia.
Qed.

Lemma rstrip_by_length f s : length (rstrip_by f s) <= length s.
Proof.
  induction s as [|c s IH]; simpl; [lia|].
  destruct (rstrip_by f s); [destruct (f c)|]; simpl in *; lia.
Qed.

Lemma rstrip_by_last f s c : last (rstrip_by f s) = Some c -> f c = false.
Proof.
  induction s as [|c0 s IH]; simpl; [discriminate|].
  destruct (rstrip_by f s) as [|c1 kept].
  - destruct (f c0) eqn:Hc0; [discriminate|]. by intros [= <-].
  - exact IH.
Qed.

Lemma strip_by_head f s c : head (strip_by f s) = Some c -> f c = false.
Proof.
  unfold strip_by. destruct (rstrip_by f (lstrip_by f s)) as [|c0 kept] eqn:Hs;
    [discriminate|].
  intros [= <-]. destruct (rstrip_by_head _ _ _ _ Hs) as [s' Hl].
  exact (lstrip_by_head _ _ _ _ Hl).
Qed.

Lemma sub_runs_Forall (P : N -> Prop) f repl s :
  Forall P repl ->
  Forall (fun c => f c = false -> P c) s ->
  Forall P (sub_runs f repl s).
Proof.
  intros Hrepl. induction 1 as [|c s Hc Hs IH]; simpl; [constructor|].
  destruct (f c).
  - destruct s as [|c' s']; [exact Hrepl|].
    destruct (f c'); [exact IH|]. apply Forall_app. by split.
  - constructor; [by apply Hc | exact IH].
Qed.

End Stripping.

Section Naming.
Import PDFGenerator.
Context {htmllib : HtmlLib} {datelib : DateLib} {unicode : UnicodeDb}.

Lemma title_slug_word_characters title :
  Forall (fun c => isword c = true) (title_slug title).
Proof.
  unfold title_slug, strip_by.
  apply rstrip_by_Forall, lstrip_by_Forall, Forall_take, sub_runs_Forall.
  - repeat constructor. unfold isword. rewrite N.eqb_refl.
    by destruct (isalnum underscore).
  - apply Forall_forall. intros c Hin Hsep.
    apply list_elem_of_filter in Hin as [Hkeep _].
    apply orb_false_iff in Hsep as [Hh Hs]. rewrite Hh, Hs in Hkeep.
    by rewrite !orb_false_r in Hkeep.
Qed.

Lemma title_slug_length title : length (title_slug title) <= 50.
Proof.
  unfold title_slug, strip_by.
  etrans; [apply rstrip_by_length|]. etrans; [apply lstrip_by_length|].
  rewrite length_take. lia.
Qed.

(** C7, amended.  For a post whose date parses, the file name is the date
    as YYYYMMDD, an underscore, a slug and ".pdf"; the slug is the cleaned
    title with the characters that are neither word characters, whitespace
    nor hyphens deleted, every run of whitespace and hyphens replaced by
    one underscore, cut to its first 50 characters, with underscores
    stripped from both ends.  It has at most 50 characters, all of them
    letters, digits or underscores, and neither begins nor ends with an
    underscore. *)
Theorem get_filename_of_dated_post (post : Post) (dt : datetime) :
  parse_date (default [] (date post)) = Some dt ->
  let cleaned :=
    _clean_html_text (default (py "untitled") (title_rendered post)) in
  let kept :=
    filter (fun c => (isword c || isspace c || N.eqb c hyphen) = true)
           cleaned in
  let joined :=
    sub_runs (fun c => N.eqb c hyphen || isspace c) [underscore] kept in
  let slug := strip_by (N.eqb underscore) (take 50 joined) in
  _get_filename post = strftime_Ymd dt ++ py "_" ++ slug ++ py ".pdf" /\
  length slug <= 50 /\
  Forall (fun c => isword c = true) slug /\
  head slug <> Some underscore /\
  last slug <> Some underscore.
Proof.
  intros Hdate cleaned kept joined slug.
  split; [unfold _get_filename; by rewrite Hdate|].
  split; [apply title_slug_length|].
  split; [apply title_slug_word_characters|].
  split.
  - intros Hhead. apply strip_by_head in Hhead.
    by rewrite N.eqb_refl in Hhead.
  - intros Hlast. apply rstrip_by_last in Hlast.
    by rewrite N.eqb_refl in Hlast.
Qed.

(** C8. When the date string does not parse, the displayed date is the
    string itself and the file name is unknown_date_<id>.pdf. *)
Theorem unparseable_date_falls_back (post : Post) (date_str : pystr) (n : Z) :
  date post = Some date_str ->
  post_id post = Some n ->
  parse_date date_str = None ->
  _format_date date_str = date_str /\
  _get_filename post = py "unknown_date_" ++ str_of_int n ++ py ".pdf".
Proof.
  intros Hdate Hid Hparse. split.
  - unfold _format_date. by rewrite Hparse.
  - unfold _get_filename, id_text. rewrite Hdate. simpl.
    by rewrite Hparse, Hid.
Qed.

(** C9, amended.  The error document is written to the directory "errors"
    under the output directory, under the name
    error_<id>_<sanitized title>.pdf; that directory is never the one a
    successful document of the same post is written to, which is
    <id>_<sanitized title> under the output directory. *)
Theorem error_pdf_location (OUTPUT_DIR : Path) (post : Post) :
  let self := BatchProcessor.init OUTPUT_DIR in
  let error_file := BatchProcessor.create_error_pdf self post in
  let title :=
    TextFormatter.clean_for_display
      (default (py "Unknown Title") (title_rendered post)) in
  parent error_file = path_join OUTPUT_DIR (py "errors") /\
  name error_file
  = py "error_" ++ id_text post ++ py "_"
    ++ TextFormatter.clean_for_path title ++ py ".pdf" /\
  parent (BatchProcessor.pdf_path self post)
  = path_join OUTPUT_DIR
      (id_text post ++ py "_"
       ++ TextFormatter.clean_for_path
            (default (py "untitled") (title_rendered post))) /\
  parent error_file <> parent (BatchProcessor.pdf_path self post).
Proof.
  intros self error_file title.
  unfold error_file, BatchProcessor.create_error_pdf, BatchProcessor.pdf_path,
    BatchProcessor.get_post_directory, parent, name, path_join.
  rewrite !removelast_last, last_last.
  unfold self, BatchProcessor.init, path_join.
  cbn [BatchProcessor.errors_dir BatchProcessor.base_dir].
  split; [done|]. split; [done|]. split; [done|].
  intros Heq. apply app_inv_head in Heq. injection Heq as Heq.
  assert (In underscore (py "errors")) as Hin.
  { rewrite Heq. apply in_or_app. right. apply (in_eq underscore). }
  vm_compute in Hin. intuition discriminate.
Qed.

End Naming.

Lemma get_filename_of_dated_post_witness :
  @PDFGenerator.parse_date Demo.dates (default [] (date Demo.hello_world))
  = Some {| year := 2023; month := 5; day := 1; hour := 10; minute := 0 |}
  /\ @PDFGenerator._get_filename Demo.html Demo.dates Demo.unicode
       Demo.hello_world
     = py "20230501_Hello_World.pdf".
Proof.
  assert (@PDFGenerator.parse_date Demo.dates
            (default [] (date Demo.hello_world))
          = Some {| year := 2023; month := 5; day := 1;
                    hour := 10; minute := 0 |}) as H by reflexivity.
  split; [exact H|].
  exact (proj1 (@get_filename_of_dated_post Demo.html Demo.dates Demo.unicode
                  Demo.hello_world _ H)).
Defined.

(** C7 as stated fails: the apostrophe of "It's here" is deleted, not
    replaced by an underscore, so the file is 20230501_Its_here.pdf where
    the claim has 20230501_It_s_here.pdf. *)
Lemma apostrophe_is_deleted_not_replaced :
  ~ @Spec.named_by_slug Demo.html Demo.dates Demo.unicode Demo.its_here.
Proof.
  intros H.
  specialize (H {| year := 2023; month := 5; day := 1;
                   hour := 10; minute := 0 |} eq_refl).
  vm_compute in H. discriminate H.
Qed.

Lemma unparseable_date_falls_back_witness :
  date Demo.undated = Some (py "yesterday") /\
  post_id Demo.undated = Some 9%Z /\
  @PDFGenerator.parse_date Demo.dates (py "yesterday") = None /\
  @PDFGenerator._format_date Demo.dates (py "yesterday") = py "yesterday" /\
  @PDFGenerator._get_filename Demo.html Demo.dates Demo.unicode Demo.undated
  = py "unknown_date_" ++ str_of_int 9 ++ py ".pdf".
Proof.
  split; [reflexivity|]. split; [reflexivity|]. split; [reflexivity|].
  exact (@unparseable_date_falls_back Demo.html Demo.dates Demo.unicode
           Demo.undated (py "yesterday") 9%Z eq_refl eq_refl eq_refl).
Defined.

(** C9 as stated fails: the error document of post 7 goes to
    test_output/errors, its ordinary document to
    test_output/7_hello_world. *)
Lemma error_pdf_goes_elsewhere :
  ~ @Spec.same_output_directory Demo.html Demo.dates Demo.unicode
      (BatchProcessor.init [py "test_output"]) Demo.hello_world.
Proof.
  unfold Spec.same_output_directory. vm_compute. intros H. discriminate H.
Qed.

(** * Further properties of the line layout *)

Section LayoutInvariants.
Import PDFGenerator Rows.
Context {emoji : EmojiLib} {provider : CacheManager.Provider}
        {metrics : FPDF.FontMetrics}.

Lemma write_line_loop_geometry segs x y line_height font_size style
    (pdf0 : FPDF.t) (cm : CacheManager.t) :
  same_geometry pdf0
    (fst (write_line_loop segs x y line_height font_size style pdf0 cm)).
Proof.
  revert x pdf0 cm.
  induction segs as [|[is_emoji content] rest IH]; intros x pdf0 cm; simpl.
  - apply same_geometry_refl.
  - destruct is_emoji.
    + destruct (CacheManager.get_emoji_image content cm) as [[file|] cm'];
        [|apply IH].
      unfold FPDF.image_file. destruct (FPDF.image_loads file); [|apply IH].
      eapply same_geometry_trans; [|apply IH].
      apply same_geometry_update.
    + eapply same_geometry_trans; [|apply IH].
      unfold FPDF.write, FPDF.set_font, FPDF.set_xy. by repeat split.
Qed.

Lemma write_line_geometry segs x y line_height font_size style (w0 : world) :
  same_geometry (pdf w0)
    (pdf (_write_line segs x y line_height font_size style w0)).
Proof.
  unfold _write_line.
  pose proof (write_line_loop_geometry segs x y line_height font_size style
                (pdf w0) (cache_manager w0)) as H.
  by destruct (write_line_loop _ _ _ _ _ _ _ _).
Qed.

Lemma write_line_lines segs x y line_height font_size style (w0 : world) :
  lines_written (_write_line segs x y line_height font_size style w0)
  = lines_written w0 ++ [(y, segs)].
Proof.
  unfold _write_line. by destruct (write_line_loop _ _ _ _ _ _ _ _).
Qed.

Lemma segment_width_reserved font_size style seg (pdf0 : FPDF.t) :
  fst (segment_width font_size style seg pdf0)
  = Spec.reserved_width font_size style (FPDF.k pdf0) seg /\
  same_geometry pdf0 (snd (segment_width font_size style seg pdf0)).
Proof.
  destruct seg as [[|] content]; simpl; split; try done;
    by repeat split.
Qed.

Lemma below_shift y line_height n :
  below (y + line_height)%Q line_height n
  = (below y line_height n + line_height)%Q.
Proof.
  unfold below. induction n as [|n IH]; simpl; [done|]. by rewrite IH.
Qed.

Lemma rows_snoc y line_height n :
  rows y line_height (n + 1)
  = rows y line_height n ++ [below y line_height n].
Proof.
  revert y. induction n as [|n IH]; intros y; simpl; [done|].
  rewrite IH, below_shift. reflexivity.
Qed.

Lemma line_end_snoc font_size style k x_start segs seg :
  line_end font_size style k x_start (segs ++ [seg])
  = (line_end font_size style k x_start segs
     + Spec.reserved_width font_size style k seg)%Q.
Proof. unfold line_end. by rewrite fold_left_app. Qed.

(** What the first pass keeps true from segment to segment. *)
Lemma first_pass_invariant segs x_start line_height font_size style :
  forall st : pass,
  let st' := first_pass segs x_start line_height font_size style st in
  let k := FPDF.k (pdf (wd st)) in
  let limit := (FPDF.w (pdf (wd st)) - FPDF.r_margin (pdf (wd st)))%Q in
  exists ls,
    lines_written (wd st') = lines_written (wd st) ++ ls /\
    concat (map snd ls) ++ line_segments st' = line_segments st ++ segs /\
    map fst ls = rows (y_position st) line_height (length ls) /\
    y_position st' = below (y_position st) line_height (length ls) /\
    same_geometry (pdf (wd st)) (pdf (wd st')) /\
    (line_segments st <> [] -> Forall (fun l => snd l <> []) ls) /\
    Forall (fun l => snd l <> []) (tail ls) /\
    (line_segments st <> [] \/ segs <> [] -> line_segments st' <> []) /\
    (current_x st = line_end font_size style k x_start (line_segments st) ->
     (2 <= length (line_segments st) -> (current_x st <= limit)%Q) ->
     current_x st' = line_end font_size style k x_start (line_segments st') /\
     (2 <= length (line_segments st') -> (current_x st' <= limit)%Q) /\
     Forall (fun l => 2 <= length (snd l) ->
               (line_end font_size style k x_start (snd l) <= limit)%Q) ls).
Proof.
  induction segs as [|seg rest IH]; intros st.
  - exists []. simpl. rewrite !app_nil_r.
    repeat split; try done; try apply same_geometry_refl.
    + intros [H|H]; done.
  - cbn zeta.
    destruct (segment_width_reserved font_size style seg (pdf (wd st)))
      as [Hwidth Hgeo1].
    simpl first_pass.
    destruct (segment_width font_size style seg (pdf (wd st)))
      as [width pdf1] eqn:Hsw.
    simpl in Hwidth, Hgeo1. subst width.
    set (k := FPDF.k (pdf (wd st))).
    set (limit := (FPDF.w (pdf (wd st)) - FPDF.r_margin (pdf (wd st)))%Q).
    set (wseg := Spec.reserved_width font_size style k seg).
    cbn [wd current_x y_position line_segments pdf with_pdf].
    assert (FPDF.w pdf1 = FPDF.w (pdf (wd st)) /\
            FPDF.r_margin pdf1 = FPDF.r_margin (pdf (wd st)) /\
            FPDF.k pdf1 = k) as (Hw1 & Hr1 & Hk1).
    { destruct Hgeo1 as (?&?&?&?&?&?&?). by repeat split. }
    rewrite Hw1, Hr1. fold limit.
    destruct (Qgtb (current_x st + wseg) limit) eqn:Hbreak.
    + (* the line is closed and the segment opens the next one *)
      cbn [wd current_x y_position line_segments].
      match goal with |- context [first_pass rest _ _ _ _ ?s] =>
        specialize (IH s); set (st2 := s) in * end.
      cbn zeta in IH.
      destruct IH as (ls & H1 & H2 & H3 & H4 & H5 & H6 & H7 & H8 & H9).
      pose proof (write_line_geometry (line_segments st) x_start
                    (y_position st) line_height font_size style
                    (with_pdf pdf1 (wd st))) as Hgeo2.
      assert (same_geometry (pdf (wd st)) (pdf (wd st2))) as Hgeo.
      { eapply same_geometry_trans; [exact Hgeo1 | exact Hgeo2]. }
      assert (FPDF.k (pdf (wd st2)) = k /\
              (FPDF.w (pdf (wd st2)) - FPDF.r_margin (pdf (wd st2)))%Q
              = limit) as [Hk2 Hl2].
      { destruct Hgeo as (Hw&?&Hk&?&Hr&?&?). unfold limit, k.
        by rewrite Hw, Hk, Hr. }
      rewrite Hk2, Hl2 in H9.
      exists ((y_position st, line_segments st) :: ls).
      split.
      { rewrite H1. subst st2. cbn [wd]. rewrite write_line_lines.
        cbn [with_pdf lines_written]. by rewrite <- app_assoc. }
      split.
      { cbn [map concat snd]. rewrite <- app_assoc, H2. by subst st2. }
      split.
      { cbn [map fst length rows]. f_equal. exact H3. }
      split.
      { rewrite H4. cbn [length]. subst st2. cbn [y_position].
        rewrite below_shift. reflexivity. }
      split; [eapply same_geometry_trans; [exact Hgeo | exact H5]|].
      assert (Forall (fun l : Q * list segment => snd l <> []) ls) as Hne
        by (apply H6; by subst st2).
      split; [intros Hline; by constructor|].
      split; [exact Hne|].
      split; [intros _; apply H8; left; by subst st2|].
      intros Hx Hfit.
      destruct H9 as (Hx' & Hfit' & Hall).
      { subst st2. cbn [current_x line_segments]. unfold line_end. simpl.
        reflexivity. }
      { subst st2. simpl. lia. }
      split; [exact Hx'|]. split; [exact Hfit'|].
      constructor; [|exact Hall].
      cbn [snd]. intros Hlen. rewrite <- Hx. by apply Hfit.
    + (* the segment joins the line *)
      match goal with |- context [first_pass rest _ _ _ _ ?s] =>
        specialize (IH s); set (st2 := s) in * end.
      cbn zeta in IH.
      destruct IH as (ls & H1 & H2 & H3 & H4 & H5 & H6 & H7 & H8 & H9).
      assert (FPDF.k (pdf (wd st2)) = k /\
              (FPDF.w (pdf (wd st2)) - FPDF.r_margin (pdf (wd st2)))%Q
              = limit) as [Hk2 Hl2].
      { subst st2. cbn [wd with_pdf pdf]. unfold limit. by rewrite Hw1, Hr1. }
      rewrite Hk2, Hl2 in H9.
      assert (line_segments st2 <> []) as Hline2.
      { subst st2. cbn [line_segments]. by destruct (line_segments st). }
      exists ls.
      split; [rewrite H1; by subst st2|].
      split.
      { rewrite H2. subst st2. cbn [line_segments].
        by rewrite <- app_assoc. }
      split; [exact H3|]. split; [exact H4|].
      split.
      { eapply same_geometry_trans; [|exact H5]. by subst st2. }
      split; [intros _; by apply H6|].
      split; [apply Forall_tail; by apply H6|].
      split; [intros _; apply H8; by left|].
      intros Hx Hfit.
      assert ((current_x st + wseg <= limit)%Q) as Hjoin.
      { unfold Qgtb in Hbreak. apply negb_false_iff in Hbreak.
        by apply Qle_bool_iff in Hbreak. }
      apply H9.
      * subst st2. cbn [current_x line_segments].
        rewrite line_end_snoc, <- Hx. reflexivity.
      * intros _. subst st2. cbn [current_x]. exact Hjoin.
Qed.

End LayoutInvariants.

Section LayoutTheorems.
Import PDFGenerator Rows.
Context {emoji : EmojiLib} {provider : CacheManager.Provider}
        {metrics : FPDF.FontMetrics}.

Lemma rows_app y line_height n m :
  rows y line_height (n + m)
  = rows y line_height n ++ rows (below y line_height n) line_height m.
Proof.
  revert y. induction n as [|n IH]; intros y; simpl; [done|].
  rewrite IH, below_shift. reflexivity.
Qed.

(** Everything the layout of one paragraph does to the record of lines. *)
Lemma write_text_lines text font_size style (w0 w1 : world) :
  _write_text_with_emojis text font_size style w0 = Some w1 ->
  let line_height := (font_size * 1.5)%Q in
  let k := FPDF.k (pdf w0) in
  let limit := (FPDF.w (pdf w0) - FPDF.r_margin (pdf w0))%Q in
  exists segs ls,
    _split_text_and_emojis text = Some segs /\
    lines_written w1 = lines_written w0 ++ ls /\
    concat (map snd ls) = segs /\
    map fst ls = rows (FPDF.y (pdf w0)) line_height (length ls) /\
    FPDF.y (pdf w1) = below (FPDF.y (pdf w0)) line_height (length ls) /\
    same_geometry (pdf w0) (pdf w1) /\
    Forall (fun l => snd l <> []) (tail ls) /\
    Forall (fun l => 2 <= length (snd l) ->
              (line_end font_size style k (FPDF.l_margin (pdf w0)) (snd l)
               <= limit)%Q) ls.
Proof.
  unfold _write_text_with_emojis. destruct text as [|c text].
  { simpl. intros [= <-]. exists [], []. rewrite app_nil_r.
    repeat split; try done; constructor. }
  simpl truthy. simpl negb. cbv iota.
  destruct (_split_text_and_emojis (c :: text)) as [segs|] eqn:Hsplit;
    [|discriminate].
  set (x_start := FPDF.l_margin (pdf w0)).
  set (lh := (font_size * 1.5)%Q).
  set (st0 := {| current_x := x_start; y_position := FPDF.get_y (pdf w0);
                 line_segments := []; wd := w0 |}).
  destruct (first_pass_invariant segs x_start lh font_size style st0)
    as (ls & H1 & H2 & H3 & H4 & H5 & _ & H7 & H8 & H9).
  set (st := first_pass segs x_start lh font_size style st0) in *.
  destruct H9 as (Hx & Hfit & Hall); [done | simpl; lia |].
  subst st0. cbn [wd line_segments y_position current_x] in *.
  simpl in H2.
  destruct (line_segments st) as [|seg line] eqn:Hline; simpl truthy;
    cbv iota; intros [= <-]; cbv zeta.
  - exists segs, ls. rewrite app_nil_r in H2.
    repeat split; try done.
    all: destruct H5 as (?&?&?&?&?&?&?); done.
  - exists segs, (ls ++ [(y_position st, seg :: line)]).
    split; [done|].
    split.
    { cbn [with_pdf lines_written]. rewrite write_line_lines, H1.
      by rewrite <- app_assoc. }
    split.
    { rewrite map_app, concat_app. simpl. by rewrite app_nil_r. }
    split.
    { rewrite map_app, length_app, rows_app, H3, H4. reflexivity. }
    split.
    { cbn [with_pdf pdf FPDF.set_y FPDF.update FPDF.y].
      rewrite length_app, Nat.add_comm. simpl. by rewrite H4. }
    split.
    { pose proof (write_line_geometry (seg :: line) x_start (y_position st)
                    lh font_size style (wd st)) as Hg.
      pose proof (same_geometry_trans _ _ _ H5 Hg) as (?&?&?&?&?&?&?).
      by repeat split. }
    split.
    { destruct ls as [|l ls']; simpl; [constructor|].
      apply Forall_app. split; [exact H7|]. by repeat constructor. }
    apply Forall_app. split; [exact Hall|].
    constructor; [|constructor]. cbn [snd]. intros Hlen.
    rewrite <- Hx. by apply Hfit.
Qed.

(** The layout of a paragraph returns, whatever the paragraph: the only
    loop that could go on for ever is the segmentation's, and it ends when
    no key of the emoji table is empty. *)
Lemma write_text_returns text font_size style (w0 : world) :
  Forall (fun em => em <> []) EMOJI_DATA ->
  exists w1, _write_text_with_emojis text font_size style w0 = Some w1.
Proof.
  intros Htab. unfold _write_text_with_emojis.
  destruct (negb (truthy text)); [by eexists|].
  destruct (split_loop_spec (S (length text)) text 0 [] [] Htab)
    as (segs & Hsegs & _); try done; simpl; try lia; [constructor|].
  unfold _split_text_and_emojis. rewrite Hsegs.
  destruct (truthy (line_segments _)); by eexists.
Qed.

(** X1. Every paragraph is laid out (provided no key of the emoji table is
    empty), and every one of its segments is written exactly once, whole
    and in order: the lines written, put end to end, are the segmentation
    of the paragraph. *)
Theorem layout_keeps_every_segment text font_size style (w0 : world) :
  Forall (fun em => em <> []) EMOJI_DATA ->
  exists w1 segs ls,
    _write_text_with_emojis text font_size style w0 = Some w1 /\
    _split_text_and_emojis text = Some segs /\
    lines_written w1 = lines_written w0 ++ ls /\
    concat (map snd ls) = segs.
Proof.
  intros Htab.
  destruct (write_text_returns text font_size style w0 Htab) as [w1 H].
  destruct (write_text_lines _ _ _ _ _ H) as (segs & ls & ? & ? & ? & _).
  by exists w1, segs, ls.
Qed.

(** X2. Every paragraph is laid out (provided no key of the emoji table is
    empty) in lines one line height (1.5 times the font size) apart, the
    first at the ordinate the cursor had, and the cursor is left one line
    height below the last.  (The first of these lines is the empty one
    when the first segment is wider than the line.) *)
Theorem layout_lines_are_evenly_spaced text font_size style (w0 : world) :
  Forall (fun em => em <> []) EMOJI_DATA ->
  exists w1 ls,
    _write_text_with_emojis text font_size style w0 = Some w1 /\
    lines_written w1 = lines_written w0 ++ ls /\
    map fst ls
    = rows (FPDF.y (pdf w0)) (font_size * 1.5)%Q (length ls) /\
    FPDF.y (pdf w1)
    = below (FPDF.y (pdf w0)) (font_size * 1.5)%Q (length ls).
Proof.
  intros Htab.
  destruct (write_text_returns text font_size style w0 Htab) as [w1 H].
  destruct (write_text_lines _ _ _ _ _ H)
    as (segs & ls & _ & ? & _ & ? & ? & _).
  by exists w1, ls.
Qed.

(** X3. Of the lines written for a paragraph only the first can be empty:
    every later line holds at least one segment. *)
Theorem layout_only_first_line_can_be_empty text font_size style
    (w0 w1 : world) :
  _write_text_with_emojis text font_size style w0 = Some w1 ->
  exists ls,
    lines_written w1 = lines_written w0 ++ ls /\
    Forall (fun l => snd l <> []) (tail ls).
Proof.
  intros H. destruct (write_text_lines _ _ _ _ _ H)
    as (segs & ls & _ & ? & _ & _ & _ & _ & ? & _).
  by exists ls.
Qed.

(** X4. A line that holds two or more segments fits the page: the widths
    reserved for its segments, added from the left margin, do not pass the
    right margin.  Only a line of one segment can overflow. *)
Theorem layout_lines_fit text font_size style (w0 w1 : world) :
  _write_text_with_emojis text font_size style w0 = Some w1 ->
  exists ls,
    lines_written w1 = lines_written w0 ++ ls /\
    Forall (fun l => 2 <= length (snd l) ->
              (line_end font_size style (FPDF.k (pdf w0))
                        (FPDF.l_margin (pdf w0)) (snd l)
               <= FPDF.w (pdf w0) - FPDF.r_margin (pdf w0))%Q) ls.
Proof.
  intros H. destruct (write_text_lines _ _ _ _ _ H)
    as (segs & ls & _ & ? & _ & _ & _ & _ & _ & ?).
  by exists ls.
Qed.

Lemma texts_snoc segs seg : texts (segs ++ [seg]) = texts segs ++ texts [seg].
Proof. unfold texts. by rewrite filter_app, map_app. Qed.

Lemma write_line_loop_texts segs x y line_height font_size style
    (pdf0 : FPDF.t) (cm : CacheManager.t) :
  omap written_text
    (FPDF.calls
       (fst (write_line_loop segs x y line_height font_size style pdf0 cm)))
  = omap written_text (FPDF.calls pdf0) ++ texts segs.
Proof.
  revert x pdf0 cm.
  induction segs as [|[is_emoji content] rest IH]; intros x pdf0 cm; simpl.
  - by rewrite app_nil_r.
  - destruct is_emoji.
    + destruct (CacheManager.get_emoji_image content cm) as [[file|] cm'];
        [|by rewrite IH].
      unfold FPDF.image_file. destruct (FPDF.image_loads file);
        [|by rewrite IH].
      rewrite IH. simpl. rewrite omap_app. simpl.
      by rewrite app_nil_r.
    + rewrite IH. simpl. rewrite omap_app. simpl.
      by rewrite <- app_assoc.
Qed.

Lemma write_line_texts segs x y line_height font_size style (w0 : world) :
  omap written_text
    (FPDF.calls (pdf (_write_line segs x y line_height font_size style w0)))
  = omap written_text (FPDF.calls (pdf w0)) ++ texts segs.
Proof.
  unfold _write_line.
  pose proof (write_line_loop_texts segs x y line_height font_size style
                (pdf w0) (cache_manager w0)) as H.
  by destruct (write_line_loop _ _ _ _ _ _ _ _).
Qed.

Lemma segment_width_calls font_size style seg (pdf0 : FPDF.t) :
  FPDF.calls (snd (segment_width font_size style seg pdf0))
  = FPDF.calls pdf0.
Proof. by destruct seg as [[|] content]. Qed.

Lemma first_pass_texts segs x_start line_height font_size style :
  forall st : pass,
  let st' := first_pass segs x_start line_height font_size style st in
  omap written_text (FPDF.calls (pdf (wd st'))) ++ texts (line_segments st')
  = omap written_text (FPDF.calls (pdf (wd st)))
    ++ texts (line_segments st) ++ texts segs.
Proof.
  induction segs as [|seg rest IH]; intros st; cbn zeta.
  - simpl. by rewrite !app_nil_r.
  - simpl first_pass.
    pose proof (segment_width_calls font_size style seg (pdf (wd st)))
      as Hcalls.
    destruct (segment_width font_size style seg (pdf (wd st)))
      as [width pdf1]. simpl in Hcalls.
    cbn [wd current_x y_position line_segments pdf with_pdf].
    destruct (Qgtb _ _).
    + rewrite IH. cbn [wd line_segments].
      rewrite write_line_texts. cbn [with_pdf pdf]. rewrite Hcalls.
      change (texts (seg :: rest)) with (texts ([seg] ++ rest)).
      unfold texts. rewrite !filter_app, !map_app, <- !app_assoc.
      reflexivity.
    + rewrite IH. cbn [wd line_segments with_pdf pdf]. rewrite Hcalls.
      change (texts (seg :: rest)) with (texts ([seg] ++ rest)).
      unfold texts. rewrite !filter_app, !map_app, <- !app_assoc.
      reflexivity.
Qed.

(** The strings printed for one paragraph. *)
Lemma write_text_texts text font_size style
    (w0 w1 : world) :
  _write_text_with_emojis text font_size style w0 = Some w1 ->
  exists segs,
    _split_text_and_emojis text = Some segs /\
    omap written_text (FPDF.calls (pdf w1))
    = omap written_text (FPDF.calls (pdf w0)) ++ texts segs.
Proof.
  unfold _write_text_with_emojis. destruct text as [|c text].
  { simpl. intros [= <-]. exists []. by rewrite app_nil_r. }
  simpl truthy. simpl negb. cbv iota.
  destruct (_split_text_and_emojis (c :: text)) as [segs|] eqn:Hsplit;
    [|discriminate].
  match goal with |- context [first_pass segs ?x ?lh _ _ ?s] =>
    pose proof (first_pass_texts segs x lh font_size style s) as H;
    set (st := first_pass segs x lh font_size style s) in * end.
  cbn zeta in H. cbn [wd line_segments] in H. simpl texts in H.
  destruct (line_segments st) as [|seg line] eqn:Hline; simpl truthy;
    cbv iota; intros [= <-]; exists segs; (split; [done|]).
  - cbn [with_pdf pdf FPDF.set_y FPDF.update FPDF.calls].
    rewrite app_nil_r in H. exact H.
  - cbn [with_pdf pdf FPDF.set_y FPDF.update FPDF.calls].
    rewrite write_line_texts. exact H.
Qed.

(** X5. Every paragraph is laid out (provided no key of the emoji table is
    empty), and whatever the glyph cache answers and whether or not the
    glyph images can be drawn, no text is lost: the strings printed for the
    paragraph are the contents of its text segments, each once and in
    order. *)
Theorem layout_prints_every_text_segment text font_size style
    (w0 : world) :
  Forall (fun em => em <> []) EMOJI_DATA ->
  exists w1 segs,
    _write_text_with_emojis text font_size style w0 = Some w1 /\
    _split_text_and_emojis text = Some segs /\
    omap written_text (FPDF.calls (pdf w1))
    = omap written_text (FPDF.calls (pdf w0)) ++ texts segs.
Proof.
  intros Htab.
  destruct (write_text_returns text font_size style w0 Htab) as [w1 H].
  destruct (write_text_texts _ _ _ _ _ H) as (segs & ? & ?).
  by exists w1, segs.
Qed.

End LayoutTheorems.

Lemma layout_keeps_every_segment_witness :
  let w0 := Demo.fresh_world Demo.empty_cache in
  Forall (fun em => em <> []) (@EMOJI_DATA Demo.emoji) /\
  exists w1 segs ls,
    @PDFGenerator._write_text_with_emojis Demo.emoji Demo.online
      Demo.fixed_pitch Demo.paragraph 12 [] w0 = Some w1 /\
    @PDFGenerator._split_text_and_emojis Demo.emoji Demo.paragraph
    = Some segs /\
    PDFGenerator.lines_written w1 = PDFGenerator.lines_written w0 ++ ls /\
    concat (map snd ls) = segs.
Proof.
  intros w0.
  assert (Forall (fun em : pystr => em <> []) (@EMOJI_DATA Demo.emoji)) as H
    by (repeat constructor; discriminate).
  split; [exact H|].
  exact (@layout_keeps_every_segment Demo.emoji Demo.online Demo.fixed_pitch
           Demo.paragraph 12 [] w0 H).
Defined.

Lemma layout_lines_are_evenly_spaced_witness :
  let w0 := Demo.fresh_world Demo.empty_cache in
  Forall (fun em => em <> []) (@EMOJI_DATA Demo.emoji) /\
  exists w1 ls,
    @PDFGenerator._write_text_with_emojis Demo.emoji Demo.online
      Demo.fixed_pitch Demo.paragraph 12 [] w0 = Some w1 /\
    PDFGenerator.lines_written w1 = PDFGenerator.lines_written w0 ++ ls /\
    map fst ls
    = Rows.rows (FPDF.y (PDFGenerator.pdf w0)) (12 * 1.5)%Q (length ls) /\
    FPDF.y (PDFGenerator.pdf w1)
    = Rows.below (FPDF.y (PDFGenerator.pdf w0)) (12 * 1.5)%Q (length ls).
Proof.
  intros w0.
  assert (Forall (fun em : pystr => em <> []) (@EMOJI_DATA Demo.emoji)) as H
    by (repeat constructor; discriminate).
  split; [exact H|].
  exact (@layout_lines_are_evenly_spaced Demo.emoji Demo.online
           Demo.fixed_pitch Demo.paragraph 12 [] w0 H).
Defined.

Lemma layout_only_first_line_can_be_empty_witness :
  let w0 := Demo.fresh_world Demo.empty_cache in
  let w1 := default w0 Demo.laid_out in
  Demo.laid_out = Some w1 /\
  exists ls,
    PDFGenerator.lines_written w1 = PDFGenerator.lines_written w0 ++ ls /\
    Forall (fun l => snd l <> []) (tail ls).
Proof.
  intros w0 w1.
  assert (Demo.laid_out = Some w1) as H by (vm_compute; reflexivity).
  split; [exact H|].
  exact (@layout_only_first_line_can_be_empty Demo.emoji Demo.online
           Demo.fixed_pitch Demo.paragraph 12 [] w0 w1 H).
Defined.

Lemma layout_lines_fit_witness :
  let w0 := Demo.fresh_world Demo.empty_cache in
  let w1 := default w0 Demo.laid_out in
  Demo.laid_out = Some w1 /\
  exists ls,
    PDFGenerator.lines_written w1 = PDFGenerator.lines_written w0 ++ ls /\
    Forall (fun l => 2 <= length (snd l) ->
              (@Rows.line_end Demo.fixed_pitch 12 []
                 (FPDF.k (PDFGenerator.pdf w0))
                 (FPDF.l_margin (PDFGenerator.pdf w0)) (snd l)
               <= FPDF.w (PDFGenerator.pdf w0)
                  - FPDF.r_margin (PDFGenerator.pdf w0))%Q) ls.
Proof.
  intros w0 w1.
  assert (Demo.laid_out = Some w1) as H by (vm_compute; reflexivity).
  split; [exact H|].
  exact (@layout_lines_fit Demo.emoji Demo.online Demo.fixed_pitch
           Demo.paragraph 12 [] w0 w1 H).
Defined.

Lemma layout_prints_every_text_segment_witness :
  let w0 := Demo.fresh_world Demo.empty_cache in
  Forall (fun em => em <> []) (@EMOJI_DATA Demo.emoji) /\
  exists w1 segs,
    @PDFGenerator._write_text_with_emojis Demo.emoji Demo.online
      Demo.fixed_pitch Demo.paragraph 12 [] w0 = Some w1 /\
    @PDFGenerator._split_text_and_emojis Demo.emoji Demo.paragraph
    = Some segs /\
    omap Rows.written_text (FPDF.calls (PDFGenerator.pdf w1))
    = omap Rows.written_text (FPDF.calls (PDFGenerator.pdf w0))
      ++ Rows.texts segs.
Proof.
  intros w0.
  assert (Forall (fun em : pystr => em <> []) (@EMOJI_DATA Demo.emoji)) as H
    by (repeat constructor; discriminate).
  split; [exact H|].
  exact (@layout_prints_every_text_segment Demo.emoji Demo.online
           Demo.fixed_pitch Demo.paragraph 12 [] w0 H).
Defined.

(** * Further properties of the glyph cache *)

Section GlyphCacheMore.
Import CacheManager.
Context {provider : Provider}.

(** The shapes a call can take: a hit; a key that cannot be encoded; and,
    for a key with a file name, a file found on disk, a fetch that fails, a
    fetch that succeeds. *)
Lemma get_emoji_image_cases emoji_char (self : t) :
  let url := emoji_url emoji_char in
  (exists f, emoji_mapping self !! emoji_char = Some f /\
             get_emoji_image emoji_char self
             = (Some (path_join (cache_dir self) f), self)) \/
  (emoji_mapping self !! emoji_char = None /\
   _get_emoji_filename emoji_char = None /\
   get_emoji_image emoji_char self = (None, self)) \/
  exists filename,
    emoji_mapping self !! emoji_char = None /\
    _get_emoji_filename emoji_char = Some filename /\
    (((filename ∈ files self) /\
      get_emoji_image emoji_char self
      = (Some (path_join (cache_dir self) filename),
         record_mapping emoji_char filename self)) \/
     ((filename ∉ files self) /\
      exists self',
        get_emoji_image emoji_char self = (None, self') /\
        emoji_mapping self' = emoji_mapping self /\
        emoji_mapping_file self' = emoji_mapping_file self /\
        files self' = files self /\
        cache_dir self' = cache_dir self /\
        requests self' = requests self ++ [url]) \/
     ((filename ∉ files self) /\
      exists self',
        get_emoji_image emoji_char self
        = (Some (path_join (cache_dir self) filename), self') /\
        emoji_mapping self' = <[emoji_char := filename]> (emoji_mapping self) /\
        emoji_mapping_file self' = Some (emoji_mapping self') /\
        files self' = {[filename]} ∪ files self /\
        cache_dir self' = cache_dir self /\
        requests self' = requests self ++ [url])).
Proof.
  cbn zeta. unfold get_emoji_image.
  destruct (emoji_mapping self !! emoji_char) as [f|] eqn:Hm.
  - left. exists f. split; [done|]. unfold cached_path. by rewrite Hm.
  - right. destruct (_get_emoji_filename emoji_char) as [filename|];
      [|by left].
    right. exists filename. split; [done|]. split; [done|].
    case_bool_decide as Hfile.
    + left. split; [done|]. by rewrite cached_path_record.
    + right. unfold _download_emoji_image.
      destruct (http_get _ _) as [[|b data]|].
      * left. split; [done|]. eexists. by repeat split.
      * destruct (image_open _).
        -- right. split; [done|].
           rewrite cached_path_record. eexists.
           split; [reflexivity|]. simpl. rewrite insert_insert_eq.
           by repeat split.
        -- left. split; [done|]. eexists. by repeat split.
      * left. split; [done|]. eexists. by repeat split.
Qed.

(** X6. A call never deletes: every entry of the mapping keeps its file
    name, every file of the cache directory stays, and the directory is the
    same. *)
Theorem get_emoji_image_never_deletes emoji_char (self : t) :
  let self' := snd (get_emoji_image emoji_char self) in
  (forall key filename,
     emoji_mapping self !! key = Some filename ->
     emoji_mapping self' !! key = Some filename) /\
  files self ⊆ files self' /\
  cache_dir self' = cache_dir self.
Proof.
  cbn zeta.
  destruct (get_emoji_image_cases emoji_char self)
    as [(f & Hm & Hres) | [(Hm & _ & Hres) | (fname & Hm & _ &
        [(Hf & Hres)
        | [(Hf & self' & Hres & Hmap & _ & Hfiles & Hdir & _)
          | (Hf & self' & Hres & Hmap & _ & Hfiles & Hdir & _)]])]];
    rewrite Hres; simpl.
  - done.
  - done.
  - split; [|done]. intros key filename Hkey.
    rewrite lookup_insert_ne; [done | congruence].
  - by rewrite Hmap, Hfiles, Hdir.
  - rewrite Hmap, Hfiles, Hdir.
    split; [|split; [apply union_subseteq_r | done]].
    intros key filename Hkey. rewrite lookup_insert_ne; [done | congruence].
Qed.

(** X7. Self-healing: when the key is not in the mapping but the file of
    its name is already in the cache directory, the call fetches nothing,
    returns the path of that file, and enters the key in the mapping and in
    the mapping file. *)
Theorem file_on_disk_heals_mapping emoji_char filename (self : t) :
  emoji_mapping self !! emoji_char = None ->
  _get_emoji_filename emoji_char = Some filename ->
  filename ∈ files self ->
  exists self',
    get_emoji_image emoji_char self
    = (Some (path_join (cache_dir self) filename), self') /\
    requests self' = requests self /\
    emoji_mapping self'
    = <[emoji_char := filename]> (emoji_mapping self) /\
    emoji_mapping_file self' = Some (emoji_mapping self').
Proof.
  intros Hm Hname Hf.
  destruct (get_emoji_image_cases emoji_char self)
    as [(f & Hm' & _) | [(_ & Hname' & _) | (fname & _ & Hname' &
        [(_ & Hres) | [(Hf' & _) | (Hf' & _)]])]];
    try congruence.
  assert (fname = filename) as -> by congruence.
  rewrite Hres. eexists. by repeat split.
Qed.

(** X8. A call that returns no path has left the mapping, the mapping file
    and the files of the cache directory as they were.  It has made exactly
    one request, to the provider's address for the key, when the key can be
    encoded, and no request at all when it cannot (encoding the key for its
    file name raises before anything is fetched). *)
Theorem failed_call_leaves_cache_unchanged emoji_char (self self' : t) :
  get_emoji_image emoji_char self = (None, self') ->
  emoji_mapping self' = emoji_mapping self /\
  emoji_mapping_file self' = emoji_mapping_file self /\
  files self' = files self /\
  requests self'
  = (if encodable emoji_char
     then requests self ++ [emoji_url emoji_char]
     else requests self).
Proof.
  intros Hcall.
  destruct (get_emoji_image_cases emoji_char self)
    as [(f & _ & Hres) | [(_ & Hname & Hres) | (fname & _ & Hname &
        [(_ & Hres)
        | [(_ & self1 & Hres & Hmap & Hfile & Hfiles & _ & Hreq)
          | (_ & self1 & Hres & _)]])]];
    rewrite Hcall in Hres; try discriminate;
    unfold _get_emoji_filename in Hname;
    destruct (encodable emoji_char); try discriminate.
  - by injection Hres as ->.
  - by injection Hres as ->.
Qed.

(** X9. When a key that is not in the mapping is answered with a path, the
    key can be encoded, the path is emoji_<md5 of the key>.png in the cache
    directory, and a file of that name is in the directory afterwards. *)
Theorem new_entry_names_a_stored_file emoji_char (self self' : t) file :
  emoji_mapping self !! emoji_char = None ->
  get_emoji_image emoji_char self = (Some file, self') ->
  exists filename,
    _get_emoji_filename emoji_char = Some filename /\
    filename = py "emoji_" ++ md5_hexdigest emoji_char ++ py ".png" /\
    file = path_join (cache_dir self) filename /\
    filename ∈ files self' /\
    emoji_mapping self' !! emoji_char = Some filename.
Proof.
  intros Hm Hcall.
  destruct (get_emoji_image_cases emoji_char self)
    as [(f & Hm' & _) | [(_ & _ & Hres) | (fname & _ & Hname &
        [(Hf & Hres)
        | [(_ & self1 & Hres & _)
          | (_ & self1 & Hres & Hmap & _ & Hfiles & _)]])]];
    try congruence; rewrite Hcall in Hres; try discriminate;
    exists fname; (split; [done|]); (split;
      [unfold _get_emoji_filename in Hname;
       destruct (encodable emoji_char); congruence|]).
  - injection Hres as -> ->. simpl. by rewrite lookup_insert_eq.
  - injection Hres as -> ->. rewrite Hmap, Hfiles, lookup_insert_eq.
    split; [done|]. split; [|done].
    apply elem_of_union_l. by apply elem_of_singleton.
Qed.

Lemma init_in_sync dir mapping_on_disk files_on_disk :
  in_sync (init dir mapping_on_disk files_on_disk).
Proof. done. Qed.

(** X10. The mapping file is reconciled at every write: a cache whose mapping
    in memory is the one in its mapping file (as it is after [__init__])
    is so again after any call. *)
Theorem mapping_file_stays_in_sync emoji_char (self : t) :
  in_sync self -> in_sync (snd (get_emoji_image emoji_char self)).
Proof.
  unfold in_sync. intros Hsync.
  destruct (get_emoji_image_cases emoji_char self)
    as [(f & _ & Hres) | [(_ & _ & Hres) | (fname & _ & _ &
        [(_ & Hres)
        | [(_ & self1 & Hres & Hmap & Hfile & _)
          | (_ & self1 & Hres & _ & Hfile & _)]])]];
    rewrite Hres; simpl; try done.
  - by rewrite Hmap, Hfile.
  - by rewrite Hfile.
Qed.

(** X11. What one process cached, the next finds: if a call on a cache in
    step with its mapping file returns a path, a new cache manager opened
    on the directory as that call left it returns the same path for the
    key without any request. *)
Theorem reopened_cache_serves_without_fetch emoji_char (self self' : t) file :
  in_sync self ->
  get_emoji_image emoji_char self = (Some file, self') ->
  get_emoji_image emoji_char (reopen self') = (Some file, reopen self') /\
  requests (reopen self') = [].
Proof.
  intros Hsync Hcall. split; [|done].
  pose proof (mapping_file_stays_in_sync emoji_char self Hsync) as Hsync'.
  rewrite Hcall in Hsync'. simpl in Hsync'.
  destruct (get_emoji_image_some _ _ _ _ Hcall) as (filename & Hm & ->).
  assert (emoji_mapping (reopen self') !! emoji_char = Some filename) as Hm'.
  { unfold reopen, init. simpl. by rewrite <- Hsync'. }
  by rewrite (get_emoji_image_mapped _ _ _ Hm').
Qed.

End GlyphCacheMore.

Lemma file_on_disk_heals_mapping_witness :
  let filename := py "emoji_0.png" in
  let cache := @CacheManager.init [py "emoji_cache"] None {[filename]} in
  CacheManager.emoji_mapping cache !! Demo.grinning = None /\
  @CacheManager._get_emoji_filename Demo.offline Demo.grinning
  = Some filename /\
  filename ∈ CacheManager.files cache /\
  exists cache',
    @CacheManager.get_emoji_image Demo.offline Demo.grinning cache
    = (Some (path_join (CacheManager.cache_dir cache) filename), cache') /\
    CacheManager.requests cache' = CacheManager.requests cache /\
    CacheManager.emoji_mapping cache'
    = <[Demo.grinning := filename]> (CacheManager.emoji_mapping cache) /\
    CacheManager.emoji_mapping_file cache'
    = Some (CacheManager.emoji_mapping cache').
Proof.
  intros filename cache.
  assert (CacheManager.emoji_mapping cache !! Demo.grinning = None) as H1
    by reflexivity.
  assert (@CacheManager._get_emoji_filename Demo.offline Demo.grinning
          = Some filename) as H2 by reflexivity.
  assert (filename ∈ CacheManager.files cache) as H3.
  { change (filename ∈ ({[filename]} : gset pystr)).
    by apply elem_of_singleton. }
  split; [exact H1|]. split; [exact H2|]. split; [exact H3|].
  exact (@file_on_disk_heals_mapping Demo.offline Demo.grinning filename
           cache H1 H2 H3).
Defined.

Lemma failed_call_leaves_cache_unchanged_witness :
  let cache' :=
    snd (@CacheManager.get_emoji_image Demo.offline Demo.grinning
           Demo.empty_cache) in
  @CacheManager.get_emoji_image Demo.offline Demo.grinning Demo.empty_cache
  = (None, cache') /\
  CacheManager.emoji_mapping cache'
  = CacheManager.emoji_mapping Demo.empty_cache /\
  CacheManager.emoji_mapping_file cache'
  = CacheManager.emoji_mapping_file Demo.empty_cache /\
  CacheManager.files cache' = CacheManager.files Demo.empty_cache /\
  CacheManager.requests cache'
  = (if encodable Demo.grinning
     then CacheManager.requests Demo.empty_cache
          ++ [CacheManager.emoji_url Demo.grinning]
     else CacheManager.requests Demo.empty_cache).
Proof.
  intros cache'.
  assert (@CacheManager.get_emoji_image Demo.offline Demo.grinning
            Demo.empty_cache = (None, cache')) as H by reflexivity.
  split; [exact H|].
  exact (@failed_call_leaves_cache_unchanged Demo.offline _ _ _ H).
Defined.

Lemma new_entry_names_a_stored_file_witness :
  let cache' :=
    snd (@CacheManager.get_emoji_image Demo.online Demo.grinning
           Demo.empty_cache) in
  let file := [py "emoji_cache"; py "emoji_0.png"] in
  CacheManager.emoji_mapping Demo.empty_cache !! Demo.grinning = None /\
  @CacheManager.get_emoji_image Demo.online Demo.grinning Demo.empty_cache
  = (Some file, cache') /\
  exists filename,
    @CacheManager._get_emoji_filename Demo.online Demo.grinning
    = Some filename /\
    filename
    = py "emoji_" ++ @CacheManager.md5_hexdigest Demo.online Demo.grinning
      ++ py ".png" /\
    file = path_join (CacheManager.cache_dir Demo.empty_cache) filename /\
    filename ∈ CacheManager.files cache' /\
    CacheManager.emoji_mapping cache' !! Demo.grinning = Some filename.
Proof.
  intros cache' file.
  assert (CacheManager.emoji_mapping Demo.empty_cache !! Demo.grinning = None)
    as H1 by reflexivity.
  assert (@CacheManager.get_emoji_image Demo.online Demo.grinning
            Demo.empty_cache = (Some file, cache')) as H2 by reflexivity.
  split; [exact H1|]. split; [exact H2|].
  exact (@new_entry_names_a_stored_file Demo.online _ _ _ _ H1 H2).
Defined.

Lemma mapping_file_stays_in_sync_witness :
  CacheManager.in_sync Demo.empty_cache /\
  CacheManager.in_sync
    (snd (@CacheManager.get_emoji_image Demo.online Demo.grinning
            Demo.empty_cache)).
Proof.
  assert (CacheManager.in_sync Demo.empty_cache) as H by reflexivity.
  split; [exact H|].
  exact (@mapping_file_stays_in_sync Demo.online Demo.grinning _ H).
Defined.

Lemma reopened_cache_serves_without_fetch_witness :
  let cache' :=
    snd (@CacheManager.get_emoji_image Demo.online Demo.grinning
           Demo.empty_cache) in
  let file := [py "emoji_cache"; py "emoji_0.png"] in
  CacheManager.in_sync Demo.empty_cache /\
  @CacheManager.get_emoji_image Demo.online Demo.grinning Demo.empty_cache
  = (Some file, cache') /\
  @CacheManager.get_emoji_image Demo.online Demo.grinning
    (CacheManager.reopen cache')
  = (Some file, CacheManager.reopen cache') /\
  CacheManager.requests (CacheManager.reopen cache') = [].
Proof.
  intros cache' file.
  assert (CacheManager.in_sync Demo.empty_cache) as H1 by reflexivity.
  assert (@CacheManager.get_emoji_image Demo.online Demo.grinning
            Demo.empty_cache = (Some file, cache')) as H2 by reflexivity.
  split; [exact H1|]. split; [exact H2|].
  exact (@reopened_cache_serves_without_fetch Demo.online _ _ _ _ H1 H2).
Defined.

(** * Further properties of the segmentation *)

Section SegmentationMore.
Import PDFGenerator.
Context {emoji : EmojiLib}.

Lemma split_loop_plain fuel text i cur :
  (forall j, j < length text ->
     existsb (startswith (drop j text)) EMOJI_DATA = false) ->
  i <= length text ->
  length text - i < fuel ->
  split_loop fuel text i [] cur = Some (flush [] (cur ++ drop i text)).
Proof.
  intros Hplain. revert i cur.
  induction fuel as [|fuel IH]; intros i cur Hi Hfuel; [lia|].
  simpl. destruct (Nat.ltb_spec i (length text)) as [Hlt|Hge].
  - rewrite (Hplain i Hlt).
    destruct (lookup_lt_is_Some_2 text i Hlt) as [c Hc]. rewrite Hc.
    rewrite IH by lia. rewrite <- app_assoc. simpl.
    rewrite Nat.add_1_r. by rewrite (drop_S _ _ _ Hc).
  - rewrite drop_ge by lia. by rewrite app_nil_r.
Qed.

(** X12. A text in which no key of the emoji table starts at any position
    is one text segment holding the whole text (and no segment at all when
    the text is empty). *)
Theorem text_without_emoji_is_one_segment (text : pystr) :
  (forall j, j < length text ->
     existsb (startswith (drop j text)) EMOJI_DATA = false) ->
  _split_text_and_emojis text
  = Some (if truthy text then [(false, text)] else []).
Proof.
  intros Hplain. unfold _split_text_and_emojis.
  rewrite split_loop_plain by (done || lia). simpl. by destruct text.
Qed.

Lemma flush_Forall (P : segment -> Prop) segs cur :
  Forall P segs -> (forall s, P (false, s)) -> Forall P (flush segs cur).
Proof.
  intros Hsegs Htext. unfold flush. destruct (truthy cur); [|done].
  apply Forall_app. split; [done|]. by repeat constructor.
Qed.

Lemma split_loop_emoji_keys fuel text i segs cur out :
  Forall (fun s => fst s = true -> snd s ∈ EMOJI_DATA) segs ->
  split_loop fuel text i segs cur = Some out ->
  Forall (fun s => fst s = true -> snd s ∈ EMOJI_DATA) out.
Proof.
  revert i segs cur.
  induction fuel as [|fuel IH]; intros i segs cur Hsegs; [discriminate|].
  simpl. destruct (i <? length text).
  - destruct (existsb _ EMOJI_DATA) eqn:Hany.
    + destruct (find _ EMOJI_DATA) as [em|] eqn:Hfind.
      * apply IH. apply Forall_app. split.
        -- by apply flush_Forall.
        -- repeat constructor. intros _. simpl.
           apply find_some in Hfind as [Hin _]. by apply list_elem_of_In.
      * apply IH. by apply flush_Forall.
    + destruct (text !! i); [|discriminate]. by apply IH.
  - intros [= <-]. by apply flush_Forall.
Qed.

(** X13. Every glyph segment the segmentation returns is a key of the emoji
    table. *)
Theorem emoji_segments_are_table_keys (text : pystr) segs :
  _split_text_and_emojis text = Some segs ->
  Forall (fun s => fst s = true -> snd s ∈ EMOJI_DATA) segs.
Proof. apply split_loop_emoji_keys. constructor. Qed.

End SegmentationMore.

Lemma text_without_emoji_is_one_segment_witness :
  (forall j, j < length (py "Hi there") ->
     existsb (startswith (drop j (py "Hi there"))) (@EMOJI_DATA Demo.emoji)
     = false) /\
  @PDFGenerator._split_text_and_emojis Demo.emoji (py "Hi there")
  = Some [(false, py "Hi there")].
Proof.
  assert (forall j, j < length (py "Hi there") ->
     existsb (startswith (drop j (py "Hi there"))) (@EMOJI_DATA Demo.emoji)
     = false) as H.
  { intros j Hj. change (length (py "Hi there")) with 8 in Hj.
    do 8 (destruct j as [|j]; [reflexivity|]). lia. }
  split; [exact H|].
  exact (@text_without_emoji_is_one_segment Demo.emoji (py "Hi there") H).
Defined.

Lemma emoji_segments_are_table_keys_witness :
  let text := py "Text " ++ Demo.grinning ++ py " more" in
  let segs := [(false, py "Text "); (true, Demo.grinning);
               (false, py " more")] in
  @PDFGenerator._split_text_and_emojis Demo.emoji text = Some segs /\
  Forall (fun s => fst s = true -> snd s ∈ @EMOJI_DATA Demo.emoji) segs.
Proof.
  intros text segs.
  assert (@PDFGenerator._split_text_and_emojis Demo.emoji text = Some segs)
    as H by reflexivity.
  split; [exact H|].
  exact (@emoji_segments_are_table_keys Demo.emoji text segs H).
Defined.

(** * Further properties of whitespace handling *)

Section WhitespaceMore.
#[local] Opaque isspace.

Lemma split_words s : Forall is_word (split s).
Proof.
  induction s as [|c s IH]; simpl; [constructor|].
  destruct (isspace c) eqn:Hc; [exact IH|].
  assert (is_word [c]) as Hone by (split; [done | by repeat constructor]).
  destruct s as [|c' s']; [by repeat constructor|].
  destruct (isspace c'); [by constructor|].
  destruct (split (c' :: s')) as [|word words]; [by repeat constructor|].
  inversion IH as [|? ? [Hne Hword] Hwords]; subst.
  constructor; [|exact Hwords]. split; [done | by constructor].
Qed.

Lemma split_word_then_space w t :
  is_word w ->
  match t with [] => True | c :: _ => isspace c = true end ->
  split (w ++ t) = w :: split t.
Proof.
  intros [Hne Hw] Ht. induction w as [|c w IH]; [done|].
  inversion Hw as [|? ? Hc Hw']; subst.
  destruct w as [|c2 w'].
  - simpl. rewrite Hc. destruct t as [|c' t']; [done|]. by rewrite Ht.
  - inversion Hw' as [|? ? Hc2 _]; subst.
    change (split ((c :: c2 :: w') ++ t))
      with (if isspace c then split ((c2 :: w') ++ t)
            else if isspace c2 then [c] :: split ((c2 :: w') ++ t)
            else match split ((c2 :: w') ++ t) with
                 | word :: words => (c :: word) :: words
                 | [] => [[c]]
                 end).
    rewrite Hc, Hc2, IH; done.
Qed.

Lemma isspace_space : isspace space = true.
Proof. by vm_compute. Qed.

(** Splitting what was joined with single spaces gives the words back. *)
Lemma split_join ws : Forall is_word ws -> split (join [space] ws) = ws.
Proof.
  induction 1 as [|w ws Hw Hws IH]; [done|].
  destruct ws as [|w' ws'].
  - simpl. rewrite <- (app_nil_r w) at 1.
    by rewrite split_word_then_space.
  - change (join [space] (w :: w' :: ws'))
      with (w ++ space :: join [space] (w' :: ws')).
    rewrite split_word_then_space; [|done | exact isspace_space].
    f_equal. simpl split at 1. rewrite isspace_space. exact IH.
Qed.

(** Normalizing twice is normalizing once. *)
Lemma join_split_idem s :
  join [space] (split (join [space] (split s))) = join [space] (split s).
Proof. by rewrite split_join by apply split_words. Qed.

Lemma split_lstrip s : split (lstrip_by isspace s) = split s.
Proof.
  induction s as [|c s IH]; simpl; [done|].
  destruct (isspace c) eqn:Hc; [exact IH|]. simpl. by rewrite Hc.
Qed.

Lemma split_rstrip s : split (rstrip_by isspace s) = split s.
Proof.
  induction s as [|c s IH]; [done|].
  change (rstrip_by isspace (c :: s))
    with (match rstrip_by isspace s with
          | [] => if isspace c then [] else [c]
          | kept => c :: kept
          end).
  destruct (rstrip_by isspace s) as [|c0 kept] eqn:Hs.
  - simpl in IH. simpl. destruct (isspace c) eqn:Hc; [done|].
    simpl. rewrite Hc. destruct s as [|c' s']; [done|].
    destruct (isspace c'); [by rewrite <- IH|]. by rewrite <- IH.
  - destruct (rstrip_by_head _ _ _ _ Hs) as [s' ->].
    change (split (c :: c0 :: kept))
      with (if isspace c then split (c0 :: kept)
            else if isspace c0 then [c] :: split (c0 :: kept)
            else match split (c0 :: kept) with
                 | word :: words => (c :: word) :: words
                 | [] => [[c]]
                 end).
    change (split (c :: c0 :: s'))
      with (if isspace c then split (c0 :: s')
            else if isspace c0 then [c] :: split (c0 :: s')
            else match split (c0 :: s') with
                 | word :: words => (c :: word) :: words
                 | [] => [[c]]
                 end).
    by rewrite IH.
Qed.

Lemma split_strip s : split (strip s) = split s.
Proof. unfold strip, strip_by. by rewrite split_rstrip, split_lstrip. Qed.

(** [' '.join(s.split())] is [s] stripped, with its whitespace runs
    replaced by single spaces. *)
Lemma join_split_normalizes s :
  join [space] (split s) = Spec.normalized_whitespace s.
Proof.
  unfold Spec.normalized_whitespace.
  by rewrite <- join_split_strip, split_strip.
Qed.

Lemma lstrip_by_id f s :
  match s with [] => True | c :: _ => f c = false end ->
  lstrip_by f s = s.
Proof. destruct s as [|c s]; [done|]. simpl. by intros ->. Qed.

Lemma rstrip_by_id f s :
  (forall c, last s = Some c -> f c = false) -> rstrip_by f s = s.
Proof.
  induction s as [|c s IH]; [done|]. intros Hlast. simpl.
  destruct s as [|c' s'].
  - simpl. by rewrite (Hlast c).
  - rewrite IH; [done|]. intros c0 H0. apply Hlast. by rewrite last_cons, H0.
Qed.

Lemma join_nonempty w ws : w <> [] -> join [space] (w :: ws) <> [].
Proof. destruct w; [done|]. by destruct ws. Qed.

Lemma join_words_ends ws :
  Forall is_word ws ->
  match join [space] ws with
  | [] => True
  | c :: _ => isspace c = false
  end /\
  (forall c, last (join [space] ws) = Some c -> isspace c = false).
Proof.
  induction 1 as [|w ws [Hne Hw] Hws [_ IHlast]]; [done|].
  split.
  - destruct w as [|c w']; [done|].
    inversion Hw; subst. by destruct ws.
  - destruct ws as [|w' ws'].
    + intros c Hc. simpl in Hc. rewrite Forall_forall in Hw. apply Hw.
      apply last_Some in Hc as [w0 ->].
      apply elem_of_app. right. by apply list_elem_of_singleton.
    + change (join [space] (w :: w' :: ws'))
        with (w ++ space :: join [space] (w' :: ws')).
      intros c. rewrite last_app, last_cons.
      inversion Hws as [|? ? [Hne' _] _]; subst.
      pose proof (join_nonempty w' ws' Hne') as Hj.
      destruct (last (join [space] (w' :: ws'))) as [c2|] eqn:Hl2.
      * intros [= <-]. by apply IHlast.
      * by apply last_None in Hl2.
Qed.

(** Normalized text has nothing left to strip. *)
Lemma strip_join_split s :
  strip (join [space] (split s)) = join [space] (split s).
Proof.
  destruct (join_words_ends (split s) (split_words s)) as [Hhead Hlast].
  unfold strip, strip_by.
  rewrite (lstrip_by_id _ _ Hhead). by apply rstrip_by_id.
Qed.

End WhitespaceMore.

(** * Further properties of the content extractor *)

Section ExtractionMore.
Import PDFGenerator.
Context {htmllib : HtmlLib}.

(** Induction over a parsed document: an element once its children. *)
Lemma node_ind (P : node -> Prop) :
  (forall nm children, Forall P children -> P (Tag nm children)) ->
  (forall s, P (NavigableString s)) ->
  forall element, P element.
Proof.
  intros Htag Hstring. fix IH 1. intros [nm children|s]; [|apply Hstring].
  apply Htag. induction children as [|child children IHc]; constructor;
    [apply IH | exact IHc].
Qed.

Lemma named_mentions names element :
  named names element = false ->
  mentions names (decompose_in names element) = false.
Proof.
  induction element as [nm children IH|s] using node_ind; [|done].
  simpl. intros ->. simpl.
  induction IH as [|child children Hchild _ IHc]; [done|]. simpl.
  destruct (named names child) eqn:Hn; [exact IHc|].
  simpl. by rewrite (Hchild eq_refl).
Qed.

(** X14. After [script] and [style] are removed no element with such a name
    is left in the document, at any depth. *)
Theorem decompose_removes_named_elements names (soup : list node) :
  Forall (fun element => mentions names element = false)
         (decompose names soup).
Proof.
  unfold decompose. induction soup as [|child soup IH]; simpl; [constructor|].
  destruct (named names child) eqn:Hn; [exact IH|].
  simpl. constructor; [by apply named_mentions | exact IH].
Qed.

Lemma clean_paragraphs_normal paragraphs :
  Forall (fun p => p <> [] /\ join [space] (split p) = p)
         (clean_paragraphs paragraphs).
Proof.
  unfold clean_paragraphs. apply Forall_forall. intros p Hp.
  apply list_elem_of_filter in Hp as [Htruthy Hp].
  apply list_elem_of_fmap in Hp as (para & -> & _).
  split; [by destruct (join [space] (split para)) | apply join_split_idem].
Qed.

(** X15. The extractor never returns an empty list, and every paragraph it
    returns is non-empty and in normal form: no leading or trailing
    whitespace and single spaces between words, so that normalizing it
    again changes nothing. *)
Theorem process_content_paragraphs_are_normalized (html_content : pystr) :
  _process_content html_content <> [] /\
  Forall (fun p => p <> [] /\ join [space] (split p) = p)
         (_process_content html_content).
Proof.
  assert (py "No content available" <> [] /\
          join [space] (split (py "No content available"))
          = py "No content available") as Hplaceholder
    by (split; [discriminate | by vm_compute]).
  unfold _process_content. destruct (truthy html_content); simpl negb;
    cbv iota; [|by repeat constructor].
  destruct (fold_left _ _ _) as [paragraphs current_text].
  destruct (flush_text paragraphs current_text) as [paragraphs' _].
  pose proof (clean_paragraphs_normal paragraphs') as Hnormal.
  destruct (clean_paragraphs paragraphs') as [|p ps]; simpl truthy;
    cbv iota; [by repeat constructor | done].
Qed.

End ExtractionMore.

(** * Properties of the text formatter *)

Section FormatterFacts.
Import TextFormatter.
Context {htmllib : HtmlLib} {unicode : UnicodeDb}.

(** X16. [clean_for_path] always returns a usable path component: it is not
    empty, has at most 50 characters, and is either the word "untitled" or
    made only of alphanumeric characters and underscores with no underscore
    at its end. *)
Theorem clean_for_path_is_a_safe_component (text : pystr) :
  let cleaned := clean_for_path text in
  cleaned <> [] /\ length cleaned <= 50 /\
  (cleaned = py "untitled" \/
   Forall (fun c => isalnum c = true \/ c = underscore) cleaned /\
   last cleaned <> Some underscore).
Proof.
  cbn zeta. unfold clean_for_path.
  assert (py "untitled" <> [] /\ length (py "untitled") <= 50) as [Hu1 Hu2]
    by (split; [discriminate | vm_compute; lia]).
  destruct (truthy text); simpl negb; cbv iota; [|by auto].
  match goal with |- context [rstrip_by ?f (take 50 ?s)] =>
    set (kept := s);
    pose proof (rstrip_by_length f (take 50 kept)) as Hlen;
    pose proof (rstrip_by_last f (take 50 kept)) as Hlast;
    assert (Forall (fun c => isalnum c = true \/ c = underscore)
              (rstrip_by f (take 50 kept))) as Hall
  end.
  { apply rstrip_by_Forall, Forall_take. subst kept.
    apply Forall_forall. intros c Hc.
    apply list_elem_of_filter in Hc as [Hc _].
    apply orb_true_iff in Hc as [Hc|Hc]; [by left|].
    right. by apply N.eqb_eq in Hc. }
  rewrite length_take in Hlen.
  destruct (rstrip_by _ (take 50 kept)) as [|c cleaned] eqn:Hr; simpl truthy;
    cbv iota; [by auto|].
  split; [done|]. split; [lia|]. right. split; [exact Hall|].
  intros Hl. apply Hlast in Hl. by rewrite N.eqb_refl in Hl.
Qed.

(** X17. [clean_for_display] returns the text, once any markup is taken out,
    stripped and with every whitespace run replaced by one space. *)
Theorem clean_for_display_normalizes (text : pystr) :
  clean_for_display text = Spec.normalized_whitespace (strip_markup text).
Proof.
  unfold clean_for_display. destruct text as [|c text]; [done|].
  simpl truthy. simpl negb. cbv iota.
  by rewrite strip_join_split, join_split_normalizes.
Qed.

End FormatterFacts.

(** * Post identifiers in paths *)

Section Identifiers.

Lemma digits_of_uint d :
  Forall sign_or_digit (py (DecimalString.NilEmpty.string_of_uint d)).
Proof.
  unfold py.
  induction d;
    cbn [DecimalString.NilEmpty.string_of_uint String.list_ascii_of_string
         map];
    constructor; try exact IHd.
  all: unfold sign_or_digit; right; vm_compute; split; discriminate.
Qed.

Lemma py_cons a s : py (String a s) = Ascii.N_of_ascii a :: py s.
Proof. reflexivity. Qed.

Lemma str_of_int_characters n : Forall sign_or_digit (str_of_int n).
Proof.
  unfold str_of_int, DecimalString.NilZero.string_of_int,
    DecimalString.NilZero.string_of_uint.
  destruct (Z.to_int n) as [d|d].
  - destruct d; try apply digits_of_uint.
    constructor; [|constructor]. unfold sign_or_digit. right. vm_compute. split; discriminate.
  - rewrite py_cons. constructor; [unfold sign_or_digit; by left|].
    destruct d; try apply digits_of_uint.
    constructor; [|constructor]. unfold sign_or_digit. right. vm_compute. split; discriminate.
Qed.

Lemma py_inj s1 s2 : py s1 = py s2 -> s1 = s2.
Proof.
  unfold py. intros H.
  assert (String.list_ascii_of_string s1 = String.list_ascii_of_string s2)
    as Hl.
  { revert H. generalize (String.list_ascii_of_string s1)
      (String.list_ascii_of_string s2).
    induction l as [|a l IH]; intros [|b l']; simpl; try done.
    intros [= Hab Hl]. f_equal; [|by apply IH].
    rewrite <- (Ascii.ascii_N_embedding a), <- (Ascii.ascii_N_embedding b).
    by rewrite Hab. }
  rewrite <- (String.string_of_list_ascii_of_string s1),
    <- (String.string_of_list_ascii_of_string s2). by rewrite Hl.
Qed.

Lemma to_int_not_nil n :
  Z.to_int n <> Decimal.Pos Decimal.Nil /\
  Z.to_int n <> Decimal.Neg Decimal.Nil.
Proof.
  split; intros H; pose proof (DecimalZ.of_to n) as Hn; rewrite H in Hn;
    simpl in Hn; subst n; discriminate H.
Qed.

Lemma str_of_int_inj n m : str_of_int n = str_of_int m -> n = m.
Proof.
  unfold str_of_int. intros H. apply py_inj in H.
  destruct (to_int_not_nil n) as [Hn1 Hn2].
  destruct (to_int_not_nil m) as [Hm1 Hm2].
  pose proof (DecimalString.NilZero.isi _ Hn1 Hn2) as Hn.
  pose proof (DecimalString.NilZero.isi _ Hm1 Hm2) as Hm.
  rewrite H, Hm in Hn. injection Hn as Hn.
  by apply DecimalZ.to_int_inj.
Qed.

Lemma id_text_characters post c :
  c ∈ PDFGenerator.id_text post -> c <> underscore.
Proof.
  unfold PDFGenerator.id_text. destruct (post_id post) as [n|].
  - intros Hc. pose proof (str_of_int_characters n) as Hall.
    rewrite Forall_forall in Hall. specialize (Hall c Hc).
    unfold sign_or_digit, underscore in *. lia.
  - intros Hc ->. vm_compute in Hc.
    repeat (apply elem_of_cons in Hc as [Hc|Hc]; [discriminate|]).
    by apply elem_of_nil in Hc.
Qed.

Lemma id_text_inj p1 p2 :
  PDFGenerator.id_text p1 = PDFGenerator.id_text p2 ->
  post_id p1 = post_id p2.
Proof.
  unfold PDFGenerator.id_text.
  assert (forall n, str_of_int n <> py "unknown") as Hne.
  { intros n H. pose proof (str_of_int_characters n) as Hall.
    rewrite H in Hall. inversion Hall as [|? ? Hu _]; subst.
    unfold sign_or_digit in Hu. lia. }
  destruct (post_id p1) as [n|], (post_id p2) as [m|]; intros H.
  - f_equal. by apply str_of_int_inj.
  - by apply Hne in H.
  - symmetry in H. by apply Hne in H.
  - done.
Qed.

(** Two strings that agree after a separator that neither prefix contains
    have the same prefix. *)
Lemma prefix_before_separator (sep : N) (a b s t : pystr) :
  sep ∉ a -> sep ∉ b -> a ++ sep :: s = b ++ sep :: t -> a = b.
Proof.
  revert b. induction a as [|x a IH]; intros [|y b] Ha Hb; simpl.
  - done.
  - intros [= -> _]. exfalso. apply Hb. by left.
  - intros [= -> _]. exfalso. apply Ha. by left.
  - intros [= -> H]. f_equal. apply (IH b); [| |done].
    + intros Hin. apply Ha. by right.
    + intros Hin. apply Hb. by right.
Qed.

End Identifiers.

Section PostPaths.
Import BatchProcessor.
Context {htmllib : HtmlLib} {datelib : DateLib} {unicode : UnicodeDb}.

Lemma singleton_inj {A} (a b : A) : [a] = [b] -> a = b.
Proof. by intros [= ->]. Qed.

Lemma id_prefix_inj p1 p2 (s t : pystr) :
  PDFGenerator.id_text p1 ++ py "_" ++ s
  = PDFGenerator.id_text p2 ++ py "_" ++ t ->
  post_id p1 = post_id p2.
Proof.
  intros H. apply id_text_inj.
  apply (prefix_before_separator underscore _ _ s t); [| |exact H].
  - intros Hin. by apply (id_text_characters p1 underscore).
  - intros Hin. by apply (id_text_characters p2 underscore).
Qed.

(** X18. Documents of different posts never collide: two posts with
    different ids get different directories, hence different paths for
    their documents, and different paths for their error documents. *)
Theorem posts_with_different_ids_never_collide (self : t) (p1 p2 : Post) :
  post_id p1 <> post_id p2 ->
  get_post_directory self p1 <> get_post_directory self p2 /\
  pdf_path self p1 <> pdf_path self p2 /\
  create_error_pdf self p1 <> create_error_pdf self p2.
Proof.
  intros Hids.
  assert (get_post_directory self p1 <> get_post_directory self p2) as Hdir.
  { unfold get_post_directory, path_join. intros H.
    apply app_inv_head, singleton_inj in H.
    by apply id_prefix_inj in H. }
  split; [exact Hdir|]. split.
  - unfold pdf_path, path_join. intros H. apply Hdir.
    by apply app_inj_tail in H as [H _].
  - unfold create_error_pdf, path_join. intros H.
    apply app_inv_head, singleton_inj, app_inv_head in H.
    by apply id_prefix_inj in H.
Qed.

End PostPaths.

Lemma posts_with_different_ids_never_collide_witness :
  let self := BatchProcessor.init [py "test_output"] in
  post_id Demo.hello_world <> post_id Demo.its_here /\
  @BatchProcessor.get_post_directory Demo.html Demo.unicode self
    Demo.hello_world
  <> @BatchProcessor.get_post_directory Demo.html Demo.unicode self
       Demo.its_here /\
  @BatchProcessor.pdf_path Demo.html Demo.dates Demo.unicode self
    Demo.hello_world
  <> @BatchProcessor.pdf_path Demo.html Demo.dates Demo.unicode self
       Demo.its_here /\
  @BatchProcessor.create_error_pdf Demo.html Demo.unicode self
    Demo.hello_world
  <> @BatchProcessor.create_error_pdf Demo.html Demo.unicode self
       Demo.its_here.
Proof.
  intros self.
  assert (post_id Demo.hello_world <> post_id Demo.its_here) as H
    by discriminate.
  split; [exact H|].
  exact (@posts_with_different_ids_never_collide Demo.html Demo.dates
           Demo.unicode self _ _ H).
Defined.

Section FileNames.
Import PDFGenerator.
Context {htmllib : HtmlLib} {datelib : DateLib} {unicode : UnicodeDb}.

Lemma zfill_characters (P : N -> Prop) width s :
  P 48%N -> Forall P s -> Forall P (zfill width s).
Proof.
  intros H0 Hs. unfold zfill. apply Forall_app. split; [|done].
  by apply Forall_replicate.
Qed.

Lemma str_of_int_no_slash n : Forall (fun c => c <> 47%N) (str_of_int n).
Proof.
  eapply Forall_impl; [apply str_of_int_characters|].
  unfold sign_or_digit. intros c Hc. lia.
Qed.

Lemma literal_no_slash (s : pystr) :
  forallb (fun c => negb (N.eqb c 47)) s = true ->
  Forall (fun c => c <> 47%N) s.
Proof.
  intros H. apply Forall_forall. intros c Hc.
  rewrite forallb_forall in H. apply list_elem_of_In in Hc.
  specialize (H c Hc). apply negb_true_iff in H. by apply N.eqb_neq in H.
Qed.

(** X19. The file name of a document is a single path component ending in
    ".pdf": provided "/" is not alphanumeric, no "/" occurs in it, whatever
    the title, the date and the id of the post. *)
Theorem get_filename_is_one_component (post : Post) :
  (forall c, isalnum c = true -> c <> 47%N) ->
  Forall (fun c => c <> 47%N) (_get_filename post) /\
  py ".pdf" `suffix_of` _get_filename post.
Proof.
  intros Halnum.
  assert (Forall (fun c => c <> 47%N) (py "_")) as Hsep
    by (apply literal_no_slash; reflexivity).
  assert (Forall (fun c => c <> 47%N) (py ".pdf")) as Hext
    by (apply literal_no_slash; reflexivity).
  assert (Forall (fun c => c <> 47%N) (py "unknown_date_")) as Hunknown
    by (apply literal_no_slash; reflexivity).
  assert (Forall (fun c => c <> 47%N) (id_text post)) as Hid.
  { unfold id_text. destruct (post_id post);
      [apply str_of_int_no_slash | apply literal_no_slash; reflexivity]. }
  assert (forall title, Forall (fun c => c <> 47%N) (title_slug title))
    as Hslug.
  { intros title. eapply Forall_impl; [apply title_slug_word_characters|].
    intros c Hc. unfold isword in Hc.
    apply orb_true_iff in Hc as [Hc|Hc]; [by apply Halnum|].
    apply N.eqb_eq in Hc. by subst c. }
  assert (forall dt, Forall (fun c => c <> 47%N) (strftime_Ymd dt)) as Hdate.
  { intros dt. unfold strftime_Ymd.
    apply Forall_app_2; [|apply Forall_app_2];
      (apply zfill_characters; [discriminate | apply str_of_int_no_slash]). }
  unfold _get_filename. destruct (parse_date _) as [dt|].
  - split.
    + apply Forall_app_2; [apply Hdate|].
      apply Forall_app_2; [exact Hsep|].
      apply Forall_app_2; [apply Hslug | exact Hext].
    + by do 3 apply suffix_app_r.
  - split.
    + apply Forall_app_2; [exact Hunknown|].
      apply Forall_app_2; [exact Hid | exact Hext].
    + by do 2 apply suffix_app_r.
Qed.

End FileNames.

Lemma get_filename_is_one_component_witness :
  (forall c, @isalnum Demo.unicode c = true -> c <> 47%N) /\
  Forall (fun c => c <> 47%N)
    (@PDFGenerator._get_filename Demo.html Demo.dates Demo.unicode
       Demo.its_here) /\
  py ".pdf" `suffix_of`
    @PDFGenerator._get_filename Demo.html Demo.dates Demo.unicode
      Demo.its_here.
Proof.
  assert (forall c, @isalnum Demo.unicode c = true -> c <> 47%N) as H
    by (intros c Hc ->; discriminate Hc).
  split; [exact H|].
  exact (@get_filename_is_one_component Demo.html Demo.dates Demo.unicode
           Demo.its_here H).
Defined.

(** * Further properties of image placement *)

Section ImagesMore.
Import PDFGenerator.


End ImagesMore.


(** * The tag line *)

Section Tags.
Import PDFGenerator.

Lemma fromkeys_elem_of tags tag : tag ∈ fromkeys tags <-> tag ∈ tags.
Proof.
  induction tags as [|t rest IH]; simpl; [done|].
  rewrite !elem_of_cons, list_elem_of_filter, IH.
  destruct (decide (tag = t)); tauto.
Qed.

Lemma fromkeys_NoDup tags : NoDup (fromkeys tags).
Proof.
  induction tags as [|t rest IH]; simpl; [constructor|].
  apply NoDup_cons. split; [|by apply NoDup_filter].
  rewrite list_elem_of_filter. by intros [H _].
Qed.

Lemma fromkeys_sublist tags : fromkeys tags `sublist_of` tags.
Proof.
  induction tags as [|t rest IH]; simpl; [done|].
  apply sublist_skip. etrans; [apply sublist_filter | exact IH].
Qed.

(** The order of [fromkeys] is that of first occurrences: a tag that
    stands before another in the result occurs in the list before the
    other occurs at all. *)
Lemma fromkeys_order tags a b :
  [a; b] `sublist_of` fromkeys tags ->
  exists before after,
    tags = before ++ a :: after /\ (a ∉ before) /\ (b ∉ before).
Proof.
  induction tags as [|t rest IH]; simpl.
  - intros H. by apply sublist_nil_r in H.
  - intros H. apply sublist_cons_r in H as [H|(l' & [= -> <-] & _)].
    + assert (a <> t /\ b <> t) as [Ha Hb].
      { split.
        - assert (a ∈ filter (fun t0 => t0 <> t) (fromkeys rest)) as Hin
            by (eapply elem_of_sublist; [|exact H]; by left).
          by apply list_elem_of_filter in Hin as [Hne _].
        - assert (b ∈ filter (fun t0 => t0 <> t) (fromkeys rest)) as Hin
            by (eapply elem_of_sublist; [|exact H]; right; by left).
          by apply list_elem_of_filter in Hin as [Hne _]. }
      destruct IH as (before & after & -> & Hna & Hnb).
      { etrans; [exact H | apply sublist_filter]. }
      exists (t :: before), after. split; [done|].
      rewrite !elem_of_cons. split; intros [?|?]; done.
    + exists [], rest. split; [done|]. split; apply not_elem_of_nil.
Qed.

Lemma term_tags_nonempty entry : Forall (fun tag => tag <> []) (term_tags entry).
Proof.
  destruct entry as [[tax name]|]; simpl; [|constructor].
  destruct (default [] name) as [|c s] eqn:Hname; simpl; [constructor|].
  repeat case_bool_decide; repeat constructor; done.
Qed.

Lemma join_nil_iff sep parts :
  Forall (fun p : pystr => p <> []) parts ->
  join sep parts = [] <-> parts = [].
Proof.
  intros Hparts. split; [|by intros ->].
  destruct Hparts as [|p rest Hp _]; [done|].
  destruct p; [done|]. by destruct rest.
Qed.

(** X21. The tag line lists every named term once: the tags are without
    repetition, they are the labels of the terms (skipping what is not a
    list of dictionaries and terms without a name), each at the place of
    its first occurrence (a tag that stands before another in the line
    occurs among the labels before the other occurs at all), none of them
    is empty, and the line is empty exactly when there is no named term. *)
Theorem extract_tags_lists_each_tag_once (groups : list json_group) :
  let labels := flat_map group_tags groups in
  let tags := extracted_tags (Some (Some groups)) in
  _extract_tags (Some (Some groups)) = join (py ", ") tags /\
  NoDup tags /\
  tags `sublist_of` labels /\
  (forall a b, [a; b] `sublist_of` tags ->
     exists before after,
       labels = before ++ a :: after /\ (a ∉ before) /\ (b ∉ before)) /\
  (forall tag, tag ∈ tags <->
     exists terms entry,
       TermList terms ∈ groups /\ entry ∈ terms /\ tag ∈ term_tags entry) /\
  Forall (fun tag => tag <> []) tags /\
  (_extract_tags (Some (Some groups)) = [] <-> labels = []).
Proof.
  cbn zeta. unfold _extract_tags, extracted_tags. simpl default.
  set (labels := flat_map group_tags groups).
  assert (Forall (fun tag : pystr => tag <> []) labels) as Hlabels.
  { subst labels. apply Forall_forall. intros tag Htag.
    apply list_elem_of_In, in_flat_map in Htag as ([terms|] & _ & Htag);
      [|done].
    simpl in Htag. apply in_flat_map in Htag as (entry & _ & Htag).
    pose proof (term_tags_nonempty entry) as Hne.
    rewrite Forall_forall in Hne. apply (Hne tag).
    by apply list_elem_of_In. }
  assert (Forall (fun tag : pystr => tag <> []) (fromkeys labels)) as Htags.
  { apply Forall_forall. intros tag Htag. rewrite fromkeys_elem_of in Htag.
    rewrite Forall_forall in Hlabels. exact (Hlabels tag Htag). }
  split; [done|]. split; [apply fromkeys_NoDup|].
  split; [apply fromkeys_sublist|]. split; [apply fromkeys_order|].
  split; [|split; [exact Htags|]].
  - intros tag. rewrite fromkeys_elem_of. subst labels.
    rewrite list_elem_of_In, in_flat_map. split.
    + intros ([terms|] & Hg & Htag); [|done]. simpl in Htag.
      apply in_flat_map in Htag as (entry & He & Htag).
      exists terms, entry. by rewrite !list_elem_of_In.
    + intros (terms & entry & Hg & He & Htag).
      exists (TermList terms). rewrite <- list_elem_of_In. split; [done|].
      simpl. apply in_flat_map. exists entry. by rewrite <- !list_elem_of_In.
  - rewrite (join_nil_iff _ _ Htags). split.
    + intros Hnil. destruct labels as [|l ls]; [done|]. discriminate Hnil.
    + by intros ->.
Qed.

(** A post without embedded data, or whose embedded data has no
    'wp:term', has an empty tag line. *)
Lemma extract_tags_without_terms :
  _extract_tags None = [] /\ _extract_tags (Some None) = [].
Proof. done. Qed.

End Tags.

(** * The paragraph loop *)

Section ParagraphLoop.
Import PDFGenerator Rows.
Context {emoji : EmojiLib} {provider : CacheManager.Provider}
        {metrics : FPDF.FontMetrics}.

Lemma start_paragraph_geometry first_paragraph (pdf0 : FPDF.t) :
  same_geometry pdf0 (start_paragraph first_paragraph pdf0).
Proof.
  unfold start_paragraph. destruct first_paragraph; cbn zeta;
    destruct (Qgtb _ _); by repeat split.
Qed.

Lemma start_paragraph_room first_paragraph (pdf0 : FPDF.t) :
  (FPDF.t_margin pdf0 + 20 <= FPDF.h pdf0 - FPDF.b_margin pdf0)%Q ->
  (FPDF.y (start_paragraph first_paragraph pdf0) + 20
   <= FPDF.h pdf0 - FPDF.b_margin pdf0)%Q.
Proof.
  intros Hpage. unfold start_paragraph. cbn zeta.
  set (pdf1 := if first_paragraph then pdf0 else FPDF.ln 8 pdf0).
  assert (FPDF.h pdf1 = FPDF.h pdf0 /\ FPDF.b_margin pdf1 = FPDF.b_margin pdf0
          /\ FPDF.t_margin pdf1 = FPDF.t_margin pdf0) as (Hh & Hb & Ht)
    by (subst pdf1; by destruct first_paragraph).
  rewrite Hh, Hb. unfold Qgtb, FPDF.get_y.
  destruct (Qle_bool _ _) eqn:Hroom; simpl.
  - by apply Qle_bool_iff in Hroom.
  - by rewrite Ht.
Qed.

(** The first line that holds segments begins with the first segment, at
    the ordinate the lines start from. *)
Lemma first_line_holds_first_segment (ls : list (Q * list segment))
    (y line_height y' : Q) (last_line : list segment) seg tl :
  concat (map snd ls) ++ last_line = seg :: tl ->
  map fst ls = rows y line_height (length ls) ->
  y' = below y line_height (length ls) ->
  Forall (fun l => snd l <> []) ls ->
  exists line more, ls ++ [(y', last_line)] = (y, seg :: line) :: more.
Proof.
  intros Hsegs Hrows Hy Hne. destruct ls as [|[y1 l1] ls'].
  - simpl in *. subst. by exists tl, [].
  - simpl in Hrows. injection Hrows as -> _.
    inversion Hne as [|? ? Hl1 _]; subst. simpl in Hl1.
    destruct l1 as [|s l1']; [done|].
    simpl in Hsegs. injection Hsegs as -> _.
    by exists l1', (ls' ++ [(below y line_height (S (length ls')), last_line)]).
Qed.

(** One step of the first pass. *)
Lemma first_pass_cons seg rest x_start line_height font_size style
    (st : pass) :
  first_pass (seg :: rest) x_start line_height font_size style st =
  let width := fst (segment_width font_size style seg (pdf (wd st))) in
  let pdf1 := snd (segment_width font_size style seg (pdf (wd st))) in
  first_pass rest x_start line_height font_size style
    (if Qgtb (current_x st + width)%Q (FPDF.w pdf1 - FPDF.r_margin pdf1)%Q
     then {| current_x := (x_start + width)%Q;
             y_position := (y_position st + line_height)%Q;
             line_segments := [seg];
             wd := _write_line (line_segments st) x_start (y_position st)
                               line_height font_size style
                               (with_pdf pdf1 (wd st)) |}
     else {| current_x := (current_x st + width)%Q;
             y_position := y_position st;
             line_segments := line_segments st ++ [seg];
             wd := with_pdf pdf1 (wd st) |}).
Proof.
  simpl. destruct (segment_width _ _ _ _) as [width pdf1]. simpl.
  by destruct (Qgtb _ _).
Qed.

(** Where the first segment of a paragraph goes: on the first line written
    when it fits between the margins, and on the second, after an empty
    first line, when it is wider. *)
Lemma write_text_first_line text font_size style (w0 : world) seg rest :
  text <> [] ->
  _split_text_and_emojis text = Some (seg :: rest) ->
  let y0 := FPDF.y (pdf w0) in
  let line_height := (font_size * 1.5)%Q in
  exists w1 line more,
    _write_text_with_emojis text font_size style w0 = Some w1 /\
    lines_written w1
    = lines_written w0 ++
      if Qgtb (FPDF.l_margin (pdf w0)
               + Spec.reserved_width font_size style (FPDF.k (pdf w0)) seg)
              (FPDF.w (pdf w0) - FPDF.r_margin (pdf w0))
      then (y0, []) :: ((y0 + line_height)%Q, seg :: line) :: more
      else (y0, seg :: line) :: more.
Proof.
  intros Htext Hsegs y0 lh.
  unfold _write_text_with_emojis. destruct text as [|c text]; [done|].
  simpl truthy. simpl negb. cbv iota. rewrite Hsegs. cbv zeta.
  rewrite first_pass_cons. cbv zeta.
  cbn [wd current_x y_position line_segments app].
  destruct (segment_width_reserved font_size style seg (pdf w0))
    as [-> (Hw & _ & _ & _ & Hr & _)].
  rewrite <- Hw, <- Hr. fold lh. change (FPDF.get_y (pdf w0)) with y0.
  destruct (Qgtb _ _) eqn:Hbreak;
    match goal with |- context [first_pass rest ?x ?l _ _ ?s] =>
      destruct (first_pass_invariant rest x l font_size style s)
        as (ls & H1 & H2 & H3 & H4 & _ & H6 & _ & H8 & _);
      set (st := first_pass rest x l font_size style s) in *
    end;
    cbn [wd current_x y_position line_segments] in H1, H2, H3, H4, H6, H8;
    assert (line_segments st <> []) as Hlast by (apply H8; by left);
    specialize (H6 ltac:(done));
    destruct (line_segments st) as [|s0 line0] eqn:Hline; try done;
    simpl truthy; cbv iota;
    destruct (first_line_holds_first_segment ls _ lh (y_position st)
                (s0 :: line0) seg rest H2 H3 H4 H6) as (line & more & Hls);
    eexists _, line, more; (split; [reflexivity|]);
    cbn [with_pdf lines_written]; rewrite write_line_lines, H1.
  - rewrite write_line_lines. cbn [with_pdf lines_written].
    rewrite <- !app_assoc. f_equal. rewrite Hls. reflexivity.
  - cbn [with_pdf lines_written].
    rewrite <- !app_assoc. f_equal. exact Hls.
Qed.

(** X22. On a page that has room for 20 units between its top and bottom
    margins, every paragraph is laid out (provided no key of the emoji
    table is empty) from an ordinate y0 at least 20 units above the bottom
    margin: [create_pdf] starts a new page before the paragraph when less
    is left.  The first segment of the paragraph opens the line at y0 when
    it fits between the margins; when it is wider, the line at y0 is the
    empty one and the segment opens the line one line height (18 units)
    further down, for which only 2 units of room are then certain. *)
Theorem paragraph_starts_with_room first_paragraph paragraph (w : world) :
  Forall (fun em => em <> []) EMOJI_DATA ->
  (FPDF.t_margin (pdf w) + 20
   <= FPDF.h (pdf w) - FPDF.b_margin (pdf w))%Q ->
  let started := start_paragraph first_paragraph (pdf w) in
  let y0 := FPDF.y started in
  let limit := (FPDF.w (pdf w) - FPDF.r_margin (pdf w))%Q in
  exists w' segs ls,
    _write_text_with_emojis paragraph 12 [] (with_pdf started w) = Some w' /\
    _split_text_and_emojis paragraph = Some segs /\
    lines_written w' = lines_written w ++ ls /\
    (y0 + 20 <= FPDF.h (pdf w) - FPDF.b_margin (pdf w))%Q /\
    match segs with
    | [] => ls = []
    | seg :: _ =>
        exists line more,
          ls = if Qgtb (FPDF.l_margin (pdf w)
                        + Spec.reserved_width 12 [] (FPDF.k (pdf w)) seg)
                       limit
               then (y0, []) :: ((y0 + 12 * 1.5)%Q, seg :: line) :: more
               else (y0, seg :: line) :: more
    end.
Proof.
  intros Htab Hpage started y0 limit.
  pose proof (start_paragraph_room first_paragraph (pdf w) Hpage) as Hroom.
  destruct (start_paragraph_geometry first_paragraph (pdf w))
    as (Hw & _ & Hk & Hl & Hr & _).
  fold started in Hroom, Hw, Hk, Hl, Hr. fold y0 in Hroom.
  destruct (split_loop_spec (S (length paragraph)) paragraph 0 [] [] Htab)
    as (segs & Hsegs & Hcontents & _); try done; simpl; try lia;
    [constructor|].
  change (_split_text_and_emojis paragraph = Some segs) in Hsegs.
  destruct segs as [|seg rest].
  - unfold contents in Hcontents. simpl in Hcontents. subst paragraph.
    exists (with_pdf started w), [], []. by rewrite app_nil_r.
  - assert (paragraph <> []) as Htext.
    { intros ->. by injection Hsegs. }
    destruct (write_text_first_line paragraph 12 [] (with_pdf started w)
                seg rest Htext Hsegs) as (w' & line & more & Hwrite & Hlines).
    cbn [with_pdf pdf lines_written] in Hlines.
    rewrite <- Hw, <- Hk, <- Hl, <- Hr in Hlines.
    eexists w', (seg :: rest), _.
    split; [exact Hwrite|]. split; [done|]. split; [exact Hlines|].
    split; [exact Hroom|]. by exists line, more.
Qed.

Lemma start_paragraph_texts first_paragraph (pdf0 : FPDF.t) :
  omap written_text (FPDF.calls (start_paragraph first_paragraph pdf0))
  = omap written_text (FPDF.calls pdf0).
Proof.
  unfold start_paragraph. destruct first_paragraph; cbn zeta;
    destruct (Qgtb _ _); simpl; rewrite ?omap_app; simpl;
    by rewrite ?app_nil_r.
Qed.

Lemma write_paragraphs_texts paragraphs :
  forall first_paragraph (w w' : world),
  write_paragraphs paragraphs first_paragraph w = Some w' ->
  exists segss,
    Forall2 (fun paragraph segs =>
               _split_text_and_emojis paragraph = Some segs)
            (filter (fun paragraph => truthy (strip paragraph) = true)
                    paragraphs) segss /\
    omap written_text (FPDF.calls (pdf w'))
    = omap written_text (FPDF.calls (pdf w)) ++ concat (map texts segss).
Proof.
  induction paragraphs as [|paragraph rest IH]; intros first_paragraph w w'.
  - simpl. intros [= <-]. exists []. split; [constructor|].
    by rewrite app_nil_r.
  - simpl. rewrite filter_cons.
    destruct (truthy (strip paragraph)) eqn:Hblank.
    + destruct (_write_text_with_emojis _ _ _ _) as [w1|] eqn:Hwrite;
        [|discriminate].
      intros Hrest. destruct (IH _ _ _ Hrest) as (segss & Hall & Htexts).
      destruct (write_text_texts _ _ _ _ _ Hwrite) as (segs & Hsplit & Hw1).
      rewrite decide_True by done.
      exists (segs :: segss). split; [by constructor|].
      rewrite Htexts, Hw1. cbn [with_pdf pdf].
      rewrite start_paragraph_texts. simpl. by rewrite <- app_assoc.
    + rewrite decide_False by done. apply IH.
Qed.

(** The paragraph loop ends, whatever the paragraphs. *)
Lemma write_paragraphs_returns paragraphs :
  Forall (fun em => em <> []) EMOJI_DATA ->
  forall first_paragraph (w : world),
  exists w', write_paragraphs paragraphs first_paragraph w = Some w'.
Proof.
  intros Htab.
  induction paragraphs as [|paragraph rest IH]; intros first_paragraph w;
    simpl; [by eexists|].
  destruct (truthy (strip paragraph)); [|apply IH].
  destruct (write_text_returns paragraph 12 []
              (with_pdf (start_paragraph first_paragraph (pdf w)) w) Htab)
    as [w1 ->].
  apply IH.
Qed.

(** X23. The paragraph loop ends (provided no key of the emoji table is
    empty) and the text of the body is printed completely and in order:
    the strings printed since the loop began are the contents of the text
    segments of the non-blank paragraphs, paragraph after paragraph,
    whatever page breaks and glyph failures occurred. *)
Theorem paragraphs_are_printed_in_order paragraphs (w : world) :
  Forall (fun em => em <> []) EMOJI_DATA ->
  exists w' segss,
    write_content paragraphs w = Some w' /\
    Forall2 (fun paragraph segs =>
               _split_text_and_emojis paragraph = Some segs)
            (filter (fun paragraph => truthy (strip paragraph) = true)
                    paragraphs) segss /\
    omap written_text (FPDF.calls (pdf w'))
    = omap written_text (FPDF.calls (pdf w)) ++ concat (map texts segss).
Proof.
  intros Htab. unfold write_content.
  destruct (write_paragraphs_returns paragraphs Htab true
              (with_pdf (FPDF.set_font [] 12 (pdf w)) w)) as [w' Hloop].
  destruct (write_paragraphs_texts _ _ _ _ Hloop) as (segss & Hall & Htexts).
  by exists w', segss.
Qed.

End ParagraphLoop.

Lemma paragraph_starts_with_room_witness :
  let w := Demo.fresh_world Demo.empty_cache in
  let started :=
    PDFGenerator.start_paragraph false (PDFGenerator.pdf w) in
  let y0 := FPDF.y started in
  let limit :=
    (FPDF.w (PDFGenerator.pdf w) - FPDF.r_margin (PDFGenerator.pdf w))%Q in
  Forall (fun em => em <> []) (@EMOJI_DATA Demo.emoji) /\
  (FPDF.t_margin (PDFGenerator.pdf w) + 20
   <= FPDF.h (PDFGenerator.pdf w) - FPDF.b_margin (PDFGenerator.pdf w))%Q /\
  exists w' segs ls,
    @PDFGenerator._write_text_with_emojis Demo.emoji Demo.online
      Demo.fixed_pitch (replicate 100 97%N) 12 []
      (PDFGenerator.with_pdf started w) = Some w' /\
    @PDFGenerator._split_text_and_emojis Demo.emoji (replicate 100 97%N)
    = Some segs /\
    PDFGenerator.lines_written w' = PDFGenerator.lines_written w ++ ls /\
    (y0 + 20
     <= FPDF.h (PDFGenerator.pdf w) - FPDF.b_margin (PDFGenerator.pdf w))%Q /\
    match segs with
    | [] => ls = []
    | seg :: _ =>
        exists line more,
          ls = if Qgtb (FPDF.l_margin (PDFGenerator.pdf w)
                        + @Spec.reserved_width Demo.fixed_pitch 12 []
                            (FPDF.k (PDFGenerator.pdf w)) seg)
                       limit
               then (y0, []) :: ((y0 + 12 * 1.5)%Q, seg :: line) :: more
               else (y0, seg :: line) :: more
    end.
Proof.
  intros w started y0 limit.
  assert (Forall (fun em : pystr => em <> []) (@EMOJI_DATA Demo.emoji)) as H1
    by (repeat constructor; discriminate).
  assert (FPDF.t_margin (PDFGenerator.pdf w) + 20
          <= FPDF.h (PDFGenerator.pdf w)
             - FPDF.b_margin (PDFGenerator.pdf w))%Q as H2
    by (unfold Qle; simpl; lia).
  split; [exact H1|]. split; [exact H2|].
  exact (@paragraph_starts_with_room Demo.emoji Demo.online Demo.fixed_pitch
           false (replicate 100 97%N) w H1 H2).
Defined.

Lemma paragraphs_are_printed_in_order_witness :
  let w := Demo.fresh_world Demo.empty_cache in
  let paragraphs := [py "Hi there"; py "  "; Demo.paragraph] in
  Forall (fun em => em <> []) (@EMOJI_DATA Demo.emoji) /\
  exists w' segss,
    @PDFGenerator.write_content Demo.emoji Demo.online Demo.fixed_pitch
      paragraphs w = Some w' /\
    Forall2 (fun paragraph segs =>
               @PDFGenerator._split_text_and_emojis Demo.emoji paragraph
               = Some segs)
            (filter (fun paragraph => truthy (strip paragraph) = true)
                    paragraphs) segss /\
    omap Rows.written_text (FPDF.calls (PDFGenerator.pdf w'))
    = omap Rows.written_text (FPDF.calls (PDFGenerator.pdf w))
      ++ concat (map Rows.texts segss).
Proof.
  intros w paragraphs.
  assert (Forall (fun em : pystr => em <> []) (@EMOJI_DATA Demo.emoji)) as H
    by (repeat constructor; discriminate).
  split; [exact H|].
  exact (@paragraphs_are_printed_in_order Demo.emoji Demo.online
           Demo.fixed_pitch paragraphs w H).
Defined.

(** * The segmentation takes the first key of the table *)

Section FirstKey.
Import PDFGenerator.
Context {emoji : EmojiLib}.

Lemma flush_prefix segs cur : segs `prefix_of` flush segs cur.
Proof.
  unfold flush. destruct (truthy cur); [by eexists | done].
Qed.

Lemma split_loop_prefix fuel text i segs cur out :
  split_loop fuel text i segs cur = Some out -> segs `prefix_of` out.
Proof.
  revert i segs cur.
  induction fuel as [|fuel IH]; intros i segs cur; [discriminate|].
  simpl. destruct (i <? length text).
  - destruct (existsb _ EMOJI_DATA).
    + destruct (find _ EMOJI_DATA) as [em|]; intros H; apply IH in H.
      * etrans; [apply flush_prefix|]. etrans; [|exact H].
        by apply prefix_app_r.
      * etrans; [apply flush_prefix | exact H].
    + destruct (text !! i); [|discriminate]. apply IH.
  - intros [= <-]. apply flush_prefix.
Qed.

(** X24. Where several keys of the emoji table match at the start of the
    text, the one that comes first in the table becomes the first segment,
    whether or not a longer key matches too. *)
Theorem first_matching_key_is_taken (text em : pystr) :
  Forall (fun key => key <> []) EMOJI_DATA ->
  find (startswith text) EMOJI_DATA = Some em ->
  exists rest, _split_text_and_emojis text = Some ((true, em) :: rest).
Proof.
  intros Htab Hfind.
  pose proof (find_some _ _ Hfind) as [Hin Hstarts].
  assert (em <> []) as Hem.
  { rewrite Forall_forall in Htab. apply Htab. by apply list_elem_of_In. }
  apply startswith_app in Hstarts as [r Hr].
  assert (0 < length em) as Hlen by (destruct em; simpl; [done | lia]).
  assert (length text = length em + length r) as Htext
    by (rewrite Hr; apply length_app).
  unfold _split_text_and_emojis. simpl split_loop.
  destruct (Nat.ltb_spec 0 (length text)) as [_|]; [|lia].
  rewrite drop_0.
  assert (existsb (startswith text) EMOJI_DATA = true) as ->.
  { apply existsb_exists. exists em. split; [done|].
    apply startswith_app. by exists r. }
  rewrite Hfind. simpl.
  destruct (split_loop_spec (length text) text (length em) [(true, em)] [])
    as (out & Hout & _); try done; try lia.
  - unfold contents. simpl. rewrite !app_nil_r, Hr.
    by rewrite take_app_length.
  - constructor; [|constructor]. intros Ht. discriminate Ht.
  - rewrite Hout. apply split_loop_prefix in Hout as [rest ->].
    by exists rest.
Qed.

End FirstKey.

Lemma first_matching_key_is_taken_witness :
  let text := Demo.red_heart ++ py "!" in
  Forall (fun key => key <> []) (@EMOJI_DATA Demo.emoji) /\
  find (startswith text) (@EMOJI_DATA Demo.emoji) = Some Demo.heart /\
  exists rest,
    @PDFGenerator._split_text_and_emojis Demo.emoji text
    = Some ((true, Demo.heart) :: rest).
Proof.
  intros text.
  assert (Forall (fun key : pystr => key <> []) (@EMOJI_DATA Demo.emoji))
    as H1 by (repeat constructor; discriminate).
  assert (find (startswith text) (@EMOJI_DATA Demo.emoji) = Some Demo.heart)
    as H2 by reflexivity.
  split; [exact H1|]. split; [exact H2|].
  exact (@first_matching_key_is_taken Demo.emoji text Demo.heart H1 H2).
Defined.

(** * The record of processed posts *)

Section ProcessedPosts.
Import BatchProcessor.

(** X25. Nothing recorded is forgotten: after ids are saved one after
    another, the set loaded is exactly those ids together with the ids that
    could be loaded before.  A missing or unreadable file counts as
    empty. *)
Theorem processed_posts_are_remembered (ids : list Z)
    (processed_file : json_file (list Z)) :
  load_processed_posts
    (fold_left (fun file post_id => save_processed_post post_id file)
               ids processed_file)
  = list_to_set ids ∪ load_processed_posts processed_file.
Proof.
  revert processed_file.
  induction ids as [|post_id ids IH]; intros processed_file; simpl.
  - by rewrite (left_id_L ∅ (∪)).
  - rewrite IH. unfold save_processed_post at 1. simpl.
    rewrite list_to_set_elements_L.
    by rewrite (assoc_L (∪)), (comm_L (∪) (list_to_set ids)).
Qed.

End ProcessedPosts.

(** * Images that cannot be placed *)

Section ImagePages.
Import PDFGenerator.

Lemma place_image_page (image : Image) (pdf0 : FPDF.t) :
  exists page,
    FPDF.calls (place_image image pdf0)
    = FPDF.calls pdf0 ++ FPDF.AddPage :: page /\
    (page = [] \/ exists x y w, page = [FPDF.ImageObject image x y w]) /\
    (width image = 0%Z -> page = []).
Proof.
  unfold place_image.
  destruct (image_size image (FPDF.add_page pdf0)) as [[iw ih]|] eqn:Hsize.
  - eexists. split; [simpl; by rewrite <- app_assoc|].
    split; [right; by do 3 eexists|].
    intros Hzero. unfold image_size in Hsize. by rewrite Hzero in Hsize.
  - exists []. split; [done|]. split; [by left | done].
Qed.

(** X26. Every entry of the image list that is not None starts exactly one
    new page, whether or not the image can be placed: the pages already
    there are untouched, and the new page holds that image alone, or
    nothing when its size cannot be computed (as for an image of width 0,
    whose division by zero is caught after the page was started). *)
Theorem every_image_starts_one_page (images : list (option Image))
    (pdf0 : FPDF.t) :
  exists new_pages,
    FPDF.pages (FPDF.calls (place_images images pdf0))
    = FPDF.pages (FPDF.calls pdf0) ++ new_pages /\
    Forall2 (fun page image =>
               (page = [] \/
                exists x y w, page = [FPDF.ImageObject image x y w]) /\
               (width image = 0%Z -> page = []))
            new_pages (omap id images).
Proof.
  revert pdf0. induction images as [|entry images IH]; intros pdf0; simpl.
  - exists []. rewrite app_nil_r. split; [done | constructor].
  - destruct entry as [image|]; simpl; [|apply IH].
    destruct (place_image_page image pdf0) as (page & Hcalls & Hpage).
    destruct (IH (place_image image pdf0)) as (rest & Hpages & Hall).
    exists (page :: rest). split; [|by constructor].
    rewrite Hpages, Hcalls, pages_add_page, <- app_assoc. do 2 f_equal.
    destruct Hpage as [[->|(x & y & w & ->)] _]; reflexivity.
Qed.

End ImagePages.
